(** * LLM_chess: the search engine of chess-mcp-server.js

    A shallow embedding of the engine part of [src/chess-mcp-server.js]:
    the static evaluator [evaluatePosition], the move orderer [orderMoves],
    the alpha-beta search [minimax], the root driver [getBestMove] and the
    tool-call handler.  The rules engine (the [Chess] object of chess.js) is
    an external collaborator; it enters as the interface [RulesEngine]. *)

From Stdlib Require Import ZArith Lia List String Bool.
From Stdlib Require Import Orders OrdersTac Sorting.Sorted Sorting.Permutation.
From stdpp Require Import base list gmap strings.

Import ListNotations.
Local Open Scope string_scope.
Local Open Scope Z_scope.

(** ** Scores

    JavaScript numbers as the engine uses them: integers (all piece values,
    table entries and the mobility weight are integers) and the two
    infinities that seed the running maximum and minimum. *)

Inductive Score : Type :=
  | NegInf
  | Fin (z : Z)
  | PosInf.

(** [a <= b] on JavaScript numbers. *)
Definition sle (a b : Score) : bool :=
  match a, b with
  | NegInf, _ => true
  | _, PosInf => true
  | Fin x, Fin y => x <=? y
  | _, _ => false
  end.

(** [a < b]. *)
Definition slt (a b : Score) : bool := negb (sle b a).

(** [Math.max(a, b)] and [Math.min(a, b)]. *)
Definition smax (a b : Score) : Score := if sle a b then b else a.
Definition smin (a b : Score) : Score := if sle a b then a else b.

Definition sLe (a b : Score) : Prop := sle a b = true.
Definition sLt (a b : Score) : Prop := slt a b = true.

(** ** Pieces, moves and boards *)

Inductive Color : Type := White | Black.

Inductive PieceType : Type := Pawn | Knight | Bishop | Rook | Queen | King.

(** An entry of [chess.board()]: [{ type, color }]. *)
Record Piece : Type := mkPiece { ptype : PieceType; color : Color }.

(** The object returned by [chess.move(...)]. *)
Record MoveObj : Type := mkMoveObj {
  piece : PieceType;
  captured : option PieceType;
  promotion : option PieceType;
  san : string
}.

(** [chess.moves()] lists moves in standard algebraic notation. *)
Definition Move : Type := string.

(** [chess.board()]: rows from rank 8 down to rank 1, [null] for an empty
    square. *)
Definition Board : Type := list (list (option Piece)).

Definition isWhite (c : Color) : bool :=
  match c with White => true | Black => false end.

(** ** The rules engine

    What the engine code calls on a [Chess] object.  [move] fails ([None])
    on a move the rules reject; [undo] pops the last move. *)

Class RulesEngine (Position : Type) : Type := {
  newChess : Position;
  moves : Position -> list Move;
  move : Position -> Move -> option (MoveObj * Position);
  undo : Position -> Position;
  turn : Position -> Color;
  isCheck : Position -> bool;
  isCheckmate : Position -> bool;
  isStalemate : Position -> bool;
  isDraw : Position -> bool;
  isGameOver : Position -> bool;
  board : Position -> Board;
  ascii : Position -> string
}.

(** ** Constant tables *)

Definition PIECE_VALUES (t : PieceType) : Z :=
  match t with
  | Pawn => 100
  | Knight => 320
  | Bishop => 330
  | Rook => 500
  | Queen => 900
  | King => 20000
  end.

(** Piece-square tables, from White's side; the row is flipped for Black. *)
Definition PST (t : PieceType) : list (list Z) :=
  match t with
  | Pawn =>
    [ [0;  0;  0;  0;  0;  0;  0;  0];
      [50; 50; 50; 50; 50; 50; 50; 50];
      [10; 10; 20; 30; 30; 20; 10; 10];
      [5;  5; 10; 25; 25; 10;  5;  5];
      [0;  0;  0; 20; 20;  0;  0;  0];
      [5; -5;-10;  0;  0;-10; -5;  5];
      [5; 10; 10;-20;-20; 10; 10;  5];
      [0;  0;  0;  0;  0;  0;  0;  0] ]
  | Knight =>
    [ [-50;-40;-30;-30;-30;-30;-40;-50];
      [-40;-20;  0;  0;  0;  0;-20;-40];
      [-30;  0; 10; 15; 15; 10;  0;-30];
      [-30;  5; 15; 20; 20; 15;  5;-30];
      [-30;  0; 15; 20; 20; 15;  0;-30];
      [-30;  5; 10; 15; 15; 10;  5;-30];
      [-40;-20;  0;  5;  5;  0;-20;-40];
      [-50;-40;-30;-30;-30;-30;-40;-50] ]
  | Bishop =>
    [ [-20;-10;-10;-10;-10;-10;-10;-20];
      [-10;  0;  0;  0;  0;  0;  0;-10];
      [-10;  0; 10; 10; 10; 10;  0;-10];
      [-10;  5;  5; 10; 10;  5;  5;-10];
      [-10;  0;  5; 10; 10;  5;  0;-10];
      [-10;  5;  5;  5;  5;  5;  5;-10];
      [-10;  5;  0;  0;  0;  0;  5;-10];
      [-20;-10;-10;-10;-10;-10;-10;-20] ]
  | Rook =>
    [ [0;  0;  0;  0;  0;  0;  0;  0];
      [5; 10; 10; 10; 10; 10; 10;  5];
      [-5;  0;  0;  0;  0;  0;  0; -5];
      [-5;  0;  0;  0;  0;  0;  0; -5];
      [-5;  0;  0;  0;  0;  0;  0; -5];
      [-5;  0;  0;  0;  0;  0;  0; -5];
      [-5;  0;  0;  0;  0;  0;  0; -5];
      [0;  0;  0;  5;  5;  0;  0;  0] ]
  | Queen =>
    [ [-20;-10;-10; -5; -5;-10;-10;-20];
      [-10;  0;  0;  0;  0;  0;  0;-10];
      [-10;  0;  5;  5;  5;  5;  0;-10];
      [-5;  0;  5;  5;  5;  5;  0; -5];
      [0;  0;  5;  5;  5;  5;  0; -5];
      [-10;  5;  5;  5;  5;  5;  0;-10];
      [-10;  0;  5;  0;  0;  0;  0;-10];
      [-20;-10;-10; -5; -5;-10;-10;-20] ]
  | King =>
    [ [-30;-40;-40;-50;-50;-40;-40;-30];
      [-30;-40;-40;-50;-50;-40;-40;-30];
      [-30;-40;-40;-50;-50;-40;-40;-30];
      [-30;-40;-40;-50;-50;-40;-40;-30];
      [-20;-30;-30;-40;-40;-30;-30;-20];
      [-10;-20;-20;-20;-20;-20;-20;-10];
      [20; 20;  0;  0;  0;  0; 20; 20];
      [20; 30; 10;  0;  0; 10; 30; 20] ]
  end.

(** [getPST(piece, row, col)].  Every piece type has a table, so the
    [!table] exit of the source is never taken. *)
Definition getPST (pc : Piece) (row col : nat) : Z :=
  let table := PST (ptype pc) in
  let r := match color pc with White => row | Black => (7 - row)%nat end in
  nth col (nth r table []) 0.

(** [board[row][col]]. *)
Definition pieceAt (b : Board) (row col : nat) : option Piece :=
  nth col (nth row b []) None.

(** What the content [sq] of square ([row], [col]) adds to [score] in the
    double loop of [evaluatePosition]. *)
Definition pieceValue (sq : option Piece) (row col : nat) : Z :=
  match sq with
  | Some pc =>
      let materialValue := PIECE_VALUES (ptype pc) in
      let positionalValue := getPST pc row col in
      let totalValue := materialValue + positionalValue in
      match color pc with White => totalValue | Black => - totalValue end
  | None => 0
  end.

Definition squareValue (b : Board) (row col : nat) : Z :=
  pieceValue (pieceAt b row col) row col.

(** The nested [for] loops over rows 0..7 and columns 0..7. *)
Definition boardScore (b : Board) : Z :=
  fold_left
    (fun score row =>
       fold_left (fun score col => score + squareValue b row col) (seq 0 8) score)
    (seq 0 8) 0.

(** [scoreMove] is the body of the [map] callback of [orderMoves], once the
    move has been played: [moveObj] is what [chess.move] returned and
    [givesCheck] is [chess.isCheck()] in the position after it. *)
Definition scoreMove (moveObj : MoveObj) (givesCheck : bool) : Z :=
  let score := 0 in
  let score :=
    match captured moveObj with
    | Some c => score + (10 * PIECE_VALUES c - PIECE_VALUES (piece moveObj))
    | None => score
    end in
  let score :=
    match promotion moveObj with
    | Some pr => score + PIECE_VALUES pr
    | None => score
    end in
  if givesCheck then score + 50 else score.

(** [scored.sort((a, b) => b.score - a.score)]: Array.prototype.sort is
    stable, so the result is the stable descending sort; [a] is moved behind
    [b] only when [b.score - a.score > 0]. *)
Fixpoint insertScored (x : Move * Z) (l : list (Move * Z)) : list (Move * Z) :=
  match l with
  | [] => [x]
  | y :: l' => if snd x <? snd y then y :: insertScored x l' else x :: l
  end.

Definition sortScored (l : list (Move * Z)) : list (Move * Z) :=
  fold_right insertScored [] l.

(** Descending by score. *)
Definition byScore (a b : Move * Z) : Prop := snd b <= snd a.

(** ** Windows

    How the value [r] that a search returns for the window
    ([alpha], [beta]) relates to the value [v] of the full tree: exact
    strictly inside the window, a bound on [v] at or beyond either end. *)
Definition failSoft (alpha beta r v : Score) : Prop :=
  (sLe r alpha -> sLe v r) /\
  (sLe beta r -> sLe r v) /\
  (sLt alpha r -> sLt r beta -> r = v).

(** Loop invariant of a maximizing node entered with [alpha0]: [maxScore]
    and [alpha] are the loop variables, [seen] the full value of the
    children visited so far. *)
Definition MaxInv (alpha0 beta maxScore alpha seen : Score) : Prop :=
  alpha = smax alpha0 maxScore /\
  sLt alpha beta /\
  (sLe maxScore alpha0 -> sLe seen maxScore) /\
  (sLt alpha0 maxScore -> maxScore = seen).

(** Loop invariant of a minimizing node entered with [beta0]. *)
Definition MinInv (alpha beta0 minScore beta seen : Score) : Prop :=
  beta = smin beta0 minScore /\
  sLt alpha beta /\
  (sLe beta0 minScore -> sLe minScore seen) /\
  (sLt minScore beta0 -> minScore = seen).

(** The comparisons of the loop of [getBestMove], on known scores. *)
Fixpoint pickBest (isMaximizing : bool) (scoreOf : Move -> Score)
    (ms : list Move) (bestMove : option Move) (bestScore : Score)
    : option Move :=
  match ms with
  | [] => bestMove
  | m :: rest =>
      let score := scoreOf m in
      if isMaximizing then
        if slt bestScore score
        then pickBest isMaximizing scoreOf rest (Some m) score
        else pickBest isMaximizing scoreOf rest bestMove bestScore
      else
        if slt score bestScore
        then pickBest isMaximizing scoreOf rest (Some m) score
        else pickBest isMaximizing scoreOf rest bestMove bestScore
  end.

Definition sumZ (l : list Z) : Z := fold_right Z.add 0 l.

(** The squares in the order the double loop visits them. *)
Definition squares : list (nat * nat) := list_prod (seq 0 8) (seq 0 8).

Definition isKingOf (c : Color) (sq : option Piece) : bool :=
  match sq with
  | Some {| ptype := King; color := c' |} => Bool.eqb (isWhite c) (isWhite c')
  | _ => false
  end.

(** Number of squares of the 8 x 8 grid, as [evaluatePosition] reads it,
    that hold a king of the given color. *)
Definition countKings (c : Color) (b : Board) : nat :=
  length (List.filter (fun rc => isKingOf c (pieceAt b (fst rc) (snd rc))) squares).

Definition allSquareContents : list (option Piece) :=
  None ::
  flat_map (fun t => [Some (mkPiece t White); Some (mkPiece t Black)])
    [Pawn; Knight; Bishop; Rook; Queen; King].

(** The bounds on what one square adds: at most a queen's worth, shifted by
    a king's worth on a king's square. *)
Definition squareUpper (sq : option Piece) : Z :=
  905 + (if isKingOf White sq then 19125 else 0)
      - (if isKingOf Black sq then 20855 else 0).

Definition squareLower (sq : option Piece) : Z :=
  - 905 + (if isKingOf White sq then 20855 else 0)
        - (if isKingOf Black sq then 19125 else 0).

Definition squareBounded (rc : nat * nat) : bool :=
  forallb (fun sq =>
             (squareLower sq <=? pieceValue sq (fst rc) (snd rc))
             && (pieceValue sq (fst rc) (snd rc) <=? squareUpper sq))
    allSquareContents.

(** ** Effects

    The search mutates one [Chess] object in place.  A computation takes the
    current state of that object and either returns a value with the new
    state, throws, or runs out of the fuel that bounds the recursion of the
    model. *)

Inductive Outcome (A : Type) : Type :=
  | Ok (a : A)
  | Throw
  | OutOfFuel.

Arguments Ok {A} a.
Arguments Throw {A}.
Arguments OutOfFuel {A}.

Section Engine.

Context {Position : Type} {E : RulesEngine Position}.

Definition Eff (A : Type) : Type := Position -> Outcome (A * Position).

Definition ret {A} (a : A) : Eff A := fun chess => Ok (a, chess).

Definition bind {A B} (c : Eff A) (k : A -> Eff B) : Eff B :=
  fun chess =>
    match c chess with
    | Ok (a, chess') => k a chess'
    | Throw => Throw
    | OutOfFuel => OutOfFuel
    end.

(** A read-only query such as [chess.turn()]. *)
Definition gets {A} (f : Position -> A) : Eff A := fun chess => Ok (f chess, chess).

(** [chess.move(m)]: a rejected move ends the computation. *)
Definition doMove (m : Move) : Eff MoveObj :=
  fun chess =>
    match move chess m with
    | Some (moveObj, chess') => Ok (moveObj, chess')
    | None => Throw
    end.

(** [chess.undo()]. *)
Definition doUndo : Eff unit := fun chess => Ok (tt, undo chess).

Definition outOfFuel {A} : Eff A := fun _ => OutOfFuel.

Notation "x <- c1 ;; c2" := (bind c1 (fun x => c2))
  (at level 100, c1 at next level, right associativity).

(** ** Static evaluator *)

Definition mobilityScore (chess : Position) : Z :=
  let currentTurn := turn chess in
  let mobility := Z.of_nat (length (moves chess)) in
  match currentTurn with White => mobility * 2 | Black => - mobility * 2 end.

(** The value [evaluatePosition] reaches when neither early [return] fires. *)
Definition ordinaryScore (chess : Position) : Z :=
  boardScore (board chess) + mobilityScore chess.

Definition evaluatePosition (chess : Position) : Score :=
  if isCheckmate chess then
    match turn chess with White => Fin (-99999) | Black => Fin 99999 end
  else if isDraw chess then Fin 0
  else Fin (ordinaryScore chess).

(** ** Move orderer *)

(** [moves.map(move => { ... return { move, score } })]. *)
Fixpoint scoreAll (ms : list Move) : Eff (list (Move * Z)) :=
  match ms with
  | [] => ret []
  | m :: rest =>
      moveObj <- doMove m ;;
      givesCheck <- gets isCheck ;;
      _ <- doUndo ;;
      scored <- scoreAll rest ;;
      ret ((m, scoreMove moveObj givesCheck) :: scored)
  end.

Definition orderMoves (ms : list Move) : Eff (list Move) :=
  scored <- scoreAll ms ;;
  ret (map fst (sortScored scored)).

(** ** Alpha-beta search *)

(** The [for] loop of a maximizing node; [child alpha beta] is the recursive
    call on the position reached by the move. *)
Fixpoint maxLoop (child : Score -> Score -> Eff Score) (ms : list Move)
    (maxScore alpha beta : Score) : Eff Score :=
  match ms with
  | [] => ret maxScore
  | m :: rest =>
      _ <- doMove m ;;
      score <- child alpha beta ;;
      _ <- doUndo ;;
      let maxScore := smax maxScore score in
      let alpha := smax alpha score in
      if sle beta alpha then ret maxScore
      else maxLoop child rest maxScore alpha beta
  end.

(** The [for] loop of a minimizing node. *)
Fixpoint minLoop (child : Score -> Score -> Eff Score) (ms : list Move)
    (minScore alpha beta : Score) : Eff Score :=
  match ms with
  | [] => ret minScore
  | m :: rest =>
      _ <- doMove m ;;
      score <- child alpha beta ;;
      _ <- doUndo ;;
      let minScore := smin minScore score in
      let beta := smin beta score in
      if sle beta alpha then ret minScore
      else minLoop child rest minScore alpha beta
  end.

(** The body of [minimax], with the two steps in which the copies of the
    file differ left open: [evaluate] is the leaf evaluation and [order] the
    line that computes [orderedMoves] from [moves]. *)
Fixpoint minimaxWith (evaluate : Position -> Score)
    (order : list Move -> Eff (list Move)) (fuel : nat)
    (depth : Z) (alpha beta : Score) (isMaximizing : bool) : Eff Score :=
  match fuel with
  | O => outOfFuel
  | S fuel' =>
      over <- gets isGameOver ;;
      if (depth =? 0) || over then gets evaluate
      else
        ms <- gets moves ;;
        orderedMoves <- order ms ;;
        if isMaximizing then
          maxLoop
            (fun a b => minimaxWith evaluate order fuel' (depth - 1) a b false)
            orderedMoves NegInf alpha beta
        else
          minLoop
            (fun a b => minimaxWith evaluate order fuel' (depth - 1) a b true)
            orderedMoves PosInf alpha beta
  end.

(** [moves.length > 10 ? orderMoves(chess, moves) : moves]. *)
Definition orderIfMany (ms : list Move) : Eff (list Move) :=
  if (10 <? length ms)%nat then orderMoves ms else ret ms.

Definition minimax : nat -> Z -> Score -> Score -> bool -> Eff Score :=
  minimaxWith evaluatePosition orderIfMany.

(** ** Best-move selector *)

(** The [for] loop of [getBestMove]; [search] is the call of [minimax].
    [bestMove] is [None] while it is [undefined] ([orderedMoves[0]] of an
    empty array). *)
Fixpoint rootLoop (search : Z -> Score -> Score -> bool -> Eff Score)
    (depth : Z) (isMaximizing : bool)
    (ms : list Move) (bestMove : option Move) (bestScore : Score)
    : Eff (option Move) :=
  match ms with
  | [] => ret bestMove
  | m :: rest =>
      _ <- doMove m ;;
      score <- search (depth - 1) NegInf PosInf (negb isMaximizing) ;;
      _ <- doUndo ;;
      if isMaximizing then
        if slt bestScore score
        then rootLoop search depth isMaximizing rest (Some m) score
        else rootLoop search depth isMaximizing rest bestMove bestScore
      else
        if slt score bestScore
        then rootLoop search depth isMaximizing rest (Some m) score
        else rootLoop search depth isMaximizing rest bestMove bestScore
  end.

(** [getBestMove(chess, depth)]; [None] is the [null] result. *)
Definition getBestMove (fuel : nat) (depth : Z) : Eff (option Move) :=
  ms <- gets moves ;;
  if (length ms =? 0)%nat then ret None
  else
    orderedMoves <- orderMoves ms ;;
    currentTurn <- gets turn ;;
    let isMaximizing := isWhite currentTurn in
    let bestMove := head orderedMoves in
    let bestScore := if isMaximizing then NegInf else PosInf in
    rootLoop (minimax fuel) depth isMaximizing orderedMoves bestMove bestScore.

(** ** Tool-call handler *)

(** [args] of a tool call; [arg_depth] is [None] when the caller left
    [depth] out. *)
Record ToolArgs : Type := mkArgs {
  arg_game_id : string;
  arg_move : string;
  arg_depth : option Z
}.

(** [{ content: [{ type: 'text', text }], isError }]. *)
Record ToolResult : Type := mkResult { text : string; isError : bool }.

Definition gameNotFound : ToolResult :=
  {| text := "Game not found"; isError := true |}.

(** [args.depth || 3]: a missing depth and the number 0 are falsy. *)
Definition depthOrDefault (d : option Z) : Z :=
  match d with
  | Some z => if z =? 0 then 3 else z
  | None => 3
  end.

(** [Math.min(args.depth || 3, ceiling)]. *)
Definition clampDepth (ceiling : Z) (d : option Z) : Z :=
  Z.min (depthOrDefault d) ceiling.

(** [bestMove || 'No moves available']. *)
Definition bestMoveText (bestMove : option Move) : string :=
  match bestMove with
  | Some m => if String.eqb m "" then "No moves available" else m
  | None => "No moves available"
  end.

(** The [CallToolRequestSchema] handler.  [games] is the global map; a
    [Chess] object found in it is mutated in place, which the model writes
    back under the same key.  [ceiling] and [search] are the depth ceiling
    and the [getBestMove] of the copy at hand. *)
Definition callToolWith (ceiling : Z) (search : Z -> Eff (option Move))
    (name : string) (args : ToolArgs) (games : gmap string Position)
    : Outcome (ToolResult * gmap string Position) :=
  if String.eqb name "new_game" then
    let chess := newChess in
    Ok ({| text := "New game created with ID: " ++ arg_game_id args;
           isError := false |},
        <[arg_game_id args := chess]> games)
  else if String.eqb name "get_legal_moves" then
    match games !! arg_game_id args with
    | None => Ok (gameNotFound, games)
    | Some chess =>
        Ok ({| text := String.concat ", " (moves chess); isError := false |},
            games)
    end
  else if String.eqb name "make_move" then
    match games !! arg_game_id args with
    | None => Ok (gameNotFound, games)
    | Some chess =>
        match move chess (arg_move args) with
        | Some (result, chess') =>
            Ok ({| text := "Move " ++ san result ++ " played successfully";
                   isError := false |},
                <[arg_game_id args := chess']> games)
        | None =>
            Ok ({| text := "Invalid move: " ++ arg_move args;
                   isError := true |},
                games)
        end
    end
  else if String.eqb name "get_best_move" then
    match games !! arg_game_id args with
    | None => Ok (gameNotFound, games)
    | Some chess =>
        let depth := clampDepth ceiling (arg_depth args) in
        match search depth chess with
        | Ok (bestMove, chess') =>
            Ok ({| text := bestMoveText bestMove; isError := false |},
                <[arg_game_id args := chess']> games)
        | Throw => Throw
        | OutOfFuel => OutOfFuel
        end
    end
  else if String.eqb name "get_board" then
    match games !! arg_game_id args with
    | None => Ok (gameNotFound, games)
    | Some chess => Ok ({| text := ascii chess; isError := false |}, games)
    end
  else
    Ok ({| text := "Unknown tool: " ++ name; isError := true |}, games).

Definition callTool (fuel : nat) :=
  callToolWith 3 (getBestMove fuel).

(** ** The unpruned search

    The full minimax of the specification: the value of the depth-limited
    tree under best play, every child visited. *)

(** The position a legal move leads to. *)
Definition after (chess : Position) (m : Move) : Position :=
  match move chess m with
  | Some (_, chess') => chess'
  | None => chess
  end.

Fixpoint fullMinimax (evaluate : Position -> Score) (depth : nat)
    (chess : Position) (isMaximizing : bool) : Score :=
  match depth with
  | O => evaluate chess
  | S d =>
      if isGameOver chess then evaluate chess
      else
        let values :=
          map (fun m => fullMinimax evaluate d (after chess m) (negb isMaximizing))
              (moves chess) in
        if isMaximizing then fold_right smax NegInf values
        else fold_right smin PosInf values
  end.

(** The positions at most [n] moves below [chess]. *)
Fixpoint within (n : nat) (chess : Position) : list Position :=
  chess ::
  match n with
  | O => []
  | S n' => flat_map (fun m => within n' (after chess m)) (moves chess)
  end.

(** ** Assumptions on positions

    The search relies on the pairing of [move] and [undo]; the chess facts
    below are what the claims about real positions need from the rules. *)

(** Every listed move is accepted. *)
Definition LegalMovesApply : Prop :=
  forall (chess : Position) (m : Move),
    In m (moves chess) -> exists r, move chess m = Some r.

(** [undo] reverts the last [move]. *)
Definition UndoReverts : Prop :=
  forall (chess chess' : Position) (m : Move) (moveObj : MoveObj),
    move chess m = Some (moveObj, chess') -> undo chess' = chess.

(** An orderer that hands back a permutation and leaves the position as it
    found it. *)
Definition Reorders (order : list Move -> Eff (list Move)) : Prop :=
  forall (chess : Position) (ms : list Move),
    (forall m, In m ms -> In m (moves chess)) ->
    exists ms', order ms chess = Ok (ms', chess) /\ Permutation ms ms'.

(** The ordering score of [m] in [chess]: what the [map] callback of
    [orderMoves] computes for it. *)
Definition heuristic (chess : Position) (m : Move) : Z :=
  match move chess m with
  | Some (moveObj, chess') => scoreMove moveObj (isCheck chess')
  | None => 0
  end.

(** What a loop needs of the recursive call on each move: the move applies,
    and the call on the position reached returns, in that same position, a
    value that stands in the fail-soft relation to [V m]. *)
Definition childrenOk (child : Score -> Score -> Eff Score)
    (V : Move -> Score) (chess : Position) (ms : list Move) : Prop :=
  forall m, In m ms ->
    exists moveObj q,
      move chess m = Some (moveObj, q) /\
      forall a b, exists s,
        child a b q = Ok (s, q) /\ (sLt a b -> failSoft a b s (V m)).

(** The ranking [orderMoves] hands back for the moves [ms] of [chess]. *)
Definition ranked (chess : Position) (ms : list Move) : list Move :=
  map fst (sortScored (map (fun m => (m, heuristic chess m)) ms)).

(** A stalemate is among the draws and is no checkmate (chess.js). *)
Definition StalemateIsDraw : Prop :=
  forall chess : Position,
    isStalemate chess = true ->
    isDraw chess = true /\ isCheckmate chess = false.

(** What the bound on ordinary evaluations uses of a legal chess position:
    one king a side, and no more legal moves than any chess position has
    (218). *)
Definition legalPosition (chess : Position) : Prop :=
  countKings White (board chess) = 1%nat /\
  countKings Black (board chess) = 1%nat /\
  (length (moves chess) <= 218)%nat.

(** An orderer that bypasses [orderMoves]: the moves in reverse. *)
Definition reversed (ms : list Move) : Eff (list Move) := ret (rev ms).

(** The sanity of one position that the mate-in-one scenario relies on:
    moves alternate the turn, checkmate ends the game, a position without
    moves is over, and an evaluation that is not a checkmate stays strictly
    inside the sentinel. *)
Definition sane (chess : Position) : bool :=
  forallb (fun m => Bool.eqb (isWhite (turn (after chess m)))
                             (negb (isWhite (turn chess)))) (moves chess)
  && implb (isCheckmate chess) (isGameOver chess)
  && implb (length (moves chess) =? 0)%nat (isGameOver chess)
  && (isCheckmate chess
      || match evaluatePosition chess with
         | Fin z => (-99999 <? z) && (z <? 99999)
         | _ => false
         end).

(** [m] is a legal move that checkmates at once. *)
Definition matesAtOnce (chess : Position) (m : Move) : Prop :=
  In m (moves chess) /\ isCheckmate (after chess m) = true.

End Engine.

(** ** The second copy of the server

    The file carries an older copy of the server after the first: the same
    handler with ceiling 4, a material-only evaluator with infinite mate
    scores, and a search without move ordering. *)

Module Simple.

Section Engine.

Context {Position : Type} {E : RulesEngine Position}.

Notation "x <- c1 ;; c2" := (bind c1 (fun x => c2))
  (at level 100, c1 at next level, right associativity).

Definition squareValue (b : Board) (row col : nat) : Z :=
  match pieceAt b row col with
  | Some pc =>
      let value := PIECE_VALUES (ptype pc) in
      match color pc with White => value | Black => - value end
  | None => 0
  end.

Definition evaluatePosition (chess : Position) : Score :=
  if isCheckmate chess then
    match turn chess with White => NegInf | Black => PosInf end
  else if isDraw chess then Fin 0
  else
    Fin (fold_left
           (fun score row =>
              fold_left (fun score col => score + squareValue (board chess) row col)
                (seq 0 8) score)
           (seq 0 8) 0).

Definition minimax : nat -> Z -> Score -> Score -> bool -> Eff Score :=
  minimaxWith evaluatePosition ret.

Definition getBestMove (fuel : nat) (depth : Z) : Eff (option Move) :=
  ms <- gets moves ;;
  if (length ms =? 0)%nat then ret None
  else
    currentTurn <- gets turn ;;
    let isMaximizing := isWhite currentTurn in
    let bestMove := head ms in
    let bestScore := if isMaximizing then NegInf else PosInf in
    rootLoop (minimax fuel) depth isMaximizing ms bestMove bestScore.

Definition callTool (fuel : nat) :=
  callToolWith 4 (getBestMove fuel).

End Engine.

End Simple.

(** ** A rules engine over an explicit game tree

    A finite game written out as a tree is a rules engine: a position is a
    node together with the nodes passed on the way to it, [move] steps to a
    child and [undo] steps back.  The concrete positions used below are
    built this way. *)

Module GameTree.

Record NodeInfo : Type := mkInfo {
  n_turn : Color;
  n_check : bool;
  n_otherDraw : bool;
  n_board : Board
}.

#[warnings="-register-all"]
Inductive Tree : Type :=
  | Node (info : NodeInfo) (kids : list (Move * MoveObj * Tree)).

Definition info (t : Tree) : NodeInfo := match t with Node i _ => i end.
Definition kids (t : Tree) : list (Move * MoveObj * Tree) :=
  match t with Node _ k => k end.

Record Pos : Type := mkPos { current : Tree; history : list Tree }.

Fixpoint findKid (m : Move) (k : list (Move * MoveObj * Tree))
    : option (MoveObj * Tree) :=
  match k with
  | [] => None
  | (m', moveObj, t) :: k' =>
      if String.eqb m m' then Some (moveObj, t) else findKid m k'
  end.

Definition play (p : Pos) (m : Move) : option (MoveObj * Pos) :=
  match findKid m (kids (current p)) with
  | Some (moveObj, t) =>
      Some (moveObj, {| current := t; history := current p :: history p |})
  | None => None
  end.

Definition takeBack (p : Pos) : Pos :=
  match history p with
  | t :: h => {| current := t; history := h |}
  | [] => p
  end.

Definition noMoves (p : Pos) : bool :=
  match kids (current p) with [] => true | _ => false end.

Definition mate (p : Pos) : bool := n_check (info (current p)) && noMoves p.

Definition stale (p : Pos) : bool :=
  negb (n_check (info (current p))) && noMoves p.

(** As in chess.js: without a legal move the side to move is checkmated
    when in check and stalemated otherwise, a stalemate counts as a draw,
    and the game is over on checkmate, stalemate or draw. *)
Definition engine (start : Tree) : RulesEngine Pos := {|
  newChess := {| current := start; history := [] |};
  moves := fun p => map (fun k => fst (fst k)) (kids (current p));
  move := play;
  undo := takeBack;
  turn := fun p => n_turn (info (current p));
  isCheck := fun p => n_check (info (current p));
  isCheckmate := mate;
  isStalemate := stale;
  isDraw := fun p => stale p || n_otherDraw (info (current p));
  isGameOver := fun p =>
    mate p || stale p || (stale p || n_otherDraw (info (current p)));
  board := fun p => n_board (info (current p));
  ascii := fun _ => ""
|}.

Definition at_root (t : Tree) : Pos := {| current := t; history := [] |}.

(** *** Boards *)

Definition emptyBoard : Board := repeat (repeat None 8) 8.

(** Put a piece on the square of file [file] (a = 0) and rank [rank]. *)
Definition place (file rank : nat) (t : PieceType) (c : Color) (b : Board)
    : Board :=
  alter (fun r => <[file := Some (mkPiece t c)]> r) (8 - rank)%nat b.

Definition quiet (t : PieceType) (s : string) : MoveObj :=
  {| piece := t; captured := None; promotion := None; san := s |}.

Definition capture (t victim : PieceType) (s : string) : MoveObj :=
  {| piece := t; captured := Some victim; promotion := None; san := s |}.

(** A position of a game in progress; without moves it is a checkmate
    ([chk]) or a stalemate. *)
Definition position (c : Color) (chk : bool) (b : Board) : NodeInfo :=
  {| n_turn := c; n_check := chk; n_otherDraw := false; n_board := b |}.

(** A position drawn by repetition, material or the fifty-move rule. *)
Definition drawn (c : Color) (b : Board) : NodeInfo :=
  {| n_turn := c; n_check := false; n_otherDraw := true; n_board := b |}.

(** *** A line with two ways to mate

    White: Kg6, Ra7, Rb1, pawn b2.  Black: Kh8, Nh1.  White to move mates at
    once with Ra8; taking the knight with check, Rxh1+, forces Kg8 and mates
    a move later.  The tree keeps these moves only. *)

Definition rooksBoard : Board :=
  place 6 6 King White (place 0 7 Rook White (place 1 1 Rook White
  (place 1 2 Pawn White (place 7 8 King Black (place 7 1 Knight Black
   emptyBoard))))).

Definition rooksMate1 : Tree :=
  Node (position Black true
          (place 6 6 King White (place 0 8 Rook White (place 1 1 Rook White
          (place 1 2 Pawn White (place 7 8 King Black (place 7 1 Knight Black
           emptyBoard)))))))
       [].

Definition rooksMate2 : Tree :=
  Node (position Black true
          (place 6 6 King White (place 0 8 Rook White (place 7 1 Rook White
          (place 1 2 Pawn White (place 6 8 King Black emptyBoard))))))
       [].

Definition rooksAfterKg8 : Tree :=
  Node (position White false
          (place 6 6 King White (place 0 7 Rook White (place 7 1 Rook White
          (place 1 2 Pawn White (place 6 8 King Black emptyBoard))))))
       [ ("Ra8#", quiet Rook "Ra8#", rooksMate2) ].

Definition rooksAfterCapture : Tree :=
  Node (position Black true
          (place 6 6 King White (place 0 7 Rook White (place 7 1 Rook White
          (place 1 2 Pawn White (place 7 8 King Black emptyBoard))))))
       [ ("Kg8", quiet King "Kg8", rooksAfterKg8) ].

Definition rooks : Tree :=
  Node (position White false rooksBoard)
       [ ("Ra8#", quiet Rook "Ra8#", rooksMate1);
         ("Rxh1+", capture Rook Knight "Rxh1+", rooksAfterCapture) ].

(** *** A node cut off after its first child

    An abstract game; the moves are labels and the boards only fix the
    evaluations of the leaves.  White to move can take a draw at once ([a])
    or enter [b], where Black chooses between a position that is a pawn up
    ([b1]) and one that is a queen up ([b2]).  Below [b1] and [b2] the game
    goes on by one more move, which a search of depth 2 does not reach. *)

Definition kingsBoard : Board :=
  place 4 1 King White (place 4 8 King Black emptyBoard).

Definition beyond : Tree := Node (drawn Black kingsBoard) [].

Definition cutoffB1 : Tree :=
  Node (position White false (place 0 7 Pawn Black kingsBoard))
       [ ("c", quiet King "c", beyond) ].

Definition cutoffB2 : Tree :=
  Node (position White false (place 3 8 Queen Black kingsBoard))
       [ ("c", quiet King "c", beyond) ].

Definition cutoffB : Tree :=
  Node (position Black false kingsBoard)
       [ ("b1", quiet King "b1", cutoffB1);
         ("b2", quiet King "b2", cutoffB2) ].

Definition cutoffA : Tree := Node (drawn Black kingsBoard) [].

Definition cutoff : Tree :=
  Node (position White false kingsBoard)
       [ ("a", quiet King "a", cutoffA);
         ("b", quiet King "b", cutoffB) ].

(** *** A pawn that can take a queen

    White: Ke1, pawn e4.  Black: Ke8, Qd5.  The positions after the moves
    are left out (cut to a draw). *)

Definition pawnTakesQueen : Tree :=
  Node (position White false
          (place 4 4 Pawn White (place 3 5 Queen Black kingsBoard)))
       [ ("Kd1", quiet King "Kd1", beyond);
         ("e5", quiet Pawn "e5", beyond);
         ("exd5", capture Pawn Queen "exd5", beyond);
         ("Kf1", quiet King "Kf1", beyond) ].

(** *** A stalemate: Black Ka8 against White Kb6 and Qc7, Black to move *)

Definition stalemate : Tree :=
  Node (position Black false
          (place 0 8 King Black (place 1 6 King White
          (place 2 7 Queen White emptyBoard))))
       [].

End GameTree.

(** ** Further definitions

    What the properties beyond the claims speak about: the colour mirror of
    a board, piece counts, and the move selection of the engine-backed
    player of [src/server.js]. *)

Section Further.

Context {Position : Type} {E : RulesEngine Position}.

(** The same piece of the other colour. *)
Definition swapColor (pc : Piece) : Piece :=
  {| ptype := ptype pc;
     color := match color pc with White => Black | Black => White end |}.

(** The board seen from the other side: ranks reversed, colours swapped. *)
Definition mirrorBoard (b : Board) : Board :=
  map (map (option_map swapColor)) (rev b).

Definition negScore (s : Score) : Score :=
  match s with
  | NegInf => PosInf
  | Fin z => Fin (- z)
  | PosInf => NegInf
  end.

Definition isPiece (t : PieceType) (c : Color) (sq : option Piece) : bool :=
  match sq with
  | Some pc =>
      Bool.eqb (isWhite c) (isWhite (color pc))
      && match t, ptype pc with
         | Pawn, Pawn | Knight, Knight | Bishop, Bishop
         | Rook, Rook | Queen, Queen | King, King => true
         | _, _ => false
         end
  | None => false
  end.

(** Number of squares of the 8 x 8 grid that hold a [t] of colour [c]. *)
Definition countPieces (t : PieceType) (c : Color) (b : Board) : Z :=
  Z.of_nat
    (length (List.filter
               (fun rc => isPiece t c (pieceAt b (fst rc) (snd rc))) squares)).

(** Material balance: piece values weighted by the difference of the
    counts. *)
Definition materialBalance (b : Board) : Z :=
  sumZ (map (fun t => PIECE_VALUES t
                      * (countPieces t White b - countPieces t Black b))
          [Pawn; Knight; Bishop; Rook; Queen; King]).

(** The least a piece is worth on any square, tables included. *)
Definition pieceFloor (rc : nat * nat) : bool :=
  forallb (fun t =>
             (80 <=? pieceValue (Some (mkPiece t White)) (fst rc) (snd rc))
             && (pieceValue (Some (mkPiece t Black)) (fst rc) (snd rc) <=? -80))
    [Pawn; Knight; Bishop; Rook; Queen; King].

(** A position without a legal move is over (chess.js: checkmate or
    stalemate). *)
Definition NoDeadEnd : Prop :=
  forall chess : Position, moves chess = [] -> isGameOver chess = true.

(** A move that captures nothing and promotes to nothing. *)
Definition quietMove (chess : Position) (m : Move) : Prop :=
  exists moveObj chess',
    move chess m = Some (moveObj, chess') /\
    captured moveObj = None /\ promotion moveObj = None.

(** A capture by a piece [attacker] of a piece that is not a king, without
    promotion. *)
Definition captureBy (chess : Position) (attacker : PieceType) (m : Move)
    : Prop :=
  exists moveObj chess' victim,
    move chess m = Some (moveObj, chess') /\
    piece moveObj = attacker /\
    captured moveObj = Some victim /\ victim <> King /\
    promotion moveObj = None.

(** A depth the search cannot count down to 0: below 0, or beyond the fuel
    of the model. *)
Definition unreachable (fuel : nat) (depth : Z) : Prop :=
  depth < 0 \/ Z.of_nat fuel <= depth.

(** [array.includes(m)] on an array of strings. *)
Definition includes (l : list Move) (m : string) : bool :=
  existsb (String.eqb m) l.

(** *** The engine-backed player ([getMCPPlayerMove] of [src/server.js])

    The JavaScript built-ins the function applies to texts enter as they
    are: [trim] is [String.prototype.trim], [matchMove] the [match] of the
    move pattern with its first element, [firstToken] the first piece of
    [split(/\s/)].  [mcpReady] is [mcpAvailable && mcpClient], [games] the
    state of the chess server that answers the tool call, and [llm] the text
    of the reply of the language model, [None] when that request throws. *)

Section Player.

Variable trim : string -> string.
Variable matchMove : string -> option string.
Variable firstToken : string -> string.

(** The part after the engine attempt: ask the model, validate, fall back
    to the first legal move. *)
Definition llmMove (llm : option string) (chess : Position) : option Move :=
  let chessLegalMoves := moves chess in
  match llm with
  | Some reply =>
      let moveText := trim reply in
      let moveText :=
        match matchMove moveText with
        | Some matched => matched
        | None => firstToken moveText
        end in
      if includes chessLegalMoves moveText then Some moveText
      else head chessLegalMoves
  | None => head (moves chess)
  end.

Definition getMCPPlayerMove (fuel : nat) (mcpReady : bool)
    (games : gmap string Position) (llm : option string)
    (chess : Position) (gameId : string) : option Move :=
  let chessLegalMoves := moves chess in
  if mcpReady then
    match callTool fuel "get_best_move"
            {| arg_game_id := gameId; arg_move := ""; arg_depth := Some 10 |}
            games with
    | Ok (bestMoveResult, _) =>
        let engineMove := trim (text bestMoveResult) in
        if includes chessLegalMoves engineMove then Some engineMove
        else llmMove llm chess
    | _ => llmMove llm chess
    end
  else llmMove llm chess.

(** *** One game ([runGame] of [src/server.js])

    The model keeps what the loop decides with: the board [chess], the
    list [moveHistory] and the state of the chess server.  The messages to
    the browser, the delays and the log of illegal attempts are output
    only and are left out.  [llm] gives, for the number of moves made and
    the number of failed attempts of the turn, the reply of the language
    model to the request of that attempt.  The loop of the game is counted
    down by [turns]. *)

Variable isThreefoldRepetition : Position -> bool.
Variable isInsufficientMaterial : Position -> bool.

(** [getPureLLMMove]: the move cut out of the reply; [None] when the
    request throws, which the function passes on. *)
Definition getPureLLMMove (llm : option string) : option string :=
  match llm with
  | Some reply =>
      let moveText := trim reply in
      Some match matchMove moveText with
           | Some matched => matched
           | None => firstToken moveText
           end
  | None => None
  end.

Record GameState : Type := mkGameState {
  st_chess : Position;
  st_moveHistory : list Move;
  st_games : gmap string Position
}.

(** The chess server after a tool call whose answer is not looked at; a
    call that fails is caught. *)
Definition serverAfter (fuel : nat) (mcpReady : bool) (name : string)
    (args : ToolArgs) (games : gmap string Position)
    : gmap string Position :=
  if mcpReady then
    match callTool fuel name args games with
    | Ok (_, games') => games'
    | _ => games
    end
  else games.

Definition maxAttempts : nat := 3.

(** The body of the inner loop: [true] with the state after the move when
    the move proposed was played, [false] when the attempt failed. *)
Definition attempt (fuel : nat) (isWhiteTurn mcpReady : bool)
    (mcpGameId : string) (llm : option string) (st : GameState)
    : bool * GameState :=
  let chess := st_chess st in
  let proposedMove :=
    if isWhiteTurn then getPureLLMMove llm
    else getMCPPlayerMove fuel mcpReady (st_games st) llm chess mcpGameId in
  let games :=
    if isWhiteTurn then st_games st
    else serverAfter fuel mcpReady "get_best_move"
           {| arg_game_id := mcpGameId; arg_move := "";
              arg_depth := Some 10 |} (st_games st) in
  let failed :=
    (false, {| st_chess := chess; st_moveHistory := st_moveHistory st;
               st_games := games |}) in
  match proposedMove with
  | Some m =>
      match move chess m with
      | Some (result, chess') =>
          (true,
           {| st_chess := chess';
              st_moveHistory := (st_moveHistory st ++ [m])%list;
              st_games :=
                serverAfter fuel mcpReady "make_move"
                  {| arg_game_id := mcpGameId; arg_move := m;
                     arg_depth := None |} games |})
      | None => failed
      end
  | None => failed
  end.

(** [while (!move && attempts < maxAttempts)], with [remaining] for
    [maxAttempts - attempts]. *)
Fixpoint attemptLoop (fuel : nat) (remaining attempts : nat)
    (isWhiteTurn mcpReady : bool) (mcpGameId : string)
    (llm : nat -> option string) (st : GameState) : bool * GameState :=
  match remaining with
  | O => (false, st)
  | S remaining' =>
      match attempt fuel isWhiteTurn mcpReady mcpGameId (llm attempts) st with
      | (true, st') => (true, st')
      | (false, st') =>
          attemptLoop fuel remaining' (S attempts) isWhiteTurn mcpReady
            mcpGameId llm st'
      end
  end.

(** How the loop of the game was left: the game is over, a player made no
    legal move in [maxAttempts] attempts, or the count of turns ran out. *)
Inductive Ending : Type := GameOver | Resignation | StillPlaying.

Fixpoint gameLoop (fuel : nat) (turns : nat) (mcpReady : bool)
    (mcpGameId : string) (llm : nat -> nat -> option string)
    (st : GameState) : Ending * GameState :=
  if isGameOver (st_chess st) then (GameOver, st)
  else
    match turns with
    | O => (StillPlaying, st)
    | S turns' =>
        let isWhiteTurn := isWhite (turn (st_chess st)) in
        match attemptLoop fuel maxAttempts 0 isWhiteTurn mcpReady mcpGameId
                (llm (length (st_moveHistory st))) st with
        | (true, st') => gameLoop fuel turns' mcpReady mcpGameId llm st'
        | (false, st') => (Resignation, st')
        end
    end.

(** The result and the winner announced when the loop is left. *)
Definition gameResult (chess : Position) : string * option string :=
  if isCheckmate chess then
    let winner :=
      if isWhite (turn chess) then "MCP Player (Black)"
      else "Pure LLM (White)" in
    ("Checkmate! " ++ winner ++ " wins!", Some winner)
  else if isDraw chess then
    (if isStalemate chess then "Draw by stalemate"
     else if isThreefoldRepetition chess then "Draw by threefold repetition"
     else if isInsufficientMaterial chess then "Draw by insufficient material"
     else "Draw by 50-move rule",
     None)
  else ("Unknown", None).

(** [runGame] from a fresh board, [games] being the chess server before
    the game: the way the loop was left, the final state, and the result
    announced. *)
Definition runGame (fuel : nat) (turns : nat) (mcpReady : bool)
    (mcpGameId : string) (llm : nat -> nat -> option string)
    (games : gmap string Position)
    : Ending * GameState * (string * option string) :=
  let chess := newChess in
  let moveHistory : list Move := [] in
  let games :=
    serverAfter fuel mcpReady "new_game"
      {| arg_game_id := mcpGameId; arg_move := ""; arg_depth := None |}
      games in
  let (ending, st) :=
    gameLoop fuel turns mcpReady mcpGameId llm
      {| st_chess := chess; st_moveHistory := moveHistory;
         st_games := games |} in
  (ending, st, gameResult (st_chess st)).

(** The moves of [ms] played one after the other. *)
Definition replay (ms : list Move) (chess : Position) : Position :=
  fold_left after ms chess.

(** The chess server holds the board of the game under [mcpGameId], the
    board is what the moves of [moveHistory] lead to from the start, and
    the other games of the server are those of [games0]. *)
Definition inSync (mcpGameId : string) (games0 : gmap string Position)
    (st : GameState) : Prop :=
  st_games st !! mcpGameId = Some (st_chess st) /\
  st_chess st = replay (st_moveHistory st) newChess /\
  (forall id, id <> mcpGameId -> st_games st !! id = games0 !! id).

End Player.

(** A game that is not over is neither a checkmate nor a draw
    (chess.js). *)
Definition OverCovers : Prop :=
  forall chess : Position,
    isGameOver chess = false ->
    isCheckmate chess = false /\ isDraw chess = false.

End Further.

(** ** More games *)

Module MoreGames.

(** White: Kd1, Nc3.  Black: Ke8, pawns d2 and d5.  White to move can take
    a pawn with the king or with the knight, or step aside.  The positions
    after the moves are left out. *)
Definition twoCaptures : GameTree.Tree :=
  GameTree.Node
    (GameTree.position White false
       (GameTree.place 3 1 King White (GameTree.place 2 3 Knight White
       (GameTree.place 4 8 King Black (GameTree.place 3 2 Pawn Black
       (GameTree.place 3 5 Pawn Black GameTree.emptyBoard))))))
    [ ("Kxd2", GameTree.capture King Pawn "Kxd2", GameTree.beyond);
      ("Kc2", GameTree.quiet King "Kc2", GameTree.beyond);
      ("Nxd5", GameTree.capture Knight Pawn "Nxd5", GameTree.beyond) ].

End MoreGames.

(** * Properties *)

(** ** Scores form a total order *)

Module ScoreOrder <: TotalOrder.
Definition t := Score.
Definition eq := @Logic.eq Score.
Definition eq_equiv : Equivalence eq := eq_equivalence.
Definition lt := sLt.
Definition le := sLe.
Lemma lt_strorder : StrictOrder lt.
Proof.
    split.
    - intros [| z |]; unfold complement, lt, sLt, slt; simpl; try congruence.
      rewrite Z.leb_refl. discriminate.
    - intros [| x |] [| y |] [| z |]; unfold lt, sLt, slt; simpl; try congruence.
      rewrite !negb_true_iff, !Z.leb_gt. lia.
Qed.
Lemma lt_compat : Proper (eq ==> eq ==> iff) lt.
Proof. intros a b -> c d ->. reflexivity. Qed.
Lemma le_lteq : forall x y, le x y <-> lt x y \/ eq x y.
Proof.
    intros [| x |] [| y |]; unfold le, lt, eq, sLe, sLt, slt; simpl;
      try (intuition congruence).
    rewrite negb_true_iff, Z.leb_gt, Z.leb_le. split.
    - intros H. destruct (Z.eq_dec x y); [right; congruence | left; lia].
    - intros [H | H]; [lia | injection H; lia].
Qed.
Lemma lt_total : forall x y, lt x y \/ eq x y \/ lt y x.
Proof.
    intros [| x |] [| y |]; unfold lt, eq, sLt, slt; simpl; auto.
    rewrite !negb_true_iff, !Z.leb_gt.
    destruct (Z.lt_trichotomy x y) as [H | [H | H]]; auto.
    right; left; congruence.
Qed.
End ScoreOrder.

Module ScoreTac := MakeOrderTac ScoreOrder ScoreOrder.

Lemma smax_r (a b : Score) : ScoreOrder.le a b -> smax a b = b.
Proof. unfold ScoreOrder.le, sLe, smax. intros ->. reflexivity. Qed.

Lemma smax_l (a b : Score) : ScoreOrder.le b a -> smax a b = a.
Proof.
  intros H. unfold smax. destruct (sle a b) eqn:E; [| reflexivity].
  change (ScoreOrder.le a b) in E. ScoreTac.order.
Qed.

Lemma smin_l (a b : Score) : ScoreOrder.le a b -> smin a b = a.
Proof. unfold ScoreOrder.le, sLe, smin. intros ->. reflexivity. Qed.

Lemma smin_r (a b : Score) : ScoreOrder.le b a -> smin a b = b.
Proof.
  intros H. unfold smin. destruct (sle a b) eqn:E; [| reflexivity].
  change (ScoreOrder.le a b) in E. ScoreTac.order.
Qed.

Lemma sLe_cases (a b : Score) : ScoreOrder.le a b \/ ScoreOrder.lt b a.
Proof.
  unfold ScoreOrder.le, ScoreOrder.lt, sLe, sLt, slt.
  destruct (sle a b); auto.
Qed.

Lemma sle_false_lt (a b : Score) : sle a b = false -> ScoreOrder.lt b a.
Proof. unfold ScoreOrder.lt, sLt, slt. intros ->. reflexivity. Qed.

Lemma sLe_NegInf (a : Score) : ScoreOrder.le NegInf a.
Proof. reflexivity. Qed.

Lemma sLe_PosInf (a : Score) : ScoreOrder.le a PosInf.
Proof. destruct a; reflexivity. Qed.

Ltac score_fold :=
  change sLe with ScoreOrder.le in *;
  change sLt with ScoreOrder.lt in *;
  repeat match goal with
  | H : sle ?a ?b = true |- _ => change (ScoreOrder.le a b) in H
  | H : sle _ _ = false |- _ => apply sle_false_lt in H
  | H : @Logic.eq Score ?a ?b |- _ => change (ScoreOrder.eq a b) in H
  | |- @Logic.eq Score ?a ?b => change (ScoreOrder.eq a b)
  | |- sle ?a ?b = true => change (ScoreOrder.le a b)
  end.

(** Settle every [smax], [smin] and premise that the order facts at hand
    decide. *)
Ltac score_settle :=
  repeat first
  [ match goal with
    | |- context [smax ?a ?b] =>
        first [ rewrite (smax_r a b) in * by ScoreTac.order
              | rewrite (smax_l a b) in * by ScoreTac.order ]
    | _ : context [smax ?a ?b] |- _ =>
        first [ rewrite (smax_r a b) in * by ScoreTac.order
              | rewrite (smax_l a b) in * by ScoreTac.order ]
    | |- context [smin ?a ?b] =>
        first [ rewrite (smin_l a b) in * by ScoreTac.order
              | rewrite (smin_r a b) in * by ScoreTac.order ]
    | _ : context [smin ?a ?b] |- _ =>
        first [ rewrite (smin_l a b) in * by ScoreTac.order
              | rewrite (smin_r a b) in * by ScoreTac.order ]
    end
  | match goal with
    | H : ScoreOrder.le ?a ?b -> _ |- _ =>
        first [ let C := fresh in
                assert (C : ScoreOrder.le a b) by ScoreTac.order;
                specialize (H C); clear C
              | let C := fresh in
                assert (C : ScoreOrder.lt b a) by ScoreTac.order;
                clear H C ]
    | H : ScoreOrder.lt ?a ?b -> _ |- _ =>
        first [ let C := fresh in
                assert (C : ScoreOrder.lt a b) by ScoreTac.order;
                specialize (H C); clear C
              | let C := fresh in
                assert (C : ScoreOrder.le b a) by ScoreTac.order;
                clear H C ]
    end;
    score_fold ].

Ltac score_prep :=
  unfold failSoft, MaxInv, MinInv in *;
  repeat match goal with
  | H : _ /\ _ |- _ => destruct H
  end;
  subst;
  score_fold.

Ltac score_split a b :=
  let C := fresh in destruct (sLe_cases a b) as [C | C].

Ltac score_branch :=
  repeat match goal with
  | |- context [smax ?a ?b] => score_split a b; score_settle
  | |- context [smin ?a ?b] => score_split a b; score_settle
  | _ : context [smax ?a ?b] |- _ => score_split a b; score_settle
  | _ : context [smin ?a ?b] |- _ => score_split a b; score_settle
  end.

Ltac score_finish :=
  score_settle;
  repeat match goal with
  | |- _ /\ _ => split
  | |- _ -> _ => intro
  end;
  score_fold; score_settle; score_branch;
  try solve [ScoreTac.order].


Lemma sle_refl (a : Score) : sle a a = true.
Proof. change (ScoreOrder.le a a). ScoreTac.order. Qed.

Lemma smax_comm (a b : Score) : smax a b = smax b a.
Proof. score_prep. score_finish. Qed.

Lemma smax_assoc (a b c : Score) : smax a (smax b c) = smax (smax a b) c.
Proof. score_prep. score_finish. Qed.

Lemma smin_comm (a b : Score) : smin a b = smin b a.
Proof. score_prep. score_finish. Qed.

Lemma smin_assoc (a b c : Score) : smin a (smin b c) = smin (smin a b) c.
Proof. score_prep. score_finish. Qed.

Lemma smax_NegInf_l (a : Score) : smax NegInf a = a.
Proof. reflexivity. Qed.

Lemma smin_PosInf_l (a : Score) : smin PosInf a = a.
Proof. destruct a; reflexivity. Qed.

Lemma failSoft_exact (alpha beta v : Score) : failSoft alpha beta v v.
Proof. score_prep. score_finish. Qed.

Lemma failSoft_full (r v : Score) : failSoft NegInf PosInf r v -> r = v.
Proof.
  intros (Hlow & Hhigh & Hin).
  destruct r as [| z |].
  - specialize (Hlow eq_refl). destruct v; try discriminate; reflexivity.
  - apply Hin; reflexivity.
  - specialize (Hhigh eq_refl). destruct v; try discriminate; reflexivity.
Qed.

(** ** The loop invariants of the search *)

Lemma MaxInv_init (alpha beta : Score) :
  sLt alpha beta -> MaxInv alpha beta NegInf alpha NegInf.
Proof.
  intros H. unfold MaxInv. split; [| split; [| split]].
  - destruct alpha; reflexivity.
  - exact H.
  - reflexivity.
  - intros C. destruct alpha; discriminate.
Qed.

Lemma MinInv_init (alpha beta : Score) :
  sLt alpha beta -> MinInv alpha beta PosInf beta PosInf.
Proof.
  intros H. unfold MinInv. split; [| split; [| split]].
  - destruct beta; reflexivity.
  - exact H.
  - reflexivity.
  - intros C. destruct beta; discriminate.
Qed.

Lemma MaxInv_step (alpha0 beta maxScore alpha seen score v : Score) :
  MaxInv alpha0 beta maxScore alpha seen ->
  failSoft alpha beta score v ->
  sle beta (smax alpha score) = false ->
  MaxInv alpha0 beta (smax maxScore score) (smax alpha score) (smax seen v).
Proof.
  intros. score_prep.
  score_split maxScore alpha0; score_settle;
  (score_split score alpha0; [| score_split score maxScore ]);
  score_finish.
Qed.

Lemma MaxInv_break (alpha0 beta maxScore alpha seen score v rest : Score) :
  MaxInv alpha0 beta maxScore alpha seen ->
  failSoft alpha beta score v ->
  sle beta (smax alpha score) = true ->
  failSoft alpha0 beta (smax maxScore score) (smax seen (smax v rest)).
Proof.
  intros. score_prep.
  score_split maxScore alpha0; score_settle;
  (score_split score alpha0; [| score_split score maxScore ]);
  score_finish.
Qed.

Lemma MaxInv_end (alpha0 beta maxScore alpha seen : Score) :
  MaxInv alpha0 beta maxScore alpha seen ->
  failSoft alpha0 beta maxScore (smax seen NegInf).
Proof.
  intros. score_prep. pose proof (sLe_NegInf seen).
  score_split maxScore alpha0; score_finish.
Qed.

Lemma MinInv_step (alpha beta0 minScore beta seen score v : Score) :
  MinInv alpha beta0 minScore beta seen ->
  failSoft alpha beta score v ->
  sle (smin beta score) alpha = false ->
  MinInv alpha beta0 (smin minScore score) (smin beta score) (smin seen v).
Proof.
  intros. score_prep.
  score_split beta0 minScore; score_settle;
  (score_split beta0 score; [| score_split minScore score ]);
  score_finish.
Qed.

Lemma MinInv_break (alpha beta0 minScore beta seen score v rest : Score) :
  MinInv alpha beta0 minScore beta seen ->
  failSoft alpha beta score v ->
  sle (smin beta score) alpha = true ->
  failSoft alpha beta0 (smin minScore score) (smin seen (smin v rest)).
Proof.
  intros. score_prep.
  score_split beta0 minScore; score_settle;
  (score_split beta0 score; [| score_split minScore score ]);
  score_finish.
Qed.

Lemma MinInv_end (alpha beta0 minScore beta seen : Score) :
  MinInv alpha beta0 minScore beta seen ->
  failSoft alpha beta0 minScore (smin seen PosInf).
Proof.
  intros. score_prep. pose proof (sLe_PosInf seen).
  score_split beta0 minScore; score_finish.
Qed.


(** ** The stable descending sort *)

Lemma insertScored_perm (x : Move * Z) (l : list (Move * Z)) :
  Permutation (x :: l) (insertScored x l).
Proof.
  induction l as [| y l IH]; simpl.
  - apply Permutation_refl.
  - destruct (snd x <? snd y).
    + eapply perm_trans; [apply perm_swap |].
      apply perm_skip, IH.
    + apply Permutation_refl.
Qed.

Lemma sortScored_perm (l : list (Move * Z)) : Permutation l (sortScored l).
Proof.
  induction l as [| x l IH]; simpl.
  - apply perm_nil.
  - eapply perm_trans; [apply perm_skip, IH | apply insertScored_perm].
Qed.

Lemma insertScored_sorted (x : Move * Z) (l : list (Move * Z)) :
  StronglySorted byScore l -> StronglySorted byScore (insertScored x l).
Proof.
  induction 1 as [| y l Hl IH Hy]; simpl.
  - constructor; constructor.
  - destruct (Z.ltb_spec (snd x) (snd y)) as [Hlt | Hge].
    + constructor; [exact IH |].
      eapply Permutation_Forall; [apply insertScored_perm |].
      constructor; [unfold byScore; lia | exact Hy].
    + constructor; [constructor; assumption |].
      constructor; [unfold byScore; lia |].
      eapply List.Forall_impl; [| exact Hy].
      unfold byScore. intros z Hz. lia.
Qed.

Lemma sortScored_sorted (l : list (Move * Z)) :
  StronglySorted byScore (sortScored l).
Proof.
  induction l as [| x l IH]; simpl.
  - constructor.
  - apply insertScored_sorted, IH.
Qed.

Lemma sorted_map_fst (h : Move -> Z) (l : list (Move * Z)) :
  Forall (fun p => snd p = h (fst p)) l ->
  StronglySorted byScore l ->
  StronglySorted (fun a b => h b <= h a) (map fst l).
Proof.
  intros Hh Hs. induction Hs as [| y l Hl IH Hy]; simpl.
  - constructor.
  - inversion Hh as [| ? ? Hy0 Hl0]; subst.
    constructor; [apply IH; assumption |].
    apply Forall_map.
    rewrite Forall_forall in Hy, Hl0 |- *.
    intros z Hz. specialize (Hy z Hz). specialize (Hl0 z Hz).
    unfold byScore in Hy. simpl. rewrite <- Hy0, <- Hl0. exact Hy.
Qed.

Section Proofs.

Context {Position : Type} {E : RulesEngine Position}.

Notation "x <- c1 ;; c2" := (bind c1 (fun x => c2))
  (at level 100, c1 at next level, right associativity).

(** ** Move ordering *)

Lemma ranked_perm (chess : Position) (ms : list Move) :
  Permutation ms (ranked chess ms).
Proof.
  unfold ranked.
  eapply perm_trans;
    [| apply Permutation_map, sortScored_perm ].
  rewrite map_map. simpl. rewrite map_id. apply Permutation_refl.
Qed.

Lemma ranked_sorted (chess : Position) (ms : list Move) :
  StronglySorted (fun a b => heuristic chess b <= heuristic chess a)
    (ranked chess ms).
Proof.
  unfold ranked. apply sorted_map_fst; [| apply sortScored_sorted].
  eapply Permutation_Forall; [apply sortScored_perm |].
  apply Forall_map. apply Forall_forall. intros m _. reflexivity.
Qed.

Lemma scoreAll_ok (Hlegal : LegalMovesApply) (Hundo : UndoReverts)
    (chess : Position) (ms : list Move) :
  (forall m, In m ms -> In m (moves chess)) ->
  scoreAll ms chess = Ok (map (fun m => (m, heuristic chess m)) ms, chess).
Proof.
  induction ms as [| m ms IH]; intros Hin; simpl.
  - reflexivity.
  - destruct (Hlegal chess m) as [[moveObj chess'] Hm];
      [apply Hin; left; reflexivity |].
    unfold bind at 1. unfold doMove. rewrite Hm.
    unfold bind at 1. unfold gets.
    unfold bind at 1. unfold doUndo. rewrite (Hundo _ _ _ _ Hm).
    unfold bind at 1. rewrite IH by (intros m' Hm'; apply Hin; right; exact Hm').
    unfold ret, heuristic. rewrite Hm. reflexivity.
Qed.

Lemma orderMoves_ok (Hlegal : LegalMovesApply) (Hundo : UndoReverts)
    (chess : Position) (ms : list Move) :
  (forall m, In m ms -> In m (moves chess)) ->
  orderMoves ms chess = Ok (ranked chess ms, chess).
Proof.
  intros Hin. unfold orderMoves, bind.
  rewrite (scoreAll_ok Hlegal Hundo) by exact Hin.
  reflexivity.
Qed.

(** Whatever the moves, a call that returns has undone what it did. *)
Lemma scoreAll_restores (Hundo : UndoReverts) (ms : list Move) :
  forall chess scored chess',
    scoreAll ms chess = Ok (scored, chess') ->
    chess' = chess /\ map fst scored = ms.
Proof.
  induction ms as [| m ms IH]; intros chess scored chess' H; simpl in H.
  - unfold ret in H. inversion H. split; reflexivity.
  - unfold bind at 1 in H. unfold doMove in H.
    destruct (move chess m) as [[moveObj q] |] eqn:Hm; [| discriminate].
    unfold bind at 1 in H. unfold gets in H.
    unfold bind at 1 in H. unfold doUndo in H.
    rewrite (Hundo _ _ _ _ Hm) in H.
    unfold bind at 1 in H.
    destruct (scoreAll ms chess) as [[tl c] | |] eqn:Hs; try discriminate.
    apply IH in Hs. destruct Hs as [-> Htl].
    unfold ret in H. inversion H. subst. simpl.
    split; [reflexivity | congruence].
Qed.

Lemma orderMoves_restores (Hundo : UndoReverts) (ms : list Move) :
  forall chess r chess',
    orderMoves ms chess = Ok (r, chess') ->
    chess' = chess /\ Permutation ms r.
Proof.
  intros chess r chess' H. unfold orderMoves, bind in H.
  destruct (scoreAll ms chess) as [[scored c] | |] eqn:Hs; try discriminate.
  apply (scoreAll_restores Hundo) in Hs. destruct Hs as [-> Hfst].
  unfold ret in H. inversion H. subst. split; [reflexivity |].
  apply Permutation_map, sortScored_perm.
Qed.

(** ** The loops of the search *)

Lemma fold_smax_perm (l l' : list Score) :
  Permutation l l' -> fold_right smax NegInf l = fold_right smax NegInf l'.
Proof.
  induction 1 as [| x l l' _ IH | x y l | l l' l'' _ IH1 _ IH2]; simpl.
  - reflexivity.
  - rewrite IH. reflexivity.
  - rewrite !smax_assoc, (smax_comm x y). reflexivity.
  - rewrite IH1. exact IH2.
Qed.

Lemma fold_smin_perm (l l' : list Score) :
  Permutation l l' -> fold_right smin PosInf l = fold_right smin PosInf l'.
Proof.
  induction 1 as [| x l l' _ IH | x y l | l l' l'' _ IH1 _ IH2]; simpl.
  - reflexivity.
  - rewrite IH. reflexivity.
  - rewrite !smin_assoc, (smin_comm x y). reflexivity.
  - rewrite IH1. exact IH2.
Qed.

Lemma maxLoop_spec (Hundo : UndoReverts)
    (child : Score -> Score -> Eff Score) (V : Move -> Score)
    (chess : Position) (alpha0 beta : Score) (ms : list Move) :
  childrenOk child V chess ms ->
  forall maxScore alpha seen,
    exists r,
      maxLoop child ms maxScore alpha beta chess = Ok (r, chess) /\
      (MaxInv alpha0 beta maxScore alpha seen ->
       failSoft alpha0 beta r
         (smax seen (fold_right smax NegInf (map V ms)))).
Proof.
  induction ms as [| m ms IH]; intros Hkids maxScore alpha seen;
    cbn [maxLoop map fold_right].
  - exists maxScore. split; [reflexivity |].
    intros Hinv. eapply MaxInv_end; exact Hinv.
  - destruct (Hkids m (or_introl eq_refl)) as (moveObj & q & Hm & Hq).
    destruct (Hq alpha beta) as (s & Hs & Hw).
    unfold bind at 1. unfold doMove. rewrite Hm.
    unfold bind at 1. rewrite Hs.
    unfold bind at 1. unfold doUndo. rewrite (Hundo _ _ _ _ Hm).
    destruct (sle beta (smax alpha s)) eqn:Hcut.
    + exists (smax maxScore s). split; [reflexivity |].
      intros Hinv. eapply MaxInv_break; [exact Hinv | | exact Hcut].
      apply Hw. destruct Hinv as (_ & Hlt & _). exact Hlt.
    + destruct (IH (fun m' Hm' => Hkids m' (or_intror Hm'))
                  (smax maxScore s) (smax alpha s) (smax seen (V m)))
        as (r & Hr & Hwr).
      exists r. split; [exact Hr |].
      intros Hinv. rewrite smax_assoc. apply Hwr.
      eapply MaxInv_step; [exact Hinv | | exact Hcut].
      apply Hw. destruct Hinv as (_ & Hlt & _). exact Hlt.
Qed.

Lemma minLoop_spec (Hundo : UndoReverts)
    (child : Score -> Score -> Eff Score) (V : Move -> Score)
    (chess : Position) (alpha beta0 : Score) (ms : list Move) :
  childrenOk child V chess ms ->
  forall minScore beta seen,
    exists r,
      minLoop child ms minScore alpha beta chess = Ok (r, chess) /\
      (MinInv alpha beta0 minScore beta seen ->
       failSoft alpha beta0 r
         (smin seen (fold_right smin PosInf (map V ms)))).
Proof.
  induction ms as [| m ms IH]; intros Hkids minScore beta seen;
    cbn [minLoop map fold_right].
  - exists minScore. split; [reflexivity |].
    intros Hinv. eapply MinInv_end; exact Hinv.
  - destruct (Hkids m (or_introl eq_refl)) as (moveObj & q & Hm & Hq).
    destruct (Hq alpha beta) as (s & Hs & Hw).
    unfold bind at 1. unfold doMove. rewrite Hm.
    unfold bind at 1. rewrite Hs.
    unfold bind at 1. unfold doUndo. rewrite (Hundo _ _ _ _ Hm).
    destruct (sle (smin beta s) alpha) eqn:Hcut.
    + exists (smin minScore s). split; [reflexivity |].
      intros Hinv. eapply MinInv_break; [exact Hinv | | exact Hcut].
      apply Hw. destruct Hinv as (_ & Hlt & _). exact Hlt.
    + destruct (IH (fun m' Hm' => Hkids m' (or_intror Hm'))
                  (smin minScore s) (smin beta s) (smin seen (V m)))
        as (r & Hr & Hwr).
      exists r. split; [exact Hr |].
      intros Hinv. rewrite smin_assoc. apply Hwr.
      eapply MinInv_step; [exact Hinv | | exact Hcut].
      apply Hw. destruct Hinv as (_ & Hlt & _). exact Hlt.
Qed.

(** ** The search against the full tree *)

Lemma minimaxWith_spec (Hlegal : LegalMovesApply) (Hundo : UndoReverts)
    (evaluate : Position -> Score) (order : list Move -> Eff (list Move))
    (Hord : Reorders order) (fuel : nat) :
  forall depth alpha beta isMaximizing chess,
    0 <= depth -> (Z.to_nat depth < fuel)%nat ->
    exists v,
      minimaxWith evaluate order fuel depth alpha beta isMaximizing chess
        = Ok (v, chess) /\
      (sLt alpha beta ->
       failSoft alpha beta v
         (fullMinimax evaluate (Z.to_nat depth) chess isMaximizing)).
Proof.
  induction fuel as [| fuel IH];
    intros depth alpha beta isMaximizing chess Hd Hfuel; [lia |].
  cbn [minimaxWith]. unfold bind at 1. unfold gets at 1.
  destruct (Z.eqb_spec depth 0) as [-> | Hnz].
  - exists (evaluate chess). split; [reflexivity |].
    intros _. apply failSoft_exact.
  - assert (Hdepth : Z.to_nat depth = S (Z.to_nat (depth - 1))) by lia.
    rewrite Hdepth. cbn [orb fullMinimax].
    destruct (isGameOver chess) eqn:Hover.
    + exists (evaluate chess). split; [reflexivity |].
      intros _. apply failSoft_exact.
    + unfold bind at 1. unfold gets at 1.
      destruct (Hord chess (moves chess)) as (ms' & Hms' & Hperm);
        [auto |].
      unfold bind at 1. rewrite Hms'.
      assert (Hkids : forall b,
                 childrenOk
                   (fun a b' =>
                      minimaxWith evaluate order fuel (depth - 1) a b' b)
                   (fun m => fullMinimax evaluate (Z.to_nat (depth - 1))
                               (after chess m) b)
                   chess ms').
      { intros b m Hm.
        destruct (Hlegal chess m) as [[moveObj q] Hq].
        { eapply Permutation_in; [apply Permutation_sym, Hperm | exact Hm]. }
        exists moveObj, q. split; [exact Hq |].
        intros a b'. unfold after. rewrite Hq.
        apply IH; lia. }
      destruct isMaximizing; cbn [negb].
      * destruct (maxLoop_spec Hundo _ _ chess alpha beta ms' (Hkids false)
                    NegInf alpha NegInf) as (r & Hr & Hw).
        exists r. split; [exact Hr |].
        intros Hlt. specialize (Hw (MaxInv_init _ _ Hlt)).
        rewrite smax_NegInf_l in Hw.
        rewrite (fold_smax_perm _ _ (Permutation_map _ Hperm)).
        exact Hw.
      * destruct (minLoop_spec Hundo _ _ chess alpha beta ms' (Hkids true)
                    PosInf beta PosInf) as (r & Hr & Hw).
        exists r. split; [exact Hr |].
        intros Hlt. specialize (Hw (MinInv_init _ _ Hlt)).
        rewrite smin_PosInf_l in Hw.
        rewrite (fold_smin_perm _ _ (Permutation_map _ Hperm)).
        exact Hw.
Qed.

(** With the full window the search returns the value of the full tree. *)
Lemma minimaxWith_full (Hlegal : LegalMovesApply) (Hundo : UndoReverts)
    (evaluate : Position -> Score) (order : list Move -> Eff (list Move))
    (Hord : Reorders order) (fuel : nat) (depth : Z) (isMaximizing : bool)
    (chess : Position) :
  0 <= depth -> (Z.to_nat depth < fuel)%nat ->
  minimaxWith evaluate order fuel depth NegInf PosInf isMaximizing chess
    = Ok (fullMinimax evaluate (Z.to_nat depth) chess isMaximizing, chess).
Proof.
  intros Hd Hfuel.
  destruct (minimaxWith_spec Hlegal Hundo evaluate order Hord fuel depth
              NegInf PosInf isMaximizing chess Hd Hfuel) as (v & Hv & Hw).
  rewrite Hv. rewrite (failSoft_full _ _ (Hw eq_refl)). reflexivity.
Qed.

Lemma orderIfMany_reorders (Hlegal : LegalMovesApply) (Hundo : UndoReverts) :
  Reorders orderIfMany.
Proof.
  intros chess ms Hin. unfold orderIfMany.
  destruct (10 <? length ms)%nat.
  - exists (ranked chess ms). split.
    + apply (orderMoves_ok Hlegal Hundo). exact Hin.
    + apply ranked_perm.
  - exists ms. split; [reflexivity | apply Permutation_refl].
Qed.

(** ** Every call that returns has undone its moves *)

Lemma maxLoop_restores (Hundo : UndoReverts)
    (child : Score -> Score -> Eff Score) (beta : Score) :
  (forall a b q s q', child a b q = Ok (s, q') -> q' = q) ->
  forall ms maxScore alpha chess r chess',
    maxLoop child ms maxScore alpha beta chess = Ok (r, chess') ->
    chess' = chess.
Proof.
  intros Hchild.
  induction ms as [| m ms IH]; intros maxScore alpha chess r chess' H;
    cbn [maxLoop] in H.
  - inversion H. reflexivity.
  - unfold bind at 1 in H. unfold doMove in H.
    destruct (move chess m) as [[moveObj q] |] eqn:Hm; [| discriminate].
    unfold bind at 1 in H.
    destruct (child alpha beta q) as [[s q'] | |] eqn:Hc; try discriminate.
    apply Hchild in Hc. subst q'.
    unfold bind at 1 in H. unfold doUndo in H.
    rewrite (Hundo _ _ _ _ Hm) in H.
    destruct (sle beta (smax alpha s)).
    + inversion H. reflexivity.
    + eapply IH. exact H.
Qed.

Lemma minLoop_restores (Hundo : UndoReverts)
    (child : Score -> Score -> Eff Score) (alpha : Score) :
  (forall a b q s q', child a b q = Ok (s, q') -> q' = q) ->
  forall ms minScore beta chess r chess',
    minLoop child ms minScore alpha beta chess = Ok (r, chess') ->
    chess' = chess.
Proof.
  intros Hchild.
  induction ms as [| m ms IH]; intros minScore beta chess r chess' H;
    cbn [minLoop] in H.
  - inversion H. reflexivity.
  - unfold bind at 1 in H. unfold doMove in H.
    destruct (move chess m) as [[moveObj q] |] eqn:Hm; [| discriminate].
    unfold bind at 1 in H.
    destruct (child alpha beta q) as [[s q'] | |] eqn:Hc; try discriminate.
    apply Hchild in Hc. subst q'.
    unfold bind at 1 in H. unfold doUndo in H.
    rewrite (Hundo _ _ _ _ Hm) in H.
    destruct (sle (smin beta s) alpha).
    + inversion H. reflexivity.
    + eapply IH. exact H.
Qed.

Lemma minimaxWith_restores (Hundo : UndoReverts)
    (evaluate : Position -> Score) (order : list Move -> Eff (list Move)) :
  (forall ms chess r chess', order ms chess = Ok (r, chess') -> chess' = chess) ->
  forall fuel depth alpha beta isMaximizing chess v chess',
    minimaxWith evaluate order fuel depth alpha beta isMaximizing chess
      = Ok (v, chess') ->
    chess' = chess.
Proof.
  intros Hord.
  induction fuel as [| fuel IH];
    intros depth alpha beta isMaximizing chess v chess' H;
    cbn [minimaxWith] in H; [discriminate |].
  unfold bind at 1 in H. unfold gets at 1 in H.
  destruct ((depth =? 0) || isGameOver chess).
  - inversion H. reflexivity.
  - unfold bind at 1 in H. unfold gets at 1 in H.
    unfold bind at 1 in H.
    destruct (order (moves chess) chess) as [[ms' c] | |] eqn:Ho;
      try discriminate.
    apply Hord in Ho. subst c.
    destruct isMaximizing.
    + eapply (maxLoop_restores Hundo); [| exact H].
      intros a b q s q' Hq. eapply IH. exact Hq.
    + eapply (minLoop_restores Hundo); [| exact H].
      intros a b q s q' Hq. eapply IH. exact Hq.
Qed.

Lemma orderIfMany_restores (Hundo : UndoReverts) :
  forall ms chess r chess',
    orderIfMany ms chess = Ok (r, chess') -> chess' = chess.
Proof.
  intros ms chess r chess' H. unfold orderIfMany in H.
  destruct (10 <? length ms)%nat.
  - apply (orderMoves_restores Hundo) in H. tauto.
  - inversion H. reflexivity.
Qed.

Lemma minimax_restores (Hundo : UndoReverts) :
  forall fuel depth alpha beta isMaximizing chess v chess',
    minimax fuel depth alpha beta isMaximizing chess = Ok (v, chess') ->
    chess' = chess.
Proof.
  apply (minimaxWith_restores Hundo), (orderIfMany_restores Hundo).
Qed.

(** ** The root loop *)

Lemma pickBest_member (isMaximizing : bool) (scoreOf : Move -> Score)
    (ms : list Move) :
  forall bestMove bestScore,
    pickBest isMaximizing scoreOf ms bestMove bestScore = bestMove \/
    exists m, pickBest isMaximizing scoreOf ms bestMove bestScore = Some m /\
              In m ms.
Proof.
  induction ms as [| m ms IH]; intros bestMove bestScore; cbn [pickBest].
  - left. reflexivity.
  - assert (Hnew : forall sc,
               exists m', pickBest isMaximizing scoreOf ms (Some m) sc = Some m'
                          /\ In m' (m :: ms)).
    { intros sc. destruct (IH (Some m) sc) as [-> | (m' & -> & Hin)].
      - exists m. split; [reflexivity | left; reflexivity].
      - exists m'. split; [reflexivity | right; exact Hin]. }
    assert (Hold : pickBest isMaximizing scoreOf ms bestMove bestScore
                     = bestMove \/
                   exists m', pickBest isMaximizing scoreOf ms bestMove bestScore
                                = Some m' /\ In m' (m :: ms)).
    { destruct (IH bestMove bestScore) as [-> | (m' & -> & Hin)].
      - left. reflexivity.
      - right. exists m'. split; [reflexivity | right; exact Hin]. }
    destruct isMaximizing.
    + destruct (slt bestScore (scoreOf m)); [right; apply Hnew | exact Hold].
    + destruct (slt (scoreOf m) bestScore); [right; apply Hnew | exact Hold].
Qed.

Lemma rootLoop_spec (Hundo : UndoReverts)
    (search : Z -> Score -> Score -> bool -> Eff Score) (depth : Z)
    (isMaximizing : bool) (scoreOf : Move -> Score) (chess : Position)
    (ms : list Move) :
  (forall m, In m ms ->
     exists moveObj q,
       move chess m = Some (moveObj, q) /\
       search (depth - 1) NegInf PosInf (negb isMaximizing) q
         = Ok (scoreOf m, q)) ->
  forall bestMove bestScore,
    rootLoop search depth isMaximizing ms bestMove bestScore chess
      = Ok (pickBest isMaximizing scoreOf ms bestMove bestScore, chess).
Proof.
  induction ms as [| m ms IH]; intros Hkids bestMove bestScore;
    cbn [rootLoop pickBest].
  - reflexivity.
  - destruct (Hkids m (or_introl eq_refl)) as (moveObj & q & Hm & Hq).
    unfold bind at 1. unfold doMove. rewrite Hm.
    unfold bind at 1. rewrite Hq.
    unfold bind at 1. unfold doUndo. rewrite (Hundo _ _ _ _ Hm).
    pose proof (IH (fun m' Hm' => Hkids m' (or_intror Hm'))) as IH'.
    destruct isMaximizing.
    + destruct (slt bestScore (scoreOf m)); apply IH'.
    + destruct (slt (scoreOf m) bestScore); apply IH'.
Qed.

Lemma rootLoop_returns (Hundo : UndoReverts)
    (search : Z -> Score -> Score -> bool -> Eff Score) (depth : Z)
    (isMaximizing : bool) :
  (forall d a b mx q s q', search d a b mx q = Ok (s, q') -> q' = q) ->
  forall ms bestMove bestScore chess r chess',
    rootLoop search depth isMaximizing ms bestMove bestScore chess
      = Ok (r, chess') ->
    chess' = chess /\ (r = bestMove \/ exists m, r = Some m /\ In m ms).
Proof.
  intros Hsearch.
  induction ms as [| m ms IH]; intros bestMove bestScore chess r chess' H;
    cbn [rootLoop] in H.
  - inversion H. split; [reflexivity | left; reflexivity].
  - unfold bind at 1 in H. unfold doMove in H.
    destruct (move chess m) as [[moveObj q] |] eqn:Hm; [| discriminate].
    unfold bind at 1 in H.
    destruct (search (depth - 1) NegInf PosInf (negb isMaximizing) q)
      as [[s q'] | |] eqn:Hs; try discriminate.
    apply Hsearch in Hs. subst q'.
    unfold bind at 1 in H. unfold doUndo in H.
    rewrite (Hundo _ _ _ _ Hm) in H.
    assert (Hnew : forall sc,
               rootLoop search depth isMaximizing ms (Some m) sc chess
                 = Ok (r, chess') ->
               chess' = chess /\
               (r = bestMove \/ exists m', r = Some m' /\ In m' (m :: ms))).
    { intros sc Hsc. apply IH in Hsc. destruct Hsc as [-> [-> | (m' & -> & Hin)]].
      - split; [reflexivity |]. right. exists m. split; [reflexivity | left; reflexivity].
      - split; [reflexivity |]. right. exists m'. split; [reflexivity | right; exact Hin]. }
    assert (Hold :
               rootLoop search depth isMaximizing ms bestMove bestScore chess
                 = Ok (r, chess') ->
               chess' = chess /\
               (r = bestMove \/ exists m', r = Some m' /\ In m' (m :: ms))).
    { intros Hsc. apply IH in Hsc. destruct Hsc as [-> [-> | (m' & -> & Hin)]].
      - split; [reflexivity |]. left. reflexivity.
      - split; [reflexivity |]. right. exists m'. split; [reflexivity | right; exact Hin]. }
    destruct isMaximizing.
    + destruct (slt bestScore s); [eapply Hnew | apply Hold]; exact H.
    + destruct (slt s bestScore); [eapply Hnew | apply Hold]; exact H.
Qed.

(** With moves that apply, [getBestMove] is the pure choice [pickBest] over
    the ranked moves, each scored by the full minimax of the position it
    leads to. *)
Lemma getBestMove_spec (Hlegal : LegalMovesApply) (Hundo : UndoReverts)
    (fuel : nat) (depth : Z) (chess : Position) :
  1 <= depth -> (Z.to_nat depth <= fuel)%nat ->
  moves chess <> [] ->
  getBestMove fuel depth chess =
    Ok (pickBest (isWhite (turn chess))
          (fun m => fullMinimax evaluatePosition (Z.to_nat (depth - 1))
                      (after chess m) (negb (isWhite (turn chess))))
          (ranked chess (moves chess))
          (head (ranked chess (moves chess)))
          (if isWhite (turn chess) then NegInf else PosInf),
        chess).
Proof.
  intros Hd Hfuel Hne. unfold getBestMove.
  unfold bind at 1. unfold gets at 1.
  destruct (moves chess) as [| m0 ms0] eqn:Hmoves; [congruence |].
  cbn [length Nat.eqb]. rewrite <- Hmoves.
  unfold bind at 1.
  rewrite (orderMoves_ok Hlegal Hundo) by auto.
  unfold bind at 1. unfold gets at 1.
  apply (rootLoop_spec Hundo).
  intros m Hm.
  destruct (Hlegal chess m) as [[moveObj q] Hq].
  { eapply Permutation_in; [apply Permutation_sym, ranked_perm | exact Hm]. }
  exists moveObj, q. split; [exact Hq |].
  unfold after. rewrite Hq. unfold minimax.
  apply (minimaxWith_full Hlegal Hundo);
    [apply (orderIfMany_reorders Hlegal Hundo) | lia | lia].
Qed.

Lemma getBestMove_restores (Hundo : UndoReverts) :
  forall fuel depth chess r chess',
    getBestMove fuel depth chess = Ok (r, chess') ->
    chess' = chess /\
    (r = None <-> moves chess = []) /\
    (forall m, r = Some m -> In m (moves chess)).
Proof.
  intros fuel depth chess r chess' H. unfold getBestMove in H.
  unfold bind at 1 in H. unfold gets at 1 in H.
  destruct (moves chess) as [| m0 ms0] eqn:Hmoves; cbn [length Nat.eqb] in H.
  - inversion H. subst. repeat split; intros; try reflexivity; discriminate.
  - unfold bind at 1 in H.
    destruct (orderMoves (m0 :: ms0) chess) as [[ordered c] | |] eqn:Ho;
      try discriminate.
    apply (orderMoves_restores Hundo) in Ho. destruct Ho as [-> Hperm].
    unfold bind at 1 in H. unfold gets at 1 in H.
    apply (rootLoop_returns Hundo) in H;
      [| intros d a b mx q s q'; apply (minimax_restores Hundo) ].
    destruct H as [-> Hr]. split; [reflexivity |].
    assert (Hsome : exists m, r = Some m /\ In m (m0 :: ms0)).
    { destruct Hr as [-> | (m & -> & Hin)].
      - destruct ordered as [| o os].
        + apply Permutation_sym, Permutation_nil in Hperm. discriminate.
        + exists o. split; [reflexivity |].
          eapply Permutation_in; [apply Permutation_sym, Hperm | left; reflexivity].
      - exists m. split; [reflexivity |].
        eapply Permutation_in; [apply Permutation_sym, Hperm | exact Hin]. }
    destruct Hsome as (m & -> & Hin). split.
    + split; intros; discriminate.
    + intros m' Hm'. inversion Hm'. subst. exact Hin.
Qed.

(** ** The claims on the search *)

(** C1 (amended).  Called with the full window (-inf, +inf), as
    [getBestMove] calls it, [minimax] returns the value of the unpruned full
    minimax over the same depth-limited tree.  With any other window
    alpha < beta it returns that value when the value lies strictly inside
    the window, and otherwise a bound on it: a result at or below alpha is
    at least the full value, a result at or above beta is at most the full
    value. *)
Theorem minimax_full_window_is_full_minimax
    (Hlegal : LegalMovesApply) (Hundo : UndoReverts)
    (fuel : nat) (depth : Z) (isMaximizing : bool) (chess : Position) :
  0 <= depth -> (Z.to_nat depth < fuel)%nat ->
  minimax fuel depth NegInf PosInf isMaximizing chess
    = Ok (fullMinimax evaluatePosition (Z.to_nat depth) chess isMaximizing,
          chess) /\
  forall alpha beta, sLt alpha beta ->
    exists v,
      minimax fuel depth alpha beta isMaximizing chess = Ok (v, chess) /\
      let full := fullMinimax evaluatePosition (Z.to_nat depth) chess
                    isMaximizing in
      (sLe v alpha -> sLe full v) /\
      (sLe beta v -> sLe v full) /\
      (sLt alpha v -> sLt v beta -> v = full).
Proof.
  intros Hd Hfuel. split.
  - apply (minimaxWith_full Hlegal Hundo);
      [apply (orderIfMany_reorders Hlegal Hundo) | exact Hd | exact Hfuel].
  - intros alpha beta Hlt.
    destruct (minimaxWith_spec Hlegal Hundo evaluatePosition orderIfMany
                (orderIfMany_reorders Hlegal Hundo) fuel depth alpha beta
                isMaximizing chess Hd Hfuel) as (v & Hv & Hw).
    exists v. split; [exact Hv | exact (Hw Hlt)].
Qed.

(** C3.  Given that [undo] reverts the last [move], every call of
    [orderMoves], [minimax] and [getBestMove] that returns leaves the
    position as it was at entry, whatever the moves, depth and window and
    whether or not a loop was cut short; and with moves that apply and
    enough fuel for the depth the calls do return. *)
Theorem search_restores_position (Hundo : UndoReverts) :
  (forall ms chess r chess',
     orderMoves ms chess = Ok (r, chess') -> chess' = chess) /\
  (forall fuel depth alpha beta isMaximizing chess v chess',
     minimax fuel depth alpha beta isMaximizing chess = Ok (v, chess') ->
     chess' = chess) /\
  (forall fuel depth chess r chess',
     getBestMove fuel depth chess = Ok (r, chess') -> chess' = chess) /\
  (LegalMovesApply ->
   (forall ms chess,
      (forall m, In m ms -> In m (moves chess)) ->
      exists r, orderMoves ms chess = Ok (r, chess)) /\
   (forall fuel depth alpha beta isMaximizing chess,
      0 <= depth -> (Z.to_nat depth < fuel)%nat ->
      exists v, minimax fuel depth alpha beta isMaximizing chess
                  = Ok (v, chess)) /\
   (forall fuel depth chess,
      1 <= depth -> (Z.to_nat depth <= fuel)%nat ->
      exists r, getBestMove fuel depth chess = Ok (r, chess))).
Proof.
  split; [| split; [| split]].
  - intros ms chess r chess' H.
    apply (orderMoves_restores Hundo) in H. tauto.
  - apply (minimax_restores Hundo).
  - intros fuel depth chess r chess' H.
    apply (getBestMove_restores Hundo) in H. tauto.
  - intros Hlegal. split; [| split].
    + intros ms chess Hin. exists (ranked chess ms).
      apply (orderMoves_ok Hlegal Hundo). exact Hin.
    + intros fuel depth alpha beta isMaximizing chess Hd Hfuel.
      destruct (minimaxWith_spec Hlegal Hundo evaluatePosition orderIfMany
                  (orderIfMany_reorders Hlegal Hundo) fuel depth alpha beta
                  isMaximizing chess Hd Hfuel) as (v & Hv & _).
      exists v. exact Hv.
    + intros fuel depth chess Hd Hfuel.
      destruct (moves chess) as [| m0 ms0] eqn:Hmoves.
      * exists None. unfold getBestMove, bind, gets. rewrite Hmoves.
        reflexivity.
      * eexists. apply (getBestMove_spec Hlegal Hundo); [exact Hd | exact Hfuel |].
        rewrite Hmoves. discriminate.
Qed.

(** C4.  Whatever permutation of the move list the search explores at each
    node in place of the ranking of [orderMoves], the evaluation it returns
    for the full window is the one [minimax] returns.  For a narrower window
    the two results are equal or fail on the same side of the window. *)
Theorem move_order_keeps_value
    (Hlegal : LegalMovesApply) (Hundo : UndoReverts)
    (order : list Move -> Eff (list Move)) (Hord : Reorders order)
    (fuel : nat) (depth : Z) (isMaximizing : bool) (chess : Position) :
  0 <= depth -> (Z.to_nat depth < fuel)%nat ->
  (exists v,
     minimaxWith evaluatePosition order fuel depth NegInf PosInf
       isMaximizing chess = Ok (v, chess) /\
     minimax fuel depth NegInf PosInf isMaximizing chess = Ok (v, chess)) /\
  (forall alpha beta, sLt alpha beta ->
     exists r1 r2,
       minimaxWith evaluatePosition order fuel depth alpha beta
         isMaximizing chess = Ok (r1, chess) /\
       minimax fuel depth alpha beta isMaximizing chess = Ok (r2, chess) /\
       (r1 = r2 \/ (sLe r1 alpha /\ sLe r2 alpha)
        \/ (sLe beta r1 /\ sLe beta r2))).
Proof.
  intros Hd Hfuel. split.
  - exists (fullMinimax evaluatePosition (Z.to_nat depth) chess isMaximizing).
    split.
    + apply (minimaxWith_full Hlegal Hundo); assumption.
    + apply (minimaxWith_full Hlegal Hundo);
        [apply (orderIfMany_reorders Hlegal Hundo) | exact Hd | exact Hfuel].
  - intros alpha beta Hlt.
    destruct (minimaxWith_spec Hlegal Hundo evaluatePosition order Hord
                fuel depth alpha beta isMaximizing chess Hd Hfuel)
      as (r1 & Hr1 & Hw1).
    destruct (minimaxWith_spec Hlegal Hundo evaluatePosition orderIfMany
                (orderIfMany_reorders Hlegal Hundo) fuel depth alpha beta
                isMaximizing chess Hd Hfuel) as (r2 & Hr2 & Hw2).
    exists r1, r2. split; [exact Hr1 | split; [exact Hr2 |]].
    specialize (Hw1 Hlt). specialize (Hw2 Hlt).
    generalize dependent (fullMinimax evaluatePosition (Z.to_nat depth) chess
                            isMaximizing).
    intros full Hw1 Hw2. clear Hr1 Hr2.
    score_prep.
    score_split r1 alpha; [| score_split beta r1 ];
      (score_split r2 alpha; [| score_split beta r2 ]);
      score_settle.
    all: try (right; left; split; assumption).
    all: try (right; right; split; assumption).
    all: try (left; score_fold; ScoreTac.order).
    all: exfalso; ScoreTac.order.
Qed.

End Proofs.

(** ** The game-tree engine keeps the pairing of [move] and [undo] *)

Lemma tree_findKid_some (m : Move) (k : list (Move * MoveObj * GameTree.Tree)) :
  In m (map (fun x => fst (fst x)) k) ->
  exists r, GameTree.findKid m k = Some r.
Proof.
  induction k as [| [[m' moveObj] t] k IH]; simpl; intros H.
  - contradiction.
  - destruct (String.eqb_spec m m') as [-> | Hne].
    + eexists. reflexivity.
    + destruct H as [H | H]; [congruence | apply IH, H].
Qed.

Lemma tree_moves_apply (t : GameTree.Tree) :
  @LegalMovesApply _ (GameTree.engine t).
Proof.
  intros chess m Hin. simpl in *. unfold GameTree.play.
  destruct (tree_findKid_some m _ Hin) as [[moveObj t'] ->].
  eexists. reflexivity.
Qed.

Lemma tree_undo_reverts (t : GameTree.Tree) :
  @UndoReverts _ (GameTree.engine t).
Proof.
  intros chess chess' m moveObj H. simpl in *. unfold GameTree.play in H.
  destruct (GameTree.findKid m _) as [[moveObj' t'] |]; [| discriminate].
  inversion H. subst. unfold GameTree.takeBack. simpl.
  destruct chess. reflexivity.
Qed.

(** ** The loop that picks the best move *)

Lemma slt_false_sLe (a b : Score) : slt a b = false -> sLe b a.
Proof. unfold slt, sLe. intros H. apply negb_false_iff in H. exact H. Qed.

Lemma sLt_trans (a b c : Score) : sLt a b -> sLt b c -> sLt a c.
Proof. intros. score_fold. ScoreTac.order. Qed.

Lemma sLe_sLt_trans (a b c : Score) : sLe a b -> sLt b c -> sLt a c.
Proof. intros. score_fold. ScoreTac.order. Qed.

Lemma sLe_trans (a b c : Score) : sLe a b -> sLe b c -> sLe a c.
Proof. intros. score_fold. ScoreTac.order. Qed.

Lemma sLt_sLe (a b : Score) : sLt a b -> sLe a b.
Proof. intros. score_fold. ScoreTac.order. Qed.

Lemma pickBest_max_spec (scoreOf : Move -> Score) (ms : list Move) :
  forall bestMove bestScore,
    (pickBest true scoreOf ms bestMove bestScore = bestMove /\
     forall m', In m' ms -> sLe (scoreOf m') bestScore) \/
    (exists front m back,
       ms = (front ++ m :: back)%list /\
       pickBest true scoreOf ms bestMove bestScore = Some m /\
       sLt bestScore (scoreOf m) /\
       (forall m', In m' front -> sLt (scoreOf m') (scoreOf m)) /\
       (forall m', In m' back -> sLe (scoreOf m') (scoreOf m))).
Proof.
  induction ms as [| a ms IH]; intros bestMove bestScore; cbn [pickBest].
  - left. split; [reflexivity | intros m' []].
  - destruct (slt bestScore (scoreOf a)) eqn:Hlt.
    + destruct (IH (Some a) (scoreOf a))
        as [[Hr Hall] | (front & m & back & -> & Hr & Hm & Hfront & Hback)].
      * right. exists [], a, ms. repeat split; try assumption.
        intros m' [].
      * right. exists (a :: front), m, back. repeat split; try assumption.
        -- exact (sLt_trans _ _ _ Hlt Hm).
        -- intros m' [<- | Hm']; [exact Hm | apply Hfront, Hm'].
    + apply slt_false_sLe in Hlt.
      destruct (IH bestMove bestScore)
        as [[Hr Hall] | (front & m & back & -> & Hr & Hm & Hfront & Hback)].
      * left. split; [exact Hr |].
        intros m' [<- | Hm']; [exact Hlt | apply Hall, Hm'].
      * right. exists (a :: front), m, back. repeat split; try assumption.
        intros m' [<- | Hm']; [| apply Hfront, Hm'].
        exact (sLe_sLt_trans _ _ _ Hlt Hm).
Qed.

Lemma pickBest_min_spec (scoreOf : Move -> Score) (ms : list Move) :
  forall bestMove bestScore,
    (pickBest false scoreOf ms bestMove bestScore = bestMove /\
     forall m', In m' ms -> sLe bestScore (scoreOf m')) \/
    (exists front m back,
       ms = (front ++ m :: back)%list /\
       pickBest false scoreOf ms bestMove bestScore = Some m /\
       sLt (scoreOf m) bestScore /\
       (forall m', In m' front -> sLt (scoreOf m) (scoreOf m')) /\
       (forall m', In m' back -> sLe (scoreOf m) (scoreOf m'))).
Proof.
  induction ms as [| a ms IH]; intros bestMove bestScore; cbn [pickBest].
  - left. split; [reflexivity | intros m' []].
  - destruct (slt (scoreOf a) bestScore) eqn:Hlt.
    + destruct (IH (Some a) (scoreOf a))
        as [[Hr Hall] | (front & m & back & -> & Hr & Hm & Hfront & Hback)].
      * right. exists [], a, ms. repeat split; try assumption.
        intros m' [].
      * right. exists (a :: front), m, back. repeat split; try assumption.
        -- exact (sLt_trans _ _ _ Hm Hlt).
        -- intros m' [<- | Hm']; [exact Hm | apply Hfront, Hm'].
    + apply slt_false_sLe in Hlt.
      destruct (IH bestMove bestScore)
        as [[Hr Hall] | (front & m & back & -> & Hr & Hm & Hfront & Hback)].
      * left. split; [exact Hr |].
        intros m' [<- | Hm']; [exact Hlt | apply Hall, Hm'].
      * right. exists (a :: front), m, back. repeat split; try assumption.
        intros m' [<- | Hm']; [| apply Hfront, Hm'].
        unfold sLt, slt in *. apply negb_true_iff.
        apply negb_true_iff in Hm.
        destruct (sle (scoreOf a) (scoreOf m)) eqn:Hc; [| reflexivity].
        rewrite (sLe_trans _ _ _ Hlt Hc) in Hm. discriminate.
Qed.

(** From the seed of [getBestMove]: the first move and the worst score. *)
Lemma pickBest_max_seeded (scoreOf : Move -> Score) (ms : list Move) :
  ms <> [] ->
  exists front m back,
    ms = (front ++ m :: back)%list /\
    pickBest true scoreOf ms (head ms) NegInf = Some m /\
    (forall m', In m' ms -> sLe (scoreOf m') (scoreOf m)) /\
    (forall m', In m' front -> sLt (scoreOf m') (scoreOf m)).
Proof.
  intros Hne.
  destruct (pickBest_max_spec scoreOf ms (head ms) NegInf)
    as [[Hr Hall] | (front & m & back & Hms & Hr & Hm & Hfront & Hback)].
  - destruct ms as [| h tl]; [congruence |].
    exists [], h, tl. repeat split; try assumption.
    + intros m' Hm'.
      exact (sLe_trans _ _ _ (Hall m' Hm') (sLe_NegInf (scoreOf h))).
    + intros m' [].
  - exists front, m, back. repeat split; try assumption.
    intros m' Hm'. rewrite Hms in Hm'. apply in_app_or in Hm'.
    destruct Hm' as [Hm' | [<- | Hm']].
    + apply sLt_sLe, Hfront, Hm'.
    + apply sle_refl.
    + apply Hback, Hm'.
Qed.

Lemma pickBest_min_seeded (scoreOf : Move -> Score) (ms : list Move) :
  ms <> [] ->
  exists front m back,
    ms = (front ++ m :: back)%list /\
    pickBest false scoreOf ms (head ms) PosInf = Some m /\
    (forall m', In m' ms -> sLe (scoreOf m) (scoreOf m')) /\
    (forall m', In m' front -> sLt (scoreOf m) (scoreOf m')).
Proof.
  intros Hne.
  destruct (pickBest_min_spec scoreOf ms (head ms) PosInf)
    as [[Hr Hall] | (front & m & back & Hms & Hr & Hm & Hfront & Hback)].
  - destruct ms as [| h tl]; [congruence |].
    exists [], h, tl. repeat split; try assumption.
    + intros m' Hm'.
      exact (sLe_trans _ _ _ (sLe_PosInf (scoreOf h)) (Hall m' Hm')).
    + intros m' [].
  - exists front, m, back. repeat split; try assumption.
    intros m' Hm'. rewrite Hms in Hm'. apply in_app_or in Hm'.
    destruct Hm' as [Hm' | [<- | Hm']].
    + apply sLt_sLe, Hfront, Hm'.
    + apply sle_refl.
    + apply Hback, Hm'.
Qed.

Section BestMove.

Context {Position : Type} {E : RulesEngine Position}.

(** ** The claims on the selector and the orderer *)

(** C5.  [getBestMove] returns null exactly when the position has no legal
    move: without moves it returns null at once; whenever it returns, the
    result is null if and only if there are no moves and is otherwise one of
    the legal moves; and with at least one legal move, a depth of 1 or more
    and enough fuel it does return such a move - from the starting position
    at depth 2 in particular. *)
Theorem getBestMove_null_iff_no_moves (Hundo : UndoReverts) :
  (forall fuel depth chess,
     moves chess = [] -> getBestMove fuel depth chess = Ok (None, chess)) /\
  (forall fuel depth chess r chess',
     getBestMove fuel depth chess = Ok (r, chess') ->
     (r = None <-> moves chess = []) /\
     (forall m, r = Some m -> In m (moves chess))) /\
  (LegalMovesApply ->
   forall fuel depth chess,
     1 <= depth -> (Z.to_nat depth <= fuel)%nat -> moves chess <> [] ->
     exists m, getBestMove fuel depth chess = Ok (Some m, chess) /\
               In m (moves chess)) /\
  (LegalMovesApply ->
   moves newChess <> [] ->
   forall fuel, (2 <= fuel)%nat ->
     exists m, getBestMove fuel 2 newChess = Ok (Some m, newChess) /\
               In m (moves newChess)).
Proof.
  assert (Hsome : LegalMovesApply ->
            forall fuel depth chess,
              1 <= depth -> (Z.to_nat depth <= fuel)%nat -> moves chess <> [] ->
              exists m, getBestMove fuel depth chess = Ok (Some m, chess) /\
                        In m (moves chess)).
  { intros Hlegal fuel depth chess Hd Hfuel Hne.
    pose proof (getBestMove_spec Hlegal Hundo fuel depth chess Hd Hfuel Hne)
      as Hspec.
    destruct (getBestMove_restores Hundo _ _ _ _ _ Hspec) as (_ & Hnone & Hin).
    destruct (pickBest _ _ _ _ _) as [m |] eqn:Hpick.
    - exists m. split; [exact Hspec | apply Hin; reflexivity].
    - exfalso. apply Hne, Hnone. reflexivity. }
  split; [| split; [| split]].
  - intros fuel depth chess Hmoves.
    unfold getBestMove, bind, gets. rewrite Hmoves. reflexivity.
  - intros fuel depth chess r chess' H.
    apply (getBestMove_restores Hundo) in H. tauto.
  - exact Hsome.
  - intros Hlegal Hne fuel Hfuel. apply Hsome; [exact Hlegal | lia | lia | exact Hne].
Qed.

Lemma PIECE_VALUES_pos (t : PieceType) : 0 < PIECE_VALUES t.
Proof. destruct t; reflexivity. Qed.

Lemma scoreMove_formula (moveObj : MoveObj) (givesCheck : bool) :
  scoreMove moveObj givesCheck =
    match captured moveObj with
    | Some c => 10 * PIECE_VALUES c - PIECE_VALUES (piece moveObj)
    | None => 0
    end
    + match promotion moveObj with
      | Some pr => PIECE_VALUES pr
      | None => 0
      end
    + (if givesCheck then 50 else 0).
Proof.
  unfold scoreMove.
  destruct (captured moveObj), (promotion moveObj), givesCheck; lia.
Qed.

(** C6.  On a list of legal moves [orderMoves] returns, in the unchanged
    position, a permutation of the list sorted descending by the heuristic
    score: 10 x the captured piece's value minus the mover's value for a
    capture, plus the promoted piece's value, plus 50 when the move gives
    check.  A pawn-takes-queen capture among moves that capture nothing
    (and promote, if at all, to a piece a pawn can become) comes first. *)
Theorem orderMoves_sorted_permutation
    (Hlegal : LegalMovesApply) (Hundo : UndoReverts)
    (chess : Position) (ms : list Move)
    (Hin : forall m, In m ms -> In m (moves chess)) :
  exists r,
    orderMoves ms chess = Ok (r, chess) /\
    Permutation ms r /\
    StronglySorted (fun a b => heuristic chess b <= heuristic chess a) r /\
    (forall m moveObj chess',
       move chess m = Some (moveObj, chess') ->
       heuristic chess m =
         match captured moveObj with
         | Some c => 10 * PIECE_VALUES c - PIECE_VALUES (piece moveObj)
         | None => 0
         end
         + match promotion moveObj with
           | Some pr => PIECE_VALUES pr
           | None => 0
           end
         + (if isCheck chess' then 50 else 0)) /\
    (forall (front : list Move) (m : Move) (back : list Move),
       ms = (front ++ m :: back)%list ->
       (exists moveObj chess',
          move chess m = Some (moveObj, chess') /\
          piece moveObj = Pawn /\ captured moveObj = Some Queen) ->
       (forall m', In m' (front ++ back)%list ->
          exists moveObj chess',
            move chess m' = Some (moveObj, chess') /\
            captured moveObj = None /\ promotion moveObj <> Some King) ->
       exists rest, r = m :: rest).
Proof.
  assert (Hformula : forall m moveObj chess',
            move chess m = Some (moveObj, chess') ->
            heuristic chess m =
              match captured moveObj with
              | Some c => 10 * PIECE_VALUES c - PIECE_VALUES (piece moveObj)
              | None => 0
              end
              + match promotion moveObj with
                | Some pr => PIECE_VALUES pr
                | None => 0
                end
              + (if isCheck chess' then 50 else 0)).
  { intros m moveObj chess' Hm. unfold heuristic. rewrite Hm.
    apply scoreMove_formula. }
  exists (ranked chess ms).
  split; [apply (orderMoves_ok Hlegal Hundo); exact Hin |].
  split; [apply ranked_perm |].
  split; [apply ranked_sorted |].
  split; [exact Hformula |].
  intros front m back Hms (moveObj & chess' & Hm & Hpawn & Hqueen) Hothers.
  assert (Hbig : 8900 <= heuristic chess m).
  { rewrite (Hformula _ _ _ Hm), Hpawn, Hqueen. simpl.
    destruct (promotion moveObj) as [pr |], (isCheck chess');
      try pose proof (PIECE_VALUES_pos pr); lia. }
  assert (Hsmall : forall m', In m' (front ++ back)%list -> heuristic chess m' <= 950).
  { intros m' Hm'. destruct (Hothers m' Hm') as (mo & q & Hmo & Hcap & Hpro).
    rewrite (Hformula _ _ _ Hmo), Hcap.
    destruct (promotion mo) as [[] |], (isCheck q); simpl; try lia.
    all: exfalso; apply Hpro; reflexivity. }
  pose proof (ranked_perm chess ms) as Hperm.
  pose proof (ranked_sorted chess ms) as Hsorted.
  destruct (ranked chess ms) as [| h rest].
  - apply Permutation_sym, Permutation_nil in Hperm.
    subst ms. destruct front; discriminate.
  - exists rest. f_equal.
    assert (Hh : In h ms)
      by (eapply Permutation_in; [apply Permutation_sym, Hperm | left; reflexivity]).
    assert (Hmr : In m (h :: rest)).
    { eapply Permutation_in; [exact Hperm |].
      subst ms. apply in_or_app. right. left. reflexivity. }
    subst ms. apply in_app_or in Hh.
    assert (Hcase : h = m \/ In h (front ++ back)%list).
    { destruct Hh as [Hh | [Hh | Hh]].
      - right. apply in_or_app. left. exact Hh.
      - left. symmetry. exact Hh.
      - right. apply in_or_app. right. exact Hh. }
    destruct Hcase as [Heq | Hother]; [exact Heq |].
    exfalso. specialize (Hsmall h Hother).
    destruct Hmr as [Hmh | Hmrest]; [rewrite Hmh in Hsmall; lia |].
    inversion Hsorted as [| ? ? _ Hall]; subst.
    rewrite List.Forall_forall in Hall. specialize (Hall m Hmrest). simpl in Hall.
    lia.
Qed.

(** ** Mate in one *)

Lemma pickBest_max_unique (scoreOf : Move -> Score) (top : Score) (star : Move)
    (ms : list Move) :
  (forall m, In m ms -> m <> star -> sLt (scoreOf m) top) ->
  scoreOf star = top ->
  forall bestMove bestScore,
    (In star ms /\ sLt bestScore top) \/ (bestMove = Some star /\ bestScore = top) ->
    pickBest true scoreOf ms bestMove bestScore = Some star.
Proof.
  intros Hlow Hstar.
  induction ms as [| m ms IH]; intros bestMove bestScore Hst; cbn [pickBest].
  - destruct Hst as [[[] _] | [-> _]]. reflexivity.
  - assert (IH' := IH (fun m' Hm' => Hlow m' (or_intror Hm'))). clear IH.
    destruct (string_dec m star) as [-> | Hne].
    + rewrite Hstar. destruct Hst as [[_ Hlt] | [-> ->]].
      * unfold sLt in Hlt. rewrite Hlt. apply IH'. right. split; reflexivity.
      * assert (Hirr : slt top top = false)
          by (unfold slt; rewrite sle_refl; reflexivity).
        rewrite Hirr. apply IH'. right. split; reflexivity.
    + pose proof (Hlow m (or_introl eq_refl) Hne) as Hm.
      destruct Hst as [[Hin Hlt] | [-> ->]].
      * assert (Hin' : In star ms) by (destruct Hin as [Hin | Hin]; [congruence | exact Hin]).
        destruct (slt bestScore (scoreOf m)); apply IH'; left; split; assumption.
      * assert (Hno : slt top (scoreOf m) = false).
        { unfold sLt, slt in *. apply negb_true_iff in Hm.
          destruct (sle (scoreOf m) top) eqn:Hle; [reflexivity |].
          exfalso. generalize dependent (scoreOf m). intros s Hs Hle.
          score_fold. ScoreTac.order. }
        rewrite Hno. apply IH'. right. split; reflexivity.
Qed.

Lemma pickBest_min_unique (scoreOf : Move -> Score) (bottom : Score)
    (star : Move) (ms : list Move) :
  (forall m, In m ms -> m <> star -> sLt bottom (scoreOf m)) ->
  scoreOf star = bottom ->
  forall bestMove bestScore,
    (In star ms /\ sLt bottom bestScore)
    \/ (bestMove = Some star /\ bestScore = bottom) ->
    pickBest false scoreOf ms bestMove bestScore = Some star.
Proof.
  intros Hhigh Hstar.
  induction ms as [| m ms IH]; intros bestMove bestScore Hst; cbn [pickBest].
  - destruct Hst as [[[] _] | [-> _]]. reflexivity.
  - assert (IH' := IH (fun m' Hm' => Hhigh m' (or_intror Hm'))). clear IH.
    destruct (string_dec m star) as [-> | Hne].
    + rewrite Hstar. destruct Hst as [[_ Hlt] | [-> ->]].
      * unfold sLt in Hlt. rewrite Hlt. apply IH'. right. split; reflexivity.
      * assert (Hirr : slt bottom bottom = false)
          by (unfold slt; rewrite sle_refl; reflexivity).
        rewrite Hirr. apply IH'. right. split; reflexivity.
    + pose proof (Hhigh m (or_introl eq_refl) Hne) as Hm.
      destruct Hst as [[Hin Hlt] | [-> ->]].
      * assert (Hin' : In star ms) by (destruct Hin as [Hin | Hin]; [congruence | exact Hin]).
        destruct (slt (scoreOf m) bestScore); apply IH'; left; split; assumption.
      * assert (Hno : slt (scoreOf m) bottom = false).
        { unfold sLt, slt in *. apply negb_true_iff in Hm.
          destruct (sle bottom (scoreOf m)) eqn:Hle; [reflexivity |].
          exfalso. generalize dependent (scoreOf m). intros s Hs Hle.
          score_fold. ScoreTac.order. }
        rewrite Hno. apply IH'. right. split; reflexivity.
Qed.

Lemma fold_smin_below (top : Score) (l : list Score) :
  l <> [] -> Forall (fun v => sLt v top) l ->
  sLt (fold_right smin PosInf l) top.
Proof.
  intros Hne Hall. destruct Hall as [| v l Hv Hl]; [congruence |].
  cbn [fold_right]. generalize (fold_right smin PosInf l). intros rest.
  score_prep. score_split v rest; score_settle; ScoreTac.order.
Qed.

Lemma fold_smax_above (bottom : Score) (l : list Score) :
  l <> [] -> Forall (fun v => sLt bottom v) l ->
  sLt bottom (fold_right smax NegInf l).
Proof.
  intros Hne Hall. destruct Hall as [| v l Hv Hl]; [congruence |].
  cbn [fold_right]. generalize (fold_right smax NegInf l). intros rest.
  score_prep. score_split v rest; score_settle; ScoreTac.order.
Qed.

Lemma sane_facts (q : Position) :
  sane q = true ->
  (forall m, In m (moves q) ->
     isWhite (turn (after q m)) = negb (isWhite (turn q))) /\
  (isCheckmate q = true -> isGameOver q = true) /\
  (moves q = [] -> isGameOver q = true) /\
  (isCheckmate q = false ->
   exists z, evaluatePosition q = Fin z /\ -99999 < z < 99999).
Proof.
  unfold sane. rewrite !andb_true_iff. intros [[[Halt Hmate] Hnone] Heval].
  split; [| split; [| split]].
  - intros m Hm. rewrite forallb_forall in Halt.
    apply eqb_prop. apply Halt. exact Hm.
  - intros Hc. rewrite Hc in Hmate. exact Hmate.
  - intros Hm. rewrite Hm in Hnone. exact Hnone.
  - intros Hc. rewrite Hc in Heval. cbn [orb] in Heval.
    destruct (evaluatePosition q) as [| z |]; try discriminate.
    exists z. split; [reflexivity |].
    apply andb_true_iff in Heval. destruct Heval as [H1 H2].
    apply Z.ltb_lt in H1. apply Z.ltb_lt in H2. lia.
Qed.

Lemma within_sane (n : nat) (chess : Position) :
  forallb sane (within (S n) chess) = true ->
  sane chess = true /\
  forall m, In m (moves chess) ->
    forallb sane (within n (after chess m)) = true.
Proof.
  cbn [within forallb]. rewrite andb_true_iff. intros [H0 Hrest].
  split; [exact H0 |].
  intros m Hm. rewrite forallb_forall in Hrest |- *.
  intros q Hq. apply Hrest. apply in_flat_map. exists m. split; assumption.
Qed.

Lemma within_head (n : nat) (chess : Position) :
  forallb sane (within n chess) = true -> sane chess = true.
Proof.
  destruct n; cbn [within forallb]; rewrite andb_true_iff; tauto.
Qed.

Lemma evaluatePosition_mate (q : Position) :
  isCheckmate q = true ->
  evaluatePosition q = if isWhite (turn q) then Fin (-99999) else Fin 99999.
Proof.
  intros H. unfold evaluatePosition. rewrite H.
  destruct (turn q); reflexivity.
Qed.

(** After a move of White that does not mate, one or two plies deep, the
    value stays below the mate score. *)
Lemma reply_below_mate (d : nat) (q : Position) :
  (d <= 1)%nat ->
  forallb sane (within d q) = true ->
  isWhite (turn q) = false ->
  isCheckmate q = false ->
  sLt (fullMinimax evaluatePosition d q false) (Fin 99999).
Proof.
  intros Hd Hsane Hturn Hmate.
  assert (Hleaf : sLt (evaluatePosition q) (Fin 99999)).
  { destruct (sane_facts q (within_head _ _ Hsane)) as (_ & _ & _ & Hev).
    destruct (Hev Hmate) as (z & -> & Hz).
    unfold sLt, slt. simpl. apply negb_true_iff, Z.leb_gt. lia. }
  destruct d as [| [| d]]; [exact Hleaf | | lia].
  cbn [fullMinimax]. destruct (isGameOver q) eqn:Hover; [exact Hleaf |].
  destruct (within_sane _ _ Hsane) as [Hq Hkids].
  destruct (sane_facts q Hq) as (Halt & _ & Hnone & _).
  apply fold_smin_below.
  - intros Hnil. apply map_eq_nil in Hnil.
    rewrite (Hnone Hnil) in Hover. discriminate.
  - apply Forall_map, Forall_forall. intros r Hr.
    apply list_elem_of_In in Hr.
    specialize (Halt r Hr). rewrite Hturn in Halt. cbn [negb] in Halt.
    destruct (isCheckmate (after q r)) eqn:Hm.
    + rewrite (evaluatePosition_mate _ Hm), Halt. reflexivity.
    + destruct (sane_facts _ (within_head _ _ (Hkids r Hr))) as (_ & _ & _ & Hev).
      destruct (Hev Hm) as (z & -> & Hz).
      unfold sLt, slt. simpl. apply negb_true_iff, Z.leb_gt. lia.
Qed.

Lemma reply_above_mate (d : nat) (q : Position) :
  (d <= 1)%nat ->
  forallb sane (within d q) = true ->
  isWhite (turn q) = true ->
  isCheckmate q = false ->
  sLt (Fin (-99999)) (fullMinimax evaluatePosition d q true).
Proof.
  intros Hd Hsane Hturn Hmate.
  assert (Hleaf : sLt (Fin (-99999)) (evaluatePosition q)).
  { destruct (sane_facts q (within_head _ _ Hsane)) as (_ & _ & _ & Hev).
    destruct (Hev Hmate) as (z & -> & Hz).
    unfold sLt, slt. simpl. apply negb_true_iff, Z.leb_gt. lia. }
  destruct d as [| [| d]]; [exact Hleaf | | lia].
  cbn [fullMinimax]. destruct (isGameOver q) eqn:Hover; [exact Hleaf |].
  destruct (within_sane _ _ Hsane) as [Hq Hkids].
  destruct (sane_facts q Hq) as (Halt & _ & Hnone & _).
  apply fold_smax_above.
  - intros Hnil. apply map_eq_nil in Hnil.
    rewrite (Hnone Hnil) in Hover. discriminate.
  - apply Forall_map, Forall_forall. intros r Hr.
    apply list_elem_of_In in Hr.
    specialize (Halt r Hr). rewrite Hturn in Halt. cbn [negb] in Halt.
    destruct (isCheckmate (after q r)) eqn:Hm.
    + rewrite (evaluatePosition_mate _ Hm), Halt. reflexivity.
    + destruct (sane_facts _ (within_head _ _ (Hkids r Hr))) as (_ & _ & _ & Hev).
      destruct (Hev Hm) as (z & -> & Hz).
      unfold sLt, slt. simpl. apply negb_true_iff, Z.leb_gt. lia.
Qed.

Lemma mate_value (d : nat) (q : Position) :
  sane q = true -> isCheckmate q = true ->
  forall isMaximizing,
    fullMinimax evaluatePosition d q isMaximizing
      = if isWhite (turn q) then Fin (-99999) else Fin 99999.
Proof.
  intros Hq Hm isMaximizing.
  destruct (sane_facts q Hq) as (_ & Hover & _ & _).
  destruct d; cbn [fullMinimax]; [| rewrite (Hover Hm)];
    apply evaluatePosition_mate; exact Hm.
Qed.

Lemma fold_smax_within (lo hi : Z) (f : Move -> Score) (l : list Move) :
  l <> [] ->
  (forall m, In m l -> exists z, f m = Fin z /\ lo <= z <= hi) ->
  exists z, fold_right smax NegInf (map f l) = Fin z /\ lo <= z <= hi.
Proof.
  induction l as [| x l IH]; intros Hne Hall; [congruence |]. simpl.
  destruct (Hall x (or_introl eq_refl)) as (zx & -> & Hx).
  destruct l as [| y l]; [exists zx; split; [reflexivity | exact Hx] |].
  destruct IH as (zl & -> & Hl);
    [discriminate | intros m Hm; apply Hall; right; exact Hm |].
  unfold smax. simpl. destruct (zx <=? zl); eexists; split;
    try reflexivity; assumption.
Qed.

Lemma fold_smin_within (lo hi : Z) (f : Move -> Score) (l : list Move) :
  l <> [] ->
  (forall m, In m l -> exists z, f m = Fin z /\ lo <= z <= hi) ->
  exists z, fold_right smin PosInf (map f l) = Fin z /\ lo <= z <= hi.
Proof.
  induction l as [| x l IH]; intros Hne Hall; [congruence |]. simpl.
  destruct (Hall x (or_introl eq_refl)) as (zx & -> & Hx).
  destruct l as [| y l]; [exists zx; split; [reflexivity | exact Hx] |].
  destruct IH as (zl & -> & Hl);
    [discriminate | intros m Hm; apply Hall; right; exact Hm |].
  unfold smin. simpl. destruct (zx <=? zl); eexists; split;
    try reflexivity; assumption.
Qed.

(** With sane positions all the way down, no search value lies beyond the
    mate score. *)
Lemma value_within_mate (d : nat) :
  forall (q : Position) (isMaximizing : bool),
    forallb sane (within d q) = true ->
    exists z,
      fullMinimax evaluatePosition d q isMaximizing = Fin z /\
      -99999 <= z <= 99999.
Proof.
  assert (Hleaf : forall q, sane q = true ->
            exists z, evaluatePosition q = Fin z /\ -99999 <= z <= 99999).
  { intros q Hq. destruct (isCheckmate q) eqn:Hm.
    - rewrite (evaluatePosition_mate q Hm).
      destruct (isWhite (turn q)); eexists; split; try reflexivity; lia.
    - destruct (sane_facts q Hq) as (_ & _ & _ & Hev).
      destruct (Hev Hm) as (z & -> & Hz). exists z. split; [reflexivity | lia]. }
  induction d as [| d IH]; intros q isMaximizing Hsane; cbn [fullMinimax].
  - apply Hleaf. exact (within_head _ _ Hsane).
  - destruct (within_sane _ _ Hsane) as [Hq Hkids].
    destruct (isGameOver q) eqn:Hover; [apply Hleaf, Hq |].
    destruct (sane_facts q Hq) as (_ & _ & Hnone & _).
    assert (Hne : moves q <> []).
    { intros Hnil. rewrite (Hnone Hnil) in Hover. discriminate. }
    destruct isMaximizing; cbn [negb];
      [apply fold_smax_within | apply fold_smin_within];
      try exact Hne; intros m Hm; apply IH, Hkids, Hm.
Qed.

(** C7 (amended).  In a position where exactly one legal move checkmates at
    once, [getBestMove] with depth 1 or 2 returns exactly that move,
    provided that in the positions up to two moves ahead moves alternate the
    turn, a checkmate and a position without moves are over, and evaluations
    other than checkmate stay strictly inside the mate score.  At any depth,
    with the same provided for the positions up to [depth] moves ahead, it
    returns the first move of the ranking whose search value - what
    [minimax] returns for it in the loop - is the mate score: no move ranked
    before it has that value. *)
Theorem getBestMove_finds_mate_in_one
    (Hlegal : LegalMovesApply) (Hundo : UndoReverts)
    (fuel : nat) (depth : Z) (chess : Position) (mate : Move) :
  matesAtOnce chess mate ->
  (forall m, matesAtOnce chess m -> m = mate) ->
  1 <= depth -> (Z.to_nat depth <= fuel)%nat ->
  (depth <= 2 ->
   forallb sane (within 2 chess) = true ->
   getBestMove fuel depth chess = Ok (Some mate, chess)) /\
  (forallb sane (within (Z.to_nat depth) chess) = true ->
   let mateScore :=
     if isWhite (turn chess) then Fin 99999 else Fin (-99999) in
   let value m :=
     fullMinimax evaluatePosition (Z.to_nat (depth - 1)) (after chess m)
       (negb (isWhite (turn chess))) in
   exists front m back,
     getBestMove fuel depth chess = Ok (Some m, chess) /\
     ranked chess (moves chess) = (front ++ m :: back)%list /\
     value m = mateScore /\
     (forall m', In m' front -> value m' <> mateScore) /\
     (forall m', In m' (moves chess) ->
        minimax fuel (depth - 1) NegInf PosInf (negb (isWhite (turn chess)))
          (after chess m')
        = Ok (value m', after chess m'))).
Proof.
  intros [Hin Hmate] Huniq Hd Hfuel.
  assert (Hne : moves chess <> []).
  { intros Hnil. rewrite Hnil in Hin. exact Hin. }
  assert (Hranked : forall m, In m (ranked chess (moves chess)) ->
                              In m (moves chess)).
  { intros m Hm.
    eapply Permutation_in; [apply Permutation_sym, ranked_perm | exact Hm]. }
  assert (Hstar : In mate (ranked chess (moves chess))).
  { eapply Permutation_in; [apply ranked_perm | exact Hin]. }
  split.
  - intros Hd2 Hsane.
    rewrite (getBestMove_spec Hlegal Hundo) by (try lia; exact Hne).
    f_equal. f_equal.
    destruct (within_sane _ _ Hsane) as [Hroot Hkids].
    destruct (sane_facts chess Hroot) as (Halt & _ & _ & _).
    assert (Hd1 : (Z.to_nat (depth - 1) <= 1)%nat) by lia.
    assert (Hkid : forall m, In m (moves chess) ->
              forallb sane (within (Z.to_nat (depth - 1)) (after chess m))
              = true).
    { intros m Hm. specialize (Hkids m Hm).
      destruct (Z.to_nat (depth - 1)) as [| [| d]]; [| exact Hkids | lia].
      cbn [within forallb]. rewrite (within_head _ _ Hkids). reflexivity. }
    assert (Hother : forall m, In m (moves chess) -> m <> mate ->
              isCheckmate (after chess m) = false).
    { intros m Hm Hnm.
      destruct (isCheckmate (after chess m)) eqn:Hc; [| reflexivity].
      exfalso. apply Hnm, Huniq. split; assumption. }
    destruct (isWhite (turn chess)) eqn:Hturn; cbn [negb].
    + apply pickBest_max_unique with (top := Fin 99999).
      * intros m Hm Hnm. apply Hranked in Hm.
        apply reply_below_mate;
          [exact Hd1 | apply Hkid, Hm | | apply Hother; assumption].
        rewrite (Halt m Hm). reflexivity.
      * rewrite (mate_value _ _ (within_head _ _ (Hkid mate Hin)) Hmate).
        rewrite (Halt mate Hin). reflexivity.
      * left. split; [exact Hstar | reflexivity].
    + apply pickBest_min_unique with (bottom := Fin (-99999)).
      * intros m Hm Hnm. apply Hranked in Hm.
        apply reply_above_mate;
          [exact Hd1 | apply Hkid, Hm | | apply Hother; assumption].
        rewrite (Halt m Hm). reflexivity.
      * rewrite (mate_value _ _ (within_head _ _ (Hkid mate Hin)) Hmate).
        rewrite (Halt mate Hin). reflexivity.
      * left. split; [exact Hstar | reflexivity].
  - intros Hsane. cbv zeta.
    rewrite (getBestMove_spec Hlegal Hundo fuel depth chess Hd Hfuel Hne).
    assert (Hdepth : Z.to_nat depth = S (Z.to_nat (depth - 1))) by lia.
    rewrite Hdepth in Hsane.
    destruct (within_sane _ _ Hsane) as [Hroot Hkids].
    destruct (sane_facts chess Hroot) as (Halt & _ & _ & _).
    assert (Hr : ranked chess (moves chess) <> []).
    { intros Hnil. rewrite Hnil in Hstar. exact Hstar. }
    assert (Hsearch : forall m', In m' (moves chess) ->
              minimax fuel (depth - 1) NegInf PosInf
                (negb (isWhite (turn chess))) (after chess m')
              = Ok (fullMinimax evaluatePosition (Z.to_nat (depth - 1))
                      (after chess m') (negb (isWhite (turn chess))),
                    after chess m')).
    { intros m' _. apply (minimaxWith_full Hlegal Hundo);
        [apply (orderIfMany_reorders Hlegal Hundo) | lia | lia]. }
    assert (Hmatev :
              fullMinimax evaluatePosition (Z.to_nat (depth - 1))
                (after chess mate) (negb (isWhite (turn chess)))
              = if isWhite (turn chess) then Fin 99999 else Fin (-99999)).
    { rewrite (mate_value _ _ (within_head _ _ (Hkids mate Hin)) Hmate).
      rewrite (Halt mate Hin). destruct (isWhite (turn chess)); reflexivity. }
    destruct (isWhite (turn chess)) eqn:Hturn; cbn [negb] in *.
    + destruct (pickBest_max_seeded
                  (fun m => fullMinimax evaluatePosition
                              (Z.to_nat (depth - 1)) (after chess m) false)
                  (ranked chess (moves chess)) Hr)
        as (front & m & back & Hms & Hpick & Hall & Hfront).
      exists front, m, back. rewrite Hpick.
      assert (Hm : In m (moves chess)).
      { apply Hranked. rewrite Hms. apply in_or_app. right. left.
        reflexivity. }
      assert (Hval : fullMinimax evaluatePosition (Z.to_nat (depth - 1))
                       (after chess m) false = Fin 99999).
      { pose proof (Hall mate Hstar) as Hge. cbv beta in Hge.
        rewrite Hmatev in Hge.
        destruct (value_within_mate _ (after chess m) false (Hkids m Hm))
          as (z & Hz & Hb).
        rewrite Hz in Hge |- *. unfold sLe in Hge. simpl in Hge.
        apply Z.leb_le in Hge. f_equal. lia. }
      split; [reflexivity |]. split; [exact Hms |]. split; [exact Hval |].
      split; [| exact Hsearch].
      intros m' Hm' Heq. specialize (Hfront m' Hm'). cbv beta in Hfront.
      rewrite Hval, Heq in Hfront. unfold sLt, slt in Hfront.
      rewrite sle_refl in Hfront. discriminate.
    + destruct (pickBest_min_seeded
                  (fun m => fullMinimax evaluatePosition
                              (Z.to_nat (depth - 1)) (after chess m) true)
                  (ranked chess (moves chess)) Hr)
        as (front & m & back & Hms & Hpick & Hall & Hfront).
      exists front, m, back. rewrite Hpick.
      assert (Hm : In m (moves chess)).
      { apply Hranked. rewrite Hms. apply in_or_app. right. left.
        reflexivity. }
      assert (Hval : fullMinimax evaluatePosition (Z.to_nat (depth - 1))
                       (after chess m) true = Fin (-99999)).
      { pose proof (Hall mate Hstar) as Hge. cbv beta in Hge.
        rewrite Hmatev in Hge.
        destruct (value_within_mate _ (after chess m) true (Hkids m Hm))
          as (z & Hz & Hb).
        rewrite Hz in Hge |- *. unfold sLe in Hge. simpl in Hge.
        apply Z.leb_le in Hge. f_equal. lia. }
      split; [reflexivity |]. split; [exact Hms |]. split; [exact Hval |].
      split; [| exact Hsearch].
      intros m' Hm' Heq. specialize (Hfront m' Hm'). cbv beta in Hfront.
      rewrite Hval, Heq in Hfront. unfold sLt, slt in Hfront.
      rewrite sle_refl in Hfront. discriminate.
Qed.

End BestMove.

(** ** The evaluator *)

Lemma fold_left_add_sum {A : Type} (f : A -> Z) (l : list A) (a : Z) :
  fold_left (fun acc x => acc + f x) l a = a + sumZ (map f l).
Proof.
  revert a. induction l as [| x l IH]; intros a; simpl.
  - lia.
  - rewrite IH. lia.
Qed.

Lemma sumZ_app (l l' : list Z) : sumZ (l ++ l') = sumZ l + sumZ l'.
Proof.
  induction l as [| x l IH]; simpl; [reflexivity | rewrite IH; lia].
Qed.

Lemma double_loop_sum (g : nat -> nat -> Z) (cols rows : list nat) (a : Z) :
  fold_left
    (fun score row => fold_left (fun score col => score + g row col) cols score)
    rows a
  = a + sumZ (map (fun rc => g (fst rc) (snd rc)) (list_prod rows cols)).
Proof.
  revert a. induction rows as [| r rows IH]; intros a; simpl.
  - lia.
  - rewrite IH, fold_left_add_sum, map_app, sumZ_app, map_map. simpl.
    rewrite <- Z.add_assoc. reflexivity.
Qed.

Lemma boardScore_sum (b : Board) :
  boardScore b = sumZ (map (fun rc => squareValue b (fst rc) (snd rc)) squares).
Proof. unfold boardScore, squares. rewrite double_loop_sum. lia. Qed.

Lemma allSquareContents_complete (sq : option Piece) : In sq allSquareContents.
Proof. destruct sq as [[[] []] |]; simpl; tauto. Qed.

Lemma squares_bounded : forallb squareBounded squares = true.
Proof. vm_compute. reflexivity. Qed.

Lemma pieceValue_bounds (sq : option Piece) (rc : nat * nat) :
  In rc squares ->
  squareLower sq <= pieceValue sq (fst rc) (snd rc) <= squareUpper sq.
Proof.
  intros Hrc. pose proof squares_bounded as H.
  rewrite forallb_forall in H. specialize (H rc Hrc).
  unfold squareBounded in H. rewrite forallb_forall in H.
  specialize (H sq (allSquareContents_complete sq)).
  apply andb_true_iff in H. destruct H as [H1 H2].
  apply Z.leb_le in H1. apply Z.leb_le in H2. lia.
Qed.

Lemma board_sum_bounds (b : Board) (l : list (nat * nat)) :
  (forall rc, In rc l -> In rc squares) ->
  let wk := Z.of_nat (length (List.filter
              (fun rc => isKingOf White (pieceAt b (fst rc) (snd rc))) l)) in
  let bk := Z.of_nat (length (List.filter
              (fun rc => isKingOf Black (pieceAt b (fst rc) (snd rc))) l)) in
  let total := sumZ (map (fun rc => squareValue b (fst rc) (snd rc)) l) in
  - 905 * Z.of_nat (length l) + 20855 * wk - 19125 * bk <= total /\
  total <= 905 * Z.of_nat (length l) + 19125 * wk - 20855 * bk.
Proof.
  induction l as [| rc l IH]; intros Hin; cbn zeta.
  - simpl. lia.
  - specialize (IH (fun rc' H => Hin rc' (or_intror H))). cbn zeta in IH.
    pose proof (pieceValue_bounds (pieceAt b (fst rc) (snd rc)) rc
                  (Hin rc (or_introl eq_refl))) as Hsq.
    unfold squareLower, squareUpper in Hsq.
    cbn [List.filter map sumZ fold_right length].
    fold (sumZ (map (fun rc => squareValue b (fst rc) (snd rc)) l)).
    unfold squareValue at 1 3.
    destruct (isKingOf White (pieceAt b (fst rc) (snd rc))),
             (isKingOf Black (pieceAt b (fst rc) (snd rc)));
      cbn [length]; lia.
Qed.

Lemma mobilityScore_bounds (Position : Type) (E : RulesEngine Position)
    (chess : Position) :
  Z.abs (mobilityScore chess) <= 2 * Z.of_nat (length (moves chess)).
Proof. unfold mobilityScore. destruct (turn chess); lia. Qed.

Section Evaluator.

Context {Position : Type} {E : RulesEngine Position}.

(** C2.  On a checkmate [evaluatePosition] returns the sentinel against the
    side to move, -99999 with White to move and 99999 with Black to move; on
    a draw, a stalemate included, it returns 0.  Both answers are given
    before the summation: two terminal positions with the same
    classification and side to move get the same value, whatever their
    boards and moves. *)
Theorem evaluatePosition_terminal (chess : Position) :
  (isCheckmate chess = true ->
   evaluatePosition chess =
     match turn chess with White => Fin (-99999) | Black => Fin 99999 end) /\
  (isCheckmate chess = false -> isDraw chess = true ->
   evaluatePosition chess = Fin 0) /\
  (StalemateIsDraw -> isStalemate chess = true ->
   evaluatePosition chess = Fin 0) /\
  (isCheckmate chess = true \/ isDraw chess = true ->
   forall chess' : Position,
     isCheckmate chess' = isCheckmate chess ->
     isDraw chess' = isDraw chess ->
     turn chess' = turn chess ->
     evaluatePosition chess' = evaluatePosition chess).
Proof.
  unfold evaluatePosition. split; [| split; [| split]].
  - intros ->. reflexivity.
  - intros -> ->. reflexivity.
  - intros Hs H. destruct (Hs chess H) as [-> ->]. reflexivity.
  - intros Hterm chess' -> -> ->.
    destruct (isCheckmate chess); [reflexivity |].
    destruct Hterm as [Hterm | ->]; [discriminate | reflexivity].
Qed.

(** C8.  In a legal position - one king a side, no more moves than a chess
    position can have - that is neither checkmate nor a draw, the value of
    [evaluatePosition] is the sum of material, piece-square and mobility
    terms, and its absolute value is below the mate score 99999. *)
Theorem ordinary_evaluation_below_mate (chess : Position) :
  legalPosition chess ->
  isCheckmate chess = false -> isDraw chess = false ->
  evaluatePosition chess = Fin (ordinaryScore chess) /\
  Z.abs (ordinaryScore chess) < 99999.
Proof.
  intros (Hwk & Hbk & Hmob) Hmate Hdraw. split.
  - unfold evaluatePosition. rewrite Hmate, Hdraw. reflexivity.
  - unfold ordinaryScore.
    pose proof (mobilityScore_bounds _ _ chess) as Hm.
    pose proof (board_sum_bounds (board chess) squares (fun rc H => H)) as Hb.
    cbn zeta in Hb. unfold countKings in Hwk, Hbk.
    rewrite Hwk, Hbk in Hb. rewrite <- boardScore_sum in Hb.
    change (length squares) with 64%nat in Hb.
    lia.
Qed.

End Evaluator.

Section Handler.

Context {Position : Type} {E : RulesEngine Position}.

(** ** The tool-call handler *)

Lemma clampDepth_le (ceiling : Z) (d : option Z) : clampDepth ceiling d <= ceiling.
Proof. unfold clampDepth. lia. Qed.

(** C9.  Whatever depth the caller of get_best_move asks for, the depth the
    handler passes to [getBestMove] is the requested one (3 when missing or
    0) cut to the ceiling: never above 3 in the handler of the first copy,
    never above 4 in that of the second. *)
Theorem get_best_move_depth_clamped (fuel : nat) (args : ToolArgs)
    (games : gmap string Position) (chess : Position) :
  games !! arg_game_id args = Some chess ->
  (exists depth,
     depth = Z.min (depthOrDefault (arg_depth args)) 3 /\ depth <= 3 /\
     callTool fuel "get_best_move" args games =
       match getBestMove fuel depth chess with
       | Ok (bestMove, chess') =>
           Ok ({| text := bestMoveText bestMove; isError := false |},
               <[arg_game_id args := chess']> games)
       | Throw => Throw
       | OutOfFuel => OutOfFuel
       end) /\
  (exists depth,
     depth = Z.min (depthOrDefault (arg_depth args)) 4 /\ depth <= 4 /\
     Simple.callTool fuel "get_best_move" args games =
       match Simple.getBestMove fuel depth chess with
       | Ok (bestMove, chess') =>
           Ok ({| text := bestMoveText bestMove; isError := false |},
               <[arg_game_id args := chess']> games)
       | Throw => Throw
       | OutOfFuel => OutOfFuel
       end).
Proof.
  intros Hgame. split.
  - exists (clampDepth 3 (arg_depth args)).
    split; [reflexivity | split; [apply clampDepth_le |]].
    unfold callTool, callToolWith. cbn [String.eqb Ascii.eqb Bool.eqb].
    rewrite Hgame. reflexivity.
  - exists (clampDepth 4 (arg_depth args)).
    split; [reflexivity | split; [apply clampDepth_le |]].
    unfold Simple.callTool, callToolWith. cbn [String.eqb Ascii.eqb Bool.eqb].
    rewrite Hgame. reflexivity.
Qed.

(** C10.  A call of get_legal_moves, make_move, get_best_move or get_board
    for a game id that is not in the games map returns the error result
    'Game not found' and leaves the map, and so every stored position, as it
    was; a call of a tool that does not exist returns the error result
    'Unknown tool: <name>' and leaves the map as it was. *)
Theorem unknown_game_or_tool_is_error (fuel : nat) (args : ToolArgs)
    (games : gmap string Position) :
  (games !! arg_game_id args = None ->
   forall name,
     In name ["get_legal_moves"; "make_move"; "get_best_move"; "get_board"] ->
     callTool fuel name args games =
       Ok ({| text := "Game not found"; isError := true |}, games)) /\
  (forall name,
     ~ In name ["new_game"; "get_legal_moves"; "make_move"; "get_best_move";
                "get_board"] ->
     callTool fuel name args games =
       Ok ({| text := "Unknown tool: " ++ name; isError := true |}, games)).
Proof.
  split.
  - intros Hnone name Hname. unfold callTool, callToolWith.
    simpl in Hname.
    destruct Hname as [<- | [<- | [<- | [<- | []]]]];
      cbn [String.eqb Ascii.eqb Bool.eqb]; rewrite Hnone; reflexivity.
  - intros name Hname. unfold callTool, callToolWith.
    repeat match goal with
    | |- context [String.eqb name ?s] =>
        destruct (String.eqb_spec name s) as [-> | _];
        [exfalso; apply Hname; simpl; tauto |]
    end.
    reflexivity.
Qed.

End Handler.

(** ** The model at work on small inputs *)

Example getPST_white_pawn_seventh_rank :
  getPST (mkPiece Pawn White) 1 0 = 50.
Proof. reflexivity. Qed.

Example getPST_black_pawn_is_mirrored :
  getPST (mkPiece Pawn Black) 6 0 = 50.
Proof. reflexivity. Qed.

Example scoreMove_pawn_takes_queen :
  scoreMove (GameTree.capture Pawn Queen "exd5") false = 8900.
Proof. reflexivity. Qed.

Example scoreMove_queen_promotion_with_check :
  scoreMove {| piece := Pawn; captured := None; promotion := Some Queen;
               san := "e8=Q+" |} true = 950.
Proof. reflexivity. Qed.

Example sortScored_is_stable :
  sortScored [("a", 0); ("b", 50); ("c", 0); ("d", 50)]
  = [("b", 50); ("d", 50); ("a", 0); ("c", 0)].
Proof. reflexivity. Qed.

Example clampDepth_examples :
  clampDepth 3 (Some 10) = 3 /\ clampDepth 3 (Some 2) = 2 /\
  clampDepth 3 None = 3 /\ clampDepth 3 (Some 0) = 3 /\
  clampDepth 4 (Some 10) = 4.
Proof. repeat split. Qed.

Example evaluatePosition_rooks :
  evaluatePosition (E := GameTree.engine GameTree.rooks)
    (GameTree.at_root GameTree.rooks) = Fin 789.
Proof. vm_compute. reflexivity. Qed.

Example new_game_then_get_legal_moves :
  match callTool (E := GameTree.engine GameTree.rooks) 0 "new_game"
          {| arg_game_id := "g"; arg_move := ""; arg_depth := None |} ∅ with
  | Ok (_, games) =>
      callTool (E := GameTree.engine GameTree.rooks) 0 "get_legal_moves"
        {| arg_game_id := "g"; arg_move := ""; arg_depth := None |} games
      = Ok ({| text := "Ra8#, Rxh1+"; isError := false |}, games)
  | _ => False
  end.
Proof. vm_compute. reflexivity. Qed.

(** ** The claims on concrete games *)

Lemma tree_stalemate_is_draw (t : GameTree.Tree) :
  @StalemateIsDraw _ (GameTree.engine t).
Proof.
  intros chess H. simpl in *. unfold GameTree.stale, GameTree.mate in *.
  rewrite H. split; [reflexivity |].
  apply andb_true_iff in H. destruct H as [H _].
  apply negb_true_iff in H. rewrite H. reflexivity.
Qed.

Lemma reversed_reorders (Position : Type) (E : RulesEngine Position) :
  Reorders (reversed (Position := Position)).
Proof.
  intros chess ms _. exists (rev ms). split; [reflexivity |].
  apply Permutation_rev.
Qed.

(** The search of the game [cutoff] from its root, depth 2, returns the
    value 0 of the full tree. *)
Lemma minimax_full_window_witness :
  minimax (E := GameTree.engine GameTree.cutoff) 3 2 NegInf PosInf true
    (GameTree.at_root GameTree.cutoff)
  = Ok (Fin 0, GameTree.at_root GameTree.cutoff).
Proof.
  apply (minimax_full_window_is_full_minimax
           (tree_moves_apply GameTree.cutoff)
           (tree_undo_reverts GameTree.cutoff)
           3 2 true (GameTree.at_root GameTree.cutoff)).
  - lia.
  - simpl. lia.
Defined.

(** C1 as stated fails inside that search.  After the draw [a] the root
    holds alpha = 0 and searches [b] with the window (0, +inf): that call
    stops after [b1] and returns -103, while the full minimax value of [b]
    is -893.  The value returned is an upper bound, not the value of the
    subtree. *)
Lemma minimax_cutoff_returns_bound :
  let chess :=
    GameTree.mkPos GameTree.cutoffB [GameTree.cutoff] in
  minimax (E := GameTree.engine GameTree.cutoff) 2 1 (Fin 0) PosInf false chess
    = Ok (Fin (-103), chess) /\
  fullMinimax (E := GameTree.engine GameTree.cutoff)
    (evaluatePosition (E := GameTree.engine GameTree.cutoff)) 1 chess false
    = Fin (-893) /\
  Fin (-103) <> Fin (-893).
Proof.
  cbv zeta. split; [vm_compute; reflexivity |].
  split; [vm_compute; reflexivity | discriminate].
Qed.

(** [getBestMove] on the game [rooks], depth 3, returns in the position it
    was called in. *)
Lemma search_restores_position_witness :
  exists r,
    getBestMove (E := GameTree.engine GameTree.rooks) 3 3
      (GameTree.at_root GameTree.rooks)
    = Ok (r, GameTree.at_root GameTree.rooks).
Proof.
  destruct (search_restores_position (tree_undo_reverts GameTree.rooks))
    as (_ & _ & _ & H).
  destruct (H (tree_moves_apply GameTree.rooks)) as (_ & _ & H3).
  apply H3.
  - lia.
  - simpl. lia.
Defined.

(** Exploring the moves of [cutoff] in reverse order gives the same value. *)
Lemma move_order_keeps_value_witness :
  exists v,
    minimaxWith (E := GameTree.engine GameTree.cutoff)
      (evaluatePosition (E := GameTree.engine GameTree.cutoff))
      reversed 3 2 NegInf PosInf true (GameTree.at_root GameTree.cutoff)
      = Ok (v, GameTree.at_root GameTree.cutoff) /\
    minimax (E := GameTree.engine GameTree.cutoff) 3 2 NegInf PosInf true
      (GameTree.at_root GameTree.cutoff)
      = Ok (v, GameTree.at_root GameTree.cutoff).
Proof.
  apply (move_order_keeps_value
           (tree_moves_apply GameTree.cutoff)
           (tree_undo_reverts GameTree.cutoff)
           reversed (reversed_reorders _ _)
           3 2 true (GameTree.at_root GameTree.cutoff)).
  - lia.
  - simpl. lia.
Defined.

(** From the start of the game [rooks], depth 2, [getBestMove] returns a
    legal move. *)
Lemma getBestMove_null_iff_no_moves_witness :
  exists m,
    getBestMove (E := GameTree.engine GameTree.rooks) 2 2
      (newChess (RulesEngine := GameTree.engine GameTree.rooks))
    = Ok (Some m, newChess (RulesEngine := GameTree.engine GameTree.rooks)) /\
    In m (moves (RulesEngine := GameTree.engine GameTree.rooks)
            (newChess (RulesEngine := GameTree.engine GameTree.rooks))).
Proof.
  destruct (getBestMove_null_iff_no_moves
              (tree_undo_reverts GameTree.rooks)) as (_ & _ & _ & H).
  apply H.
  - apply tree_moves_apply.
  - simpl. discriminate.
  - lia.
Defined.

(** In the game [pawnTakesQueen] the capture exd5 is ranked first. *)
Lemma orderMoves_sorted_permutation_witness :
  exists rest,
    orderMoves (E := GameTree.engine GameTree.pawnTakesQueen)
      ["Kd1"; "e5"; "exd5"; "Kf1"]
      (GameTree.at_root GameTree.pawnTakesQueen)
    = Ok ("exd5" :: rest, GameTree.at_root GameTree.pawnTakesQueen).
Proof.
  destruct (orderMoves_sorted_permutation
              (tree_moves_apply GameTree.pawnTakesQueen)
              (tree_undo_reverts GameTree.pawnTakesQueen)
              (GameTree.at_root GameTree.pawnTakesQueen)
              ["Kd1"; "e5"; "exd5"; "Kf1"]
              (fun m H => H))
    as (r & Hr & _ & _ & _ & Hfirst).
  destruct (Hfirst ["Kd1"; "e5"] "exd5" ["Kf1"] eq_refl) as (rest & ->).
  - eexists. eexists. split; [reflexivity |]. split; reflexivity.
  - intros m' Hm'. simpl in Hm'.
    destruct Hm' as [<- | [<- | [<- | []]]];
      (eexists; eexists; split; [reflexivity |]; split;
       [reflexivity | discriminate]).
  - exists rest. exact Hr.
Defined.

Lemma rooks_single_mate :
  matesAtOnce (E := GameTree.engine GameTree.rooks)
    (GameTree.at_root GameTree.rooks) "Ra8#" /\
  (forall m,
     matesAtOnce (E := GameTree.engine GameTree.rooks)
       (GameTree.at_root GameTree.rooks) m -> m = "Ra8#").
Proof.
  split.
  - split; [left; reflexivity | reflexivity].
  - intros m [Hin Hmate]. simpl in Hin.
    destruct Hin as [<- | [<- | []]]; [reflexivity | discriminate Hmate].
Qed.

(** In the game [rooks] the search of depth 2 returns the mate in one, and
    the search of depth 3 a move whose search value is the mate score. *)
Lemma getBestMove_finds_mate_in_one_witness :
  getBestMove (E := GameTree.engine GameTree.rooks) 2 2
    (GameTree.at_root GameTree.rooks)
  = Ok (Some "Ra8#", GameTree.at_root GameTree.rooks) /\
  exists front m back,
    getBestMove (E := GameTree.engine GameTree.rooks) 3 3
      (GameTree.at_root GameTree.rooks)
    = Ok (Some m, GameTree.at_root GameTree.rooks) /\
    ranked (E := GameTree.engine GameTree.rooks)
      (GameTree.at_root GameTree.rooks) ["Ra8#"; "Rxh1+"]
    = (front ++ m :: back)%list /\
    fullMinimax (E := GameTree.engine GameTree.rooks)
      (evaluatePosition (E := GameTree.engine GameTree.rooks)) 2
      (after (E := GameTree.engine GameTree.rooks)
         (GameTree.at_root GameTree.rooks) m) false
    = Fin 99999.
Proof.
  split.
  - destruct (getBestMove_finds_mate_in_one
                (tree_moves_apply GameTree.rooks)
                (tree_undo_reverts GameTree.rooks)
                2 2 (GameTree.at_root GameTree.rooks) "Ra8#"
                (proj1 rooks_single_mate) (proj2 rooks_single_mate))
      as [H _].
    + lia.
    + simpl. lia.
    + apply H; [lia | vm_compute; reflexivity].
  - destruct (getBestMove_finds_mate_in_one
                (tree_moves_apply GameTree.rooks)
                (tree_undo_reverts GameTree.rooks)
                3 3 (GameTree.at_root GameTree.rooks) "Ra8#"
                (proj1 rooks_single_mate) (proj2 rooks_single_mate))
      as [_ H].
    + lia.
    + simpl. lia.
    + destruct H as (front & m & back & H1 & H2 & H3 & _).
      * vm_compute. reflexivity.
      * exists front, m, back.
        split; [exact H1 |]. split; [exact H2 | exact H3].
Defined.

(** C7 as stated fails at depth 3.  In the game [rooks] Ra8 is the only
    move that mates at once and the positions up to three moves ahead are
    sane, yet [getBestMove] returns Rxh1+: as a capture with check it is
    ranked first, the search finds the mate two moves later behind it, and
    the equal score of Ra8 does not displace it. *)
Lemma getBestMove_depth_3_misses_mate_in_one :
  matesAtOnce (E := GameTree.engine GameTree.rooks)
    (GameTree.at_root GameTree.rooks) "Ra8#" /\
  (forall m,
     matesAtOnce (E := GameTree.engine GameTree.rooks)
       (GameTree.at_root GameTree.rooks) m -> m = "Ra8#") /\
  forallb (sane (E := GameTree.engine GameTree.rooks))
    (within (E := GameTree.engine GameTree.rooks) 3
       (GameTree.at_root GameTree.rooks)) = true /\
  getBestMove (E := GameTree.engine GameTree.rooks) 3 3
    (GameTree.at_root GameTree.rooks)
  = Ok (Some "Rxh1+", GameTree.at_root GameTree.rooks) /\
  "Rxh1+" <> "Ra8#".
Proof.
  split; [apply rooks_single_mate |].
  split; [apply rooks_single_mate |].
  split; [vm_compute; reflexivity |].
  split; [vm_compute; reflexivity | discriminate].
Qed.

(** The evaluator on a checkmate of Black and on a stalemate. *)
Lemma evaluatePosition_terminal_witness :
  evaluatePosition (E := GameTree.engine GameTree.rooks)
    (GameTree.at_root GameTree.rooksMate1) = Fin 99999 /\
  evaluatePosition (E := GameTree.engine GameTree.stalemate)
    (GameTree.at_root GameTree.stalemate) = Fin 0.
Proof.
  split.
  - destruct (evaluatePosition_terminal (E := GameTree.engine GameTree.rooks)
                (GameTree.at_root GameTree.rooksMate1)) as (H & _).
    apply H. reflexivity.
  - destruct (evaluatePosition_terminal
                (E := GameTree.engine GameTree.stalemate)
                (GameTree.at_root GameTree.stalemate)) as (_ & _ & H & _).
    apply H.
    + apply tree_stalemate_is_draw.
    + reflexivity.
Defined.

(** The root of [rooks] is a legal position with an ordinary evaluation. *)
Lemma ordinary_evaluation_below_mate_witness :
  evaluatePosition (E := GameTree.engine GameTree.rooks)
    (GameTree.at_root GameTree.rooks) = Fin 789 /\
  Z.abs 789 < 99999.
Proof.
  apply (ordinary_evaluation_below_mate (E := GameTree.engine GameTree.rooks)
           (GameTree.at_root GameTree.rooks)).
  - split; [vm_compute; reflexivity |].
    split; [vm_compute; reflexivity |]. simpl. lia.
  - reflexivity.
  - reflexivity.
Defined.

(** A request for depth 10 on a stored game is searched at depth 3. *)
Lemma get_best_move_depth_clamped_witness :
  exists depth,
    depth = 3 /\ depth <= 3 /\
    callTool (E := GameTree.engine GameTree.rooks) 3 "get_best_move"
      {| arg_game_id := "g"; arg_move := ""; arg_depth := Some 10 |}
      {[ "g" := GameTree.at_root GameTree.rooks ]}
    = match getBestMove (E := GameTree.engine GameTree.rooks) 3 depth
              (GameTree.at_root GameTree.rooks) with
      | Ok (bestMove, chess') =>
          Ok ({| text := bestMoveText bestMove; isError := false |},
              <[ "g" := chess' ]> {[ "g" := GameTree.at_root GameTree.rooks ]})
      | Throw => Throw
      | OutOfFuel => OutOfFuel
      end.
Proof.
  destruct (get_best_move_depth_clamped (E := GameTree.engine GameTree.rooks)
              3
              {| arg_game_id := "g"; arg_move := ""; arg_depth := Some 10 |}
              {[ "g" := GameTree.at_root GameTree.rooks ]}
              (GameTree.at_root GameTree.rooks)
              (lookup_singleton_eq _ _)) as [H _].
  exact H.
Defined.

(** get_board for a game that was never created. *)
Lemma unknown_game_or_tool_is_error_witness :
  callTool (E := GameTree.engine GameTree.rooks) 0 "get_board"
    {| arg_game_id := "nope"; arg_move := ""; arg_depth := None |} ∅
  = Ok ({| text := "Game not found"; isError := true |}, ∅).
Proof.
  apply (unknown_game_or_tool_is_error (E := GameTree.engine GameTree.rooks)
           0 {| arg_game_id := "nope"; arg_move := ""; arg_depth := None |} ∅).
  - apply lookup_empty.
  - simpl. tauto.
Defined.

(** * Further properties *)

(** ** The evaluator is colour-symmetric *)

Lemma sumZ_map_ext_in {A : Type} (f g : A -> Z) (l : list A) :
  (forall x, In x l -> f x = g x) -> sumZ (map f l) = sumZ (map g l).
Proof. intros H. rewrite (List.map_ext_in f g l H). reflexivity. Qed.

Lemma sumZ_map_opp {A : Type} (f : A -> Z) (l : list A) :
  sumZ (map (fun x => - f x) l) = - sumZ (map f l).
Proof. induction l as [| x l IH]; simpl; [reflexivity | rewrite IH; lia]. Qed.

Lemma squares_rows (rc : nat * nat) :
  In rc squares -> (fst rc < 8)%nat /\ (snd rc < 8)%nat.
Proof.
  destruct rc as [r c]. unfold squares. rewrite in_prod_iff, !in_seq.
  simpl. lia.
Qed.

Lemma sum_rows_reversed (g : nat -> nat -> Z) :
  sumZ (map (fun rc => g (7 - fst rc)%nat (snd rc)) squares)
  = sumZ (map (fun rc => g (fst rc) (snd rc)) squares).
Proof.
  unfold squares.
  cbn [list_prod seq map app sumZ fold_right fst snd Nat.sub].
  lia.
Qed.

Lemma pieceAt_mirror (b : Board) (row col : nat) :
  length b = 8%nat -> (row < 8)%nat ->
  pieceAt (mirrorBoard b) row col
  = option_map swapColor (pieceAt b (7 - row) col).
Proof.
  intros Hlen Hrow. unfold pieceAt, mirrorBoard.
  change (@nil (option Piece)) with (map (option_map swapColor) []) at 1.
  rewrite List.map_nth, List.rev_nth by lia.
  rewrite Hlen. replace (8 - S row)%nat with (7 - row)%nat by lia.
  change (@None Piece) with (option_map swapColor None) at 1.
  rewrite List.map_nth. reflexivity.
Qed.

Lemma pieceValue_swap (sq : option Piece) (row col : nat) :
  (row < 8)%nat ->
  pieceValue (option_map swapColor sq) row col
  = - pieceValue sq (7 - row) col.
Proof.
  intros Hrow. destruct sq as [[t c] |]; [| reflexivity].
  unfold pieceValue, getPST, swapColor. simpl.
  destruct c; simpl.
  - reflexivity.
  - replace (7 - (7 - row))%nat with row by lia. lia.
Qed.

Lemma boardScore_mirror (b : Board) :
  length b = 8%nat -> boardScore (mirrorBoard b) = - boardScore b.
Proof.
  intros Hlen. rewrite !boardScore_sum.
  rewrite <- sumZ_map_opp.
  rewrite <- (sum_rows_reversed (fun r c => - squareValue b r c)).
  apply sumZ_map_ext_in. intros rc Hrc.
  destruct (squares_rows rc Hrc) as [Hr _].
  unfold squareValue.
  rewrite pieceAt_mirror by assumption.
  apply pieceValue_swap. exact Hr.
Qed.

Section EvaluatorMore.

Context {Position : Type} {E : RulesEngine Position}.

(** X1.  The evaluator treats the colours alike: a position whose board is
    the mirror image of another (ranks reversed, colours swapped), with the
    other side to move, as many legal moves and the same terminal
    classification, gets the negated value. *)
Theorem evaluatePosition_mirror (chess chess' : Position) :
  length (board chess) = 8%nat ->
  board chess' = mirrorBoard (board chess) ->
  isWhite (turn chess') = negb (isWhite (turn chess)) ->
  length (moves chess') = length (moves chess) ->
  isCheckmate chess' = isCheckmate chess ->
  isDraw chess' = isDraw chess ->
  evaluatePosition chess' = negScore (evaluatePosition chess).
Proof.
  intros Hlen Hboard Hturn Hmoves Hmate Hdraw.
  unfold evaluatePosition, ordinaryScore, mobilityScore.
  rewrite Hmate, Hdraw, Hboard, Hmoves, (boardScore_mirror _ Hlen).
  destruct (isCheckmate chess), (isDraw chess),
    (turn chess), (turn chess'); simpl in *;
    try discriminate; try reflexivity; f_equal; lia.
Qed.

Lemma squares_floor : forallb pieceFloor squares = true.
Proof. vm_compute. reflexivity. Qed.

Lemma squares_NoDup : List.NoDup squares.
Proof.
  apply NoDup_ListNoDup. apply (bool_decide_unpack _). vm_compute. reflexivity.
Qed.

Lemma sumZ_update (f f' : nat * nat -> Z) (l : list (nat * nat))
    (rc0 : nat * nat) :
  List.NoDup l -> In rc0 l ->
  (forall rc, In rc l -> rc <> rc0 -> f' rc = f rc) ->
  sumZ (map f' l) = sumZ (map f l) + (f' rc0 - f rc0).
Proof.
  induction l as [| rc l IH]; intros Hnd Hin Hsame; [contradiction |].
  inversion Hnd as [| ? ? Hnotin Hnd']; subst. simpl.
  destruct Hin as [-> | Hin].
  - rewrite (sumZ_map_ext_in f' f l); [lia |].
    intros x Hx. apply Hsame; [right; exact Hx |].
    intros ->. contradiction.
  - rewrite IH; [| exact Hnd' | exact Hin
                 | intros x Hx; apply Hsame; right; exact Hx].
    rewrite Hsame; [lia | left; reflexivity |].
    intros ->. contradiction.
Qed.

(** X2.  Material outweighs position.  On any square a white piece counts
    for at least 80 and a black piece for at most -80, so putting a piece on
    an empty square of the board moves the board score by the value of
    that piece on that square, towards its own colour. *)
Theorem boardScore_add_piece (b b' : Board) (row col : nat) (pc : Piece) :
  (row < 8)%nat -> (col < 8)%nat ->
  pieceAt b row col = None ->
  pieceAt b' row col = Some pc ->
  (forall r c, (r < 8)%nat -> (c < 8)%nat -> (r, c) <> (row, col) ->
     pieceAt b' r c = pieceAt b r c) ->
  boardScore b' = boardScore b + pieceValue (Some pc) row col /\
  (color pc = White -> boardScore b + 80 <= boardScore b') /\
  (color pc = Black -> boardScore b' <= boardScore b - 80).
Proof.
  intros Hrow Hcol Hempty Hfull Hrest.
  assert (Hin : In (row, col) squares).
  { unfold squares. rewrite in_prod_iff, !in_seq. lia. }
  assert (Hsum : boardScore b' = boardScore b + pieceValue (Some pc) row col).
  { rewrite !boardScore_sum.
    rewrite (sumZ_update (fun rc => squareValue b (fst rc) (snd rc))
               (fun rc => squareValue b' (fst rc) (snd rc)) squares (row, col)).
    - simpl. unfold squareValue. rewrite Hempty, Hfull. simpl. lia.
    - apply squares_NoDup.
    - exact Hin.
    - intros [r c] Hrc Hne. destruct (squares_rows _ Hrc) as [Hr Hc].
      simpl in *. unfold squareValue. rewrite Hrest by assumption.
      reflexivity. }
  split; [exact Hsum |].
  pose proof squares_floor as Hfloor.
  rewrite forallb_forall in Hfloor. specialize (Hfloor _ Hin).
  unfold pieceFloor in Hfloor. rewrite forallb_forall in Hfloor.
  assert (Ht : In (ptype pc) [Pawn; Knight; Bishop; Rook; Queen; King])
    by (destruct (ptype pc); simpl; tauto).
  specialize (Hfloor _ Ht). apply andb_true_iff in Hfloor.
  destruct Hfloor as [Hw Hb]. apply Z.leb_le in Hw. apply Z.leb_le in Hb.
  simpl in Hw, Hb. destruct pc as [t c]. simpl in *.
  split; intros ->; lia.
Qed.

(** X3.  The search of the first copy never returns an infinity: when a
    position without legal moves is over, every value of the full minimax
    is a finite number, and so is what [minimax] returns for the full
    window. *)
Theorem minimax_value_is_finite (Hdead : NoDeadEnd) :
  (forall depth chess isMaximizing,
     exists z, fullMinimax evaluatePosition depth chess isMaximizing = Fin z) /\
  (LegalMovesApply -> UndoReverts ->
   forall fuel depth isMaximizing chess,
     0 <= depth -> (Z.to_nat depth < fuel)%nat ->
     exists z,
       minimax fuel depth NegInf PosInf isMaximizing chess
         = Ok (Fin z, chess)).
Proof.
  assert (Hleaf : forall chess, exists z, evaluatePosition chess = Fin z).
  { intros chess. unfold evaluatePosition.
    destruct (isCheckmate chess); [destruct (turn chess); eexists; reflexivity |].
    destruct (isDraw chess); eexists; reflexivity. }
  assert (Hfull : forall depth chess isMaximizing,
             exists z,
               fullMinimax evaluatePosition depth chess isMaximizing = Fin z).
  { induction depth as [| d IH]; intros chess isMaximizing;
      cbn [fullMinimax]; [apply Hleaf |].
    destruct (isGameOver chess) eqn:Hover; [apply Hleaf |].
    destruct (moves chess) as [| m ms] eqn:Hmoves.
    { rewrite (Hdead chess Hmoves) in Hover. discriminate. }
    assert (Hmax : forall l : list Move,
               l <> [] ->
               exists z,
                 fold_right smax NegInf
                   (map (fun m => fullMinimax evaluatePosition d
                                    (after chess m) false) l) = Fin z).
    { induction l as [| x l IHl]; intros Hne; [congruence |]. simpl.
      destruct (IH (after chess x) false) as [zx ->].
      destruct l as [| y l]; [exists zx; reflexivity |].
      destruct IHl as [zl ->]; [discriminate |].
      unfold smax. simpl. destruct (zx <=? zl); eexists; reflexivity. }
    assert (Hmin : forall l : list Move,
               l <> [] ->
               exists z,
                 fold_right smin PosInf
                   (map (fun m => fullMinimax evaluatePosition d
                                    (after chess m) true) l) = Fin z).
    { induction l as [| x l IHl]; intros Hne; [congruence |]. simpl.
      destruct (IH (after chess x) true) as [zx ->].
      destruct l as [| y l]; [exists zx; reflexivity |].
      destruct IHl as [zl ->]; [discriminate |].
      unfold smin. simpl. destruct (zx <=? zl); eexists; reflexivity. }
    destruct isMaximizing; cbn [negb];
      [apply Hmax | apply Hmin]; discriminate. }
  split; [exact Hfull |].
  intros Hlegal Hundo fuel depth isMaximizing chess Hd Hfuel.
  destruct (Hfull (Z.to_nat depth) chess isMaximizing) as [z Hz].
  exists z. rewrite <- Hz.
  apply (minimaxWith_full Hlegal Hundo);
    [apply (orderIfMany_reorders Hlegal Hundo) | exact Hd | exact Hfuel].
Qed.

End EvaluatorMore.

(** ** The choice of the best move *)

Section SearchMore.

Context {Position : Type} {E : RulesEngine Position}.

Notation "x <- c1 ;; c2" := (bind c1 (fun x => c2))
  (at level 100, c1 at next level, right associativity).

(** X4.  The move [getBestMove] returns is best for the side to move by
    the full minimax of the positions the moves lead to, searched one ply
    less deep: no legal move has a higher value when White is to move, none
    a lower value when Black is.  Among equally good moves it is the first
    of the ranking: every move ranked before it is strictly worse. *)
Theorem getBestMove_is_optimal
    (Hlegal : LegalMovesApply) (Hundo : UndoReverts)
    (fuel : nat) (depth : Z) (chess : Position) :
  1 <= depth -> (Z.to_nat depth <= fuel)%nat -> moves chess <> [] ->
  exists front m back,
    getBestMove fuel depth chess = Ok (Some m, chess) /\
    ranked chess (moves chess) = (front ++ m :: back)%list /\
    let value m' :=
      fullMinimax evaluatePosition (Z.to_nat (depth - 1)) (after chess m')
        (negb (isWhite (turn chess))) in
    if isWhite (turn chess) then
      (forall m', In m' (moves chess) -> sLe (value m') (value m)) /\
      (forall m', In m' front -> sLt (value m') (value m))
    else
      (forall m', In m' (moves chess) -> sLe (value m) (value m')) /\
      (forall m', In m' front -> sLt (value m) (value m')).
Proof.
  intros Hd Hfuel Hne.
  rewrite (getBestMove_spec Hlegal Hundo fuel depth chess Hd Hfuel Hne).
  assert (Hr : ranked chess (moves chess) <> []).
  { intros Hnil. pose proof (ranked_perm chess (moves chess)) as Hp.
    rewrite Hnil in Hp. apply Permutation_sym, Permutation_nil in Hp.
    contradiction. }
  assert (Hin : forall m', In m' (moves chess) ->
                           In m' (ranked chess (moves chess))).
  { intros m' Hm'. eapply Permutation_in; [apply ranked_perm | exact Hm']. }
  cbv zeta. destruct (isWhite (turn chess)); cbn [negb].
  - destruct (pickBest_max_seeded
                (fun m => fullMinimax evaluatePosition (Z.to_nat (depth - 1))
                            (after chess m) false)
                (ranked chess (moves chess)) Hr)
      as (front & m & back & Hms & Hpick & Hall & Hfront).
    exists front, m, back. rewrite Hpick.
    split; [reflexivity |]. split; [exact Hms |].
    split; [intros m' Hm'; apply Hall, Hin, Hm' | exact Hfront].
  - destruct (pickBest_min_seeded
                (fun m => fullMinimax evaluatePosition (Z.to_nat (depth - 1))
                            (after chess m) true)
                (ranked chess (moves chess)) Hr)
      as (front & m & back & Hms & Hpick & Hall & Hfront).
    exists front, m, back. rewrite Hpick.
    split; [reflexivity |]. split; [exact Hms |].
    split; [intros m' Hm'; apply Hall, Hin, Hm' | exact Hfront].
Qed.

(** ** A depth that is never reached *)

Lemma maxLoop_ext (child child' : Score -> Score -> Eff Score) :
  (forall a b q, child a b q = child' a b q) ->
  forall ms maxScore alpha beta chess,
    maxLoop child ms maxScore alpha beta chess
    = maxLoop child' ms maxScore alpha beta chess.
Proof.
  intros Hext. induction ms as [| m ms IH];
    intros maxScore alpha beta chess; cbn [maxLoop]; [reflexivity |].
  unfold bind. destruct (doMove m chess) as [[moveObj q] | |];
    try reflexivity.
  rewrite Hext.
  destruct (child' alpha beta q) as [[s q'] | |]; try reflexivity.
  destruct (doUndo q') as [[u q''] | |]; try reflexivity.
  destruct (sle beta (smax alpha s)); [reflexivity | apply IH].
Qed.

Lemma minLoop_ext (child child' : Score -> Score -> Eff Score) :
  (forall a b q, child a b q = child' a b q) ->
  forall ms minScore alpha beta chess,
    minLoop child ms minScore alpha beta chess
    = minLoop child' ms minScore alpha beta chess.
Proof.
  intros Hext. induction ms as [| m ms IH];
    intros minScore alpha beta chess; cbn [minLoop]; [reflexivity |].
  unfold bind. destruct (doMove m chess) as [[moveObj q] | |];
    try reflexivity.
  rewrite Hext.
  destruct (child' alpha beta q) as [[s q'] | |]; try reflexivity.
  destruct (doUndo q') as [[u q''] | |]; try reflexivity.
  destruct (sle (smin beta s) alpha); [reflexivity | apply IH].
Qed.

Lemma minimaxWith_unreachable (evaluate : Position -> Score)
    (order : list Move -> Eff (list Move)) (fuel : nat) :
  forall depth depth' alpha beta isMaximizing chess,
    unreachable fuel depth -> unreachable fuel depth' ->
    minimaxWith evaluate order fuel depth alpha beta isMaximizing chess
    = minimaxWith evaluate order fuel depth' alpha beta isMaximizing chess.
Proof.
  unfold unreachable.
  induction fuel as [| fuel IH];
    intros depth depth' alpha beta isMaximizing chess Hd Hd';
    cbn [minimaxWith]; [reflexivity |].
  unfold bind, gets.
  destruct (Z.eqb_spec depth 0) as [-> | _]; [lia |].
  destruct (Z.eqb_spec depth' 0) as [-> | _]; [lia |].
  cbn [orb]. destruct (isGameOver chess); [reflexivity |].
  destruct (order (moves chess) chess) as [[ms' c] | |]; try reflexivity.
  destruct isMaximizing.
  - apply maxLoop_ext. intros a b q. apply IH; lia.
  - apply minLoop_ext. intros a b q. apply IH; lia.
Qed.

Lemma rootLoop_depth (search : Z -> Score -> Score -> bool -> Eff Score)
    (depth depth' : Z) (isMaximizing : bool) :
  (forall a b mx q, search (depth - 1) a b mx q = search (depth' - 1) a b mx q) ->
  forall ms bestMove bestScore chess,
    rootLoop search depth isMaximizing ms bestMove bestScore chess
    = rootLoop search depth' isMaximizing ms bestMove bestScore chess.
Proof.
  intros Hext. induction ms as [| m ms IH];
    intros bestMove bestScore chess; cbn [rootLoop]; [reflexivity |].
  unfold bind. destruct (doMove m chess) as [[moveObj q] | |];
    try reflexivity.
  rewrite Hext.
  destruct (search (depth' - 1) NegInf PosInf (negb isMaximizing) q)
    as [[s q'] | |]; try reflexivity.
  destruct (doUndo q') as [[u q''] | |]; try reflexivity.
  destruct isMaximizing.
  - destruct (slt bestScore s); apply IH.
  - destruct (slt s bestScore); apply IH.
Qed.

Lemma getBestMove_unreachable (fuel : nat) (depth depth' : Z)
    (chess : Position) :
  unreachable fuel (depth - 1) -> unreachable fuel (depth' - 1) ->
  getBestMove fuel depth chess = getBestMove fuel depth' chess.
Proof.
  intros Hd Hd'. unfold getBestMove, bind, gets.
  destruct (length (moves chess) =? 0)%nat; [reflexivity |].
  destruct (orderMoves (moves chess) chess) as [[ordered c] | |];
    try reflexivity.
  apply rootLoop_depth. intros a b mx q. unfold minimax.
  apply minimaxWith_unreachable; assumption.
Qed.

(** X5.  The handler cuts the requested depth only from above: a negative
    depth reaches [getBestMove] as it is (and 0 is replaced by 3).  With a
    depth of 0 or less the depth test of [minimax] never fires: the result
    is the same for every such depth and the same as for any depth limit
    too far away to be reached, so only the end of the game stops the
    search. *)
Theorem nonpositive_depth_is_no_limit (fuel : nat) :
  (forall d, d < 0 -> clampDepth 3 (Some d) = d) /\
  clampDepth 3 (Some 0) = 3 /\
  (forall d d' chess,
     d <= 0 -> d' <= 0 ->
     getBestMove fuel d chess = getBestMove fuel d' chess) /\
  (forall d far chess,
     d <= 0 -> Z.of_nat fuel < far ->
     getBestMove fuel d chess = getBestMove fuel far chess) /\
  (forall d d' id mv (games : gmap string Position),
     d < 0 -> d' < 0 ->
     callTool fuel "get_best_move"
       {| arg_game_id := id; arg_move := mv; arg_depth := Some d |} games
     = callTool fuel "get_best_move"
         {| arg_game_id := id; arg_move := mv; arg_depth := Some d' |} games).
Proof.
  assert (Hclamp : forall d, d < 0 -> clampDepth 3 (Some d) = d).
  { intros d Hd. unfold clampDepth, depthOrDefault.
    destruct (Z.eqb_spec d 0); lia. }
  split; [exact Hclamp |]. split; [reflexivity |].
  split; [| split].
  - intros d d' chess Hd Hd'.
    apply getBestMove_unreachable; left; lia.
  - intros d far chess Hd Hfar.
    apply getBestMove_unreachable; [left | right]; lia.
  - intros d d' id mv games Hd Hd'.
    unfold callTool, callToolWith. cbn [String.eqb Ascii.eqb Bool.eqb].
    cbn [arg_game_id arg_depth].
    destruct (games !! id) as [chess |]; [| reflexivity].
    rewrite !Hclamp by assumption.
    rewrite (getBestMove_unreachable fuel d d' chess) by (left; lia).
    reflexivity.
Qed.

(** ** More on the ranking *)

Lemma filter_insertScored (k : Z) (x : Move * Z) (l : list (Move * Z)) :
  List.filter (fun p => snd p =? k) (insertScored x l)
  = List.filter (fun p => snd p =? k) (x :: l).
Proof.
  induction l as [| y l IH]; [reflexivity |].
  cbn [insertScored]. destruct (Z.ltb_spec (snd x) (snd y)) as [Hlt | Hge];
    [| reflexivity].
  cbn [List.filter] in *. rewrite IH.
  destruct (Z.eqb_spec (snd x) k), (Z.eqb_spec (snd y) k);
    try reflexivity. lia.
Qed.

Lemma filter_sortScored (k : Z) (l : list (Move * Z)) :
  List.filter (fun p => snd p =? k) (sortScored l)
  = List.filter (fun p => snd p =? k) l.
Proof.
  induction l as [| x l IH]; [reflexivity |].
  cbn [sortScored fold_right]. fold (sortScored l).
  rewrite filter_insertScored. cbn [List.filter]. rewrite IH. reflexivity.
Qed.

Lemma filter_map_fst (h : Move -> Z) (k : Z) (l : list (Move * Z)) :
  List.Forall (fun p => snd p = h (fst p)) l ->
  List.filter (fun m => h m =? k) (map fst l)
  = map fst (List.filter (fun p => snd p =? k) l).
Proof.
  induction 1 as [| p l Hp _ IH]; [reflexivity |].
  cbn [map List.filter]. rewrite <- Hp, IH.
  destruct (snd p =? k); reflexivity.
Qed.

Lemma scored_pairs (h : Move -> Z) (ms : list Move) :
  List.Forall (fun p => snd p = h (fst p)) (map (fun m => (m, h m)) ms).
Proof.
  apply List.Forall_forall. intros p Hp. apply in_map_iff in Hp.
  destruct Hp as (m & <- & _). reflexivity.
Qed.

Lemma ranked_filter (chess : Position) (ms : list Move) (k : Z) :
  List.filter (fun m => heuristic chess m =? k) (ranked chess ms)
  = List.filter (fun m => heuristic chess m =? k) ms.
Proof.
  unfold ranked.
  rewrite (filter_map_fst (heuristic chess)).
  - rewrite filter_sortScored.
    rewrite <- (filter_map_fst (heuristic chess)) by apply scored_pairs.
    rewrite map_map. simpl. rewrite map_id. reflexivity.
  - eapply Permutation_Forall; [apply sortScored_perm | apply scored_pairs].
Qed.

Lemma filter_all {A : Type} (f : A -> bool) (l : list A) :
  (forall x, In x l -> f x = true) -> List.filter f l = l.
Proof.
  induction l as [| x l IH]; intros H; [reflexivity |].
  cbn [List.filter]. rewrite (H x (or_introl eq_refl)).
  rewrite IH; [reflexivity |]. intros y Hy. apply H. right. exact Hy.
Qed.

(** X6.  The ranking is stable: moves with the same score keep the order
    they had in the input, so a list of equally scored moves comes back
    unchanged. *)
Theorem orderMoves_is_stable
    (Hlegal : LegalMovesApply) (Hundo : UndoReverts)
    (chess : Position) (ms : list Move)
    (Hin : forall m, In m ms -> In m (moves chess)) :
  exists r,
    orderMoves ms chess = Ok (r, chess) /\
    (forall k,
       List.filter (fun m => heuristic chess m =? k) r
       = List.filter (fun m => heuristic chess m =? k) ms) /\
    ((forall m m', In m ms -> In m' ms ->
        heuristic chess m = heuristic chess m') ->
     r = ms).
Proof.
  exists (ranked chess ms).
  split; [apply (orderMoves_ok Hlegal Hundo); exact Hin |].
  split; [intros k; apply ranked_filter |].
  intros Hsame. destruct ms as [| m0 ms0] eqn:Hms.
  - reflexivity.
  - rewrite <- Hms in *.
    assert (H0 : In m0 ms) by (rewrite Hms; left; reflexivity).
    rewrite <- (filter_all (fun m => heuristic chess m =? heuristic chess m0)
                  (ranked chess ms)).
    + rewrite ranked_filter. apply filter_all.
      intros x Hx. apply Z.eqb_eq, Hsame; assumption.
    + intros x Hx. apply Z.eqb_eq, Hsame; [| exact H0].
      eapply Permutation_in; [apply Permutation_sym, ranked_perm | exact Hx].
Qed.

Lemma sorted_nth_order (h : Move -> Z) (r : list Move) :
  StronglySorted (fun a b => h b <= h a) r ->
  forall i j a b,
    nth_error r i = Some a -> nth_error r j = Some b ->
    (i < j)%nat -> h b <= h a.
Proof.
  induction 1 as [| x r Hs IH Hx]; intros i j a b Hi Hj Hlt.
  - destruct i; discriminate.
  - destruct j as [| j]; [lia |]. cbn [nth_error] in Hj.
    destruct i as [| i]; cbn [nth_error] in Hi.
    + inversion Hi. subst.
      rewrite List.Forall_forall in Hx. apply Hx.
      eapply nth_error_In. exact Hj.
    + eapply IH; [exact Hi | exact Hj | lia].
Qed.

Lemma ranked_before (chess : Position) (ms : list Move) (i j : nat)
    (a b : Move) :
  nth_error (ranked chess ms) i = Some a ->
  nth_error (ranked chess ms) j = Some b ->
  heuristic chess b < heuristic chess a ->
  (i < j)%nat.
Proof.
  intros Hi Hj Hlt.
  destruct (Nat.lt_trichotomy i j) as [H | [-> | H]]; [exact H | |].
  - rewrite Hi in Hj. inversion Hj. subst. lia.
  - pose proof (sorted_nth_order _ _ (ranked_sorted chess ms)
                  j i b a Hj Hi H).
    lia.
Qed.

(** X7.  Where captures stand in the ranking.  A capture by any piece but
    the king comes before every quiet move (one that captures and promotes
    nothing), checking or not.  A capture by the king comes after every
    quiet move: the king's value of 20000 makes its score negative. *)
Theorem orderMoves_captures_and_quiet_moves
    (Hlegal : LegalMovesApply) (Hundo : UndoReverts)
    (chess : Position) (ms : list Move)
    (Hin : forall m, In m ms -> In m (moves chess)) :
  exists r,
    orderMoves ms chess = Ok (r, chess) /\
    forall i j c q attacker,
      nth_error r i = Some c -> nth_error r j = Some q ->
      captureBy chess attacker c -> quietMove chess q ->
      (attacker <> King -> (i < j)%nat) /\
      (attacker = King -> (j < i)%nat).
Proof.
  exists (ranked chess ms).
  split; [apply (orderMoves_ok Hlegal Hundo); exact Hin |].
  intros i j c q attacker Hi Hj
    (mc & chessc & victim & Hc & Hattacker & Hvictim & Hnoking & Hpromo)
    (mq & chessq & Hq & Hqcap & Hqpromo).
  assert (Hhq : 0 <= heuristic chess q <= 50).
  { unfold heuristic. rewrite Hq, scoreMove_formula, Hqcap, Hqpromo.
    destruct (isCheck chessq); lia. }
  assert (Hhc : heuristic chess c =
                10 * PIECE_VALUES victim - PIECE_VALUES attacker
                + (if isCheck chessc then 50 else 0)).
  { unfold heuristic. rewrite Hc, scoreMove_formula, Hvictim, Hpromo, Hattacker.
    lia. }
  split.
  - intros Hnk. apply (ranked_before chess ms i j c q Hi Hj).
    rewrite Hhc. destruct victim, attacker, (isCheck chessc);
      simpl; try lia; congruence.
  - intros ->. apply (ranked_before chess ms j i q c Hj Hi).
    rewrite Hhc. destruct victim, (isCheck chessc); simpl; try lia; congruence.
Qed.

End SearchMore.

(** ** The second copy of the search *)

Lemma simple_material_sum (b : Board) (l : list (nat * nat)) :
  sumZ (map (fun rc => Simple.squareValue b (fst rc) (snd rc)) l)
  = sumZ (map (fun t =>
                 PIECE_VALUES t
                 * (Z.of_nat (length (List.filter
                      (fun rc => isPiece t White (pieceAt b (fst rc) (snd rc))) l))
                    - Z.of_nat (length (List.filter
                        (fun rc => isPiece t Black (pieceAt b (fst rc) (snd rc))) l))))
          [Pawn; Knight; Bishop; Rook; Queen; King]).
Proof.
  induction l as [| rc l IH]; [reflexivity |].
  unfold sumZ in *. cbn [map fold_right List.filter] in *.
  unfold Simple.squareValue at 1.
  destruct (pieceAt b (fst rc) (snd rc)) as [[[] []] |];
    cbn [isPiece ptype color isWhite Bool.eqb andb length PIECE_VALUES] in *;
    lia.
Qed.

Section SimpleMore.

Context {Position : Type} {E : RulesEngine Position}.

Lemma ret_reorders : Reorders (ret (Position := Position)).
Proof.
  intros chess ms _. exists ms. split; [reflexivity | apply Permutation_refl].
Qed.

Lemma simple_getBestMove_spec (Hlegal : LegalMovesApply) (Hundo : UndoReverts)
    (fuel : nat) (depth : Z) (chess : Position) :
  1 <= depth -> (Z.to_nat depth <= fuel)%nat ->
  moves chess <> [] ->
  Simple.getBestMove fuel depth chess =
    Ok (pickBest (isWhite (turn chess))
          (fun m => fullMinimax Simple.evaluatePosition (Z.to_nat (depth - 1))
                      (after chess m) (negb (isWhite (turn chess))))
          (moves chess) (head (moves chess))
          (if isWhite (turn chess) then NegInf else PosInf),
        chess).
Proof.
  intros Hd Hfuel Hne. unfold Simple.getBestMove.
  unfold bind at 1. unfold gets at 1.
  destruct (moves chess) as [| m0 ms0] eqn:Hmoves; [congruence |].
  cbn [length Nat.eqb]. rewrite <- Hmoves.
  unfold bind at 1. unfold gets at 1.
  apply (rootLoop_spec Hundo).
  intros m Hm.
  destruct (Hlegal chess m Hm) as [[moveObj q] Hq].
  exists moveObj, q. split; [exact Hq |].
  unfold after. rewrite Hq. unfold Simple.minimax.
  apply (minimaxWith_full Hlegal Hundo); [apply ret_reorders | lia | lia].
Qed.

(** X8.  The second copy of the search, which explores the moves in the
    order the rules engine lists them and scores mates as infinities, has
    the same guarantees: with the full window its [minimax] returns the
    full minimax value of its evaluator, and its [getBestMove] returns null
    without moves and otherwise the first legal move of best value, in the
    unchanged position. *)
Theorem simple_search_is_optimal
    (Hlegal : LegalMovesApply) (Hundo : UndoReverts)
    (fuel : nat) (depth : Z) (chess : Position) :
  (forall isMaximizing,
     0 <= depth -> (Z.to_nat depth < fuel)%nat ->
     Simple.minimax fuel depth NegInf PosInf isMaximizing chess
     = Ok (fullMinimax Simple.evaluatePosition (Z.to_nat depth) chess
             isMaximizing, chess)) /\
  (moves chess = [] -> Simple.getBestMove fuel depth chess = Ok (None, chess)) /\
  (1 <= depth -> (Z.to_nat depth <= fuel)%nat -> moves chess <> [] ->
   exists front m back,
     Simple.getBestMove fuel depth chess = Ok (Some m, chess) /\
     moves chess = (front ++ m :: back)%list /\
     let value m' :=
       fullMinimax Simple.evaluatePosition (Z.to_nat (depth - 1))
         (after chess m') (negb (isWhite (turn chess))) in
     if isWhite (turn chess) then
       (forall m', In m' (moves chess) -> sLe (value m') (value m)) /\
       (forall m', In m' front -> sLt (value m') (value m))
     else
       (forall m', In m' (moves chess) -> sLe (value m) (value m')) /\
       (forall m', In m' front -> sLt (value m) (value m'))).
Proof.
  split; [| split].
  - intros isMaximizing Hd Hfuel. unfold Simple.minimax.
    apply (minimaxWith_full Hlegal Hundo); [apply ret_reorders | lia | lia].
  - intros Hmoves. unfold Simple.getBestMove, bind, gets.
    rewrite Hmoves. reflexivity.
  - intros Hd Hfuel Hne.
    rewrite (simple_getBestMove_spec Hlegal Hundo fuel depth chess Hd Hfuel Hne).
    cbv zeta. destruct (isWhite (turn chess)); cbn [negb].
    + destruct (pickBest_max_seeded
                  (fun m => fullMinimax Simple.evaluatePosition
                              (Z.to_nat (depth - 1)) (after chess m) false)
                  (moves chess) Hne)
        as (front & m & back & Hms & Hpick & Hall & Hfront).
      exists front, m, back. rewrite Hpick.
      split; [reflexivity |]. split; [exact Hms |].
      split; [exact Hall | exact Hfront].
    + destruct (pickBest_min_seeded
                  (fun m => fullMinimax Simple.evaluatePosition
                              (Z.to_nat (depth - 1)) (after chess m) true)
                  (moves chess) Hne)
        as (front & m & back & Hms & Hpick & Hall & Hfront).
      exists front, m, back. rewrite Hpick.
      split; [reflexivity |]. split; [exact Hms |].
      split; [exact Hall | exact Hfront].
Qed.

(** X9.  The evaluator of the second copy sees material only: off the
    terminal positions its value is the sum over the piece kinds of the
    piece value times the difference between the white and the black count,
    wherever the pieces stand. *)
Theorem simple_evaluation_is_material (chess : Position) :
  isCheckmate chess = false -> isDraw chess = false ->
  Simple.evaluatePosition chess = Fin (materialBalance (board chess)).
Proof.
  intros Hmate Hdraw. unfold Simple.evaluatePosition.
  rewrite Hmate, Hdraw. f_equal.
  rewrite (double_loop_sum (Simple.squareValue (board chess))).
  rewrite Z.add_0_l. fold squares.
  rewrite simple_material_sum. reflexivity.
Qed.

End SimpleMore.

(** ** Calls of the tool handler in sequence *)

Section HandlerMore.

Context {Position : Type} {E : RulesEngine Position}.

(** X10.  new_game stores a fresh starting position under the given id,
    replacing whatever game was stored there and touching no other game;
    a get_legal_moves for that id then answers with the moves of the
    starting position. *)
Theorem new_game_then_lookup (fuel : nat) (args : ToolArgs)
    (games : gmap string Position) :
  exists r games',
    callTool fuel "new_game" args games = Ok (r, games') /\
    isError r = false /\
    games' !! arg_game_id args = Some newChess /\
    (forall id, id <> arg_game_id args -> games' !! id = games !! id) /\
    (forall fuel' args',
       arg_game_id args' = arg_game_id args ->
       callTool fuel' "get_legal_moves" args' games'
       = Ok ({| text := String.concat ", " (moves newChess);
                isError := false |}, games')).
Proof.
  eexists. eexists. split; [reflexivity |].
  split; [reflexivity |]. split; [apply lookup_insert_eq |].
  split.
  - intros id Hid. apply lookup_insert_ne. congruence.
  - intros fuel' args' Hid. unfold callTool, callToolWith.
    cbn [String.eqb Ascii.eqb Bool.eqb]. rewrite Hid, lookup_insert_eq.
    reflexivity.
Qed.

(** X11.  make_move on a stored game: a move the rules accept is played on
    that game only, and a get_legal_moves that follows lists the moves of
    the position reached; a move the rules reject gives the error result
    'Invalid move: ...' and leaves every game as it was. *)
Theorem make_move_then_legal_moves (fuel : nat) (args : ToolArgs)
    (games : gmap string Position) (chess : Position) :
  games !! arg_game_id args = Some chess ->
  (forall moveObj chess',
     move chess (arg_move args) = Some (moveObj, chess') ->
     exists games',
       callTool fuel "make_move" args games
       = Ok ({| text := "Move " ++ san moveObj ++ " played successfully";
                isError := false |}, games') /\
       games' !! arg_game_id args = Some chess' /\
       (forall id, id <> arg_game_id args -> games' !! id = games !! id) /\
       callTool fuel "get_legal_moves" args games'
       = Ok ({| text := String.concat ", " (moves chess');
                isError := false |}, games')) /\
  (move chess (arg_move args) = None ->
   callTool fuel "make_move" args games
   = Ok ({| text := "Invalid move: " ++ arg_move args; isError := true |},
         games)).
Proof.
  intros Hgame. split.
  - intros moveObj chess' Hmove.
    exists (<[arg_game_id args := chess']> games).
    split; [| split; [apply lookup_insert_eq | split]].
    + unfold callTool, callToolWith. cbn [String.eqb Ascii.eqb Bool.eqb].
      rewrite Hgame, Hmove. reflexivity.
    + intros id Hid. apply lookup_insert_ne. congruence.
    + unfold callTool, callToolWith. cbn [String.eqb Ascii.eqb Bool.eqb].
      rewrite lookup_insert_eq. reflexivity.
  - intros Hmove. unfold callTool, callToolWith.
    cbn [String.eqb Ascii.eqb Bool.eqb]. rewrite Hgame, Hmove. reflexivity.
Qed.

Lemma bestMoveText_move (m : Move) : m <> "" -> bestMoveText (Some m) = m.
Proof.
  intros Hne. unfold bestMoveText.
  destruct (String.eqb_spec m ""); [contradiction | reflexivity].
Qed.

Lemma clampDepth_positive (d : option Z) :
  match d with Some z => 0 <= z | None => True end ->
  1 <= clampDepth 3 d <= 3.
Proof.
  unfold clampDepth, depthOrDefault. destruct d as [z |]; [| lia].
  destruct (Z.eqb_spec z 0); lia.
Qed.

(** The handler of get_best_move on a stored game, with moves that apply. *)
Lemma get_best_move_result (Hlegal : LegalMovesApply) (Hundo : UndoReverts)
    (fuel : nat) (args : ToolArgs) (games : gmap string Position)
    (chess : Position) :
  games !! arg_game_id args = Some chess ->
  (3 <= fuel)%nat ->
  match arg_depth args with Some z => 0 <= z | None => True end ->
  exists bestMove,
    getBestMove fuel (clampDepth 3 (arg_depth args)) chess
      = Ok (bestMove, chess) /\
    (bestMove = None <-> moves chess = []) /\
    (forall m, bestMove = Some m -> In m (moves chess)) /\
    callTool fuel "get_best_move" args games
      = Ok ({| text := bestMoveText bestMove; isError := false |}, games).
Proof.
  intros Hgame Hfuel Hdepth.
  pose proof (clampDepth_positive _ Hdepth) as Hd.
  assert (Hret : exists bestMove,
             getBestMove fuel (clampDepth 3 (arg_depth args)) chess
             = Ok (bestMove, chess)).
  { destruct (moves chess) as [| m0 ms0] eqn:Hmoves.
    - exists None. unfold getBestMove, bind, gets. rewrite Hmoves. reflexivity.
    - eexists. apply (getBestMove_spec Hlegal Hundo); [lia | lia |].
      rewrite Hmoves. discriminate. }
  destruct Hret as [bestMove Hbest]. exists bestMove.
  destruct (getBestMove_restores Hundo _ _ _ _ _ Hbest) as (_ & Hnone & Hin).
  split; [exact Hbest |]. split; [exact Hnone |]. split; [exact Hin |].
  unfold callTool, callToolWith. cbn [String.eqb Ascii.eqb Bool.eqb].
  rewrite Hgame, Hbest. rewrite (insert_id _ _ _ Hgame). reflexivity.
Qed.

(** X12.  get_best_move on a stored game, asked for no depth or for a depth
    that is a whole number and not negative, never reports an error and
    leaves every game as it was.  Its text is 'No moves available' when the
    position has no legal move and otherwise a legal move of the position,
    which make_move then plays.  The depths are the integers of [arg_depth];
    a depth with a fractional part is outside this statement. *)
Theorem get_best_move_then_make_move
    (Hlegal : LegalMovesApply) (Hundo : UndoReverts)
    (fuel : nat) (args : ToolArgs) (games : gmap string Position)
    (chess : Position) :
  games !! arg_game_id args = Some chess ->
  (3 <= fuel)%nat ->
  match arg_depth args with Some z => 0 <= z | None => True end ->
  (forall m, In m (moves chess) -> m <> "") ->
  exists r,
    callTool fuel "get_best_move" args games = Ok (r, games) /\
    isError r = false /\
    ((moves chess = [] /\ text r = "No moves available") \/
     (In (text r) (moves chess) /\
      exists moveObj chess',
        move chess (text r) = Some (moveObj, chess') /\
        callTool fuel "make_move"
          {| arg_game_id := arg_game_id args; arg_move := text r;
             arg_depth := None |} games
        = Ok ({| text := "Move " ++ san moveObj ++ " played successfully";
                 isError := false |},
              <[arg_game_id args := chess']> games))).
Proof.
  intros Hgame Hfuel Hdepth Hnames.
  destruct (get_best_move_result Hlegal Hundo fuel args games chess
              Hgame Hfuel Hdepth) as (bestMove & _ & Hnone & Hin & Hcall).
  eexists. split; [exact Hcall |]. split; [reflexivity |].
  destruct bestMove as [m |]; cbn [text].
  - right. specialize (Hin m eq_refl).
    rewrite (bestMoveText_move m (Hnames m Hin)).
    split; [exact Hin |].
    destruct (Hlegal chess m Hin) as [[moveObj chess'] Hmove].
    exists moveObj, chess'. split; [exact Hmove |].
    unfold callTool, callToolWith. cbn [String.eqb Ascii.eqb Bool.eqb].
    cbn [arg_game_id arg_move]. rewrite Hgame, Hmove. reflexivity.
  - left. split; [apply Hnone; reflexivity | reflexivity].
Qed.

(** X13.  No call of the handler removes a game or touches a game other
    than the one it names, and only new_game and make_move change a game at
    all (given that [undo] reverts the last move). *)
Theorem callTool_touches_one_game (Hundo : UndoReverts)
    (fuel : nat) (name : string) (args : ToolArgs)
    (games games' : gmap string Position) (r : ToolResult) :
  callTool fuel name args games = Ok (r, games') ->
  (forall id, is_Some (games !! id) -> is_Some (games' !! id)) /\
  (forall id, id <> arg_game_id args -> games' !! id = games !! id) /\
  (name <> "new_game" -> name <> "make_move" -> games' = games).
Proof.
  intros H.
  assert (Hsame : games' = games ->
            (forall id, is_Some (games !! id) -> is_Some (games' !! id)) /\
            (forall id, id <> arg_game_id args -> games' !! id = games !! id) /\
            (name <> "new_game" -> name <> "make_move" -> games' = games)).
  { intros ->. repeat split; auto. }
  assert (Hins : forall chess',
            games' = <[arg_game_id args := chess']> games ->
            (forall id, is_Some (games !! id) -> is_Some (games' !! id)) /\
            (forall id, id <> arg_game_id args -> games' !! id = games !! id)).
  { intros chess' ->. split.
    - intros id Hid. destruct (decide (arg_game_id args = id)) as [-> | Hne].
      + rewrite lookup_insert_eq. eexists. reflexivity.
      + rewrite lookup_insert_ne by exact Hne. exact Hid.
    - intros id Hid. apply lookup_insert_ne. congruence. }
  unfold callTool, callToolWith in H.
  destruct (String.eqb_spec name "new_game") as [-> | Hn1].
  { inversion H. subst.
    destruct (Hins newChess eq_refl) as [H1 H2].
    split; [exact H1 |]. split; [exact H2 |]. intros Hc. congruence. }
  destruct (String.eqb_spec name "get_legal_moves") as [-> | Hn2].
  { destruct (games !! arg_game_id args); inversion H; subst;
      apply Hsame; reflexivity. }
  destruct (String.eqb_spec name "make_move") as [-> | Hn3].
  { destruct (games !! arg_game_id args) as [chess |];
      [| inversion H; subst; apply Hsame; reflexivity].
    destruct (move chess (arg_move args)) as [[moveObj chess'] |];
      inversion H; subst; [| apply Hsame; reflexivity].
    destruct (Hins chess' eq_refl) as [H1 H2].
    split; [exact H1 |]. split; [exact H2 |]. intros _ Hc. congruence. }
  destruct (String.eqb_spec name "get_best_move") as [-> | Hn4].
  { destruct (games !! arg_game_id args) as [chess |] eqn:Hgame;
      [| inversion H; subst; apply Hsame; reflexivity].
    destruct (getBestMove fuel (clampDepth 3 (arg_depth args)) chess)
      as [[bestMove chess'] | |] eqn:Hbest; try discriminate.
    destruct (getBestMove_restores Hundo _ _ _ _ _ Hbest) as (-> & _).
    inversion H. subst. apply Hsame. apply insert_id. exact Hgame. }
  destruct (String.eqb_spec name "get_board") as [-> | Hn5].
  { destruct (games !! arg_game_id args); inversion H; subst;
      apply Hsame; reflexivity. }
  inversion H. subst. apply Hsame. reflexivity.
Qed.

End HandlerMore.

(** ** The engine-backed player *)

Section PlayerMore.

Context {Position : Type} {E : RulesEngine Position}.

Variable trim : string -> string.
Variable matchMove : string -> option string.
Variable firstToken : string -> string.

Lemma includes_In (l : list Move) (m : string) :
  includes l m = true <-> In m l.
Proof.
  unfold includes. rewrite existsb_exists. split.
  - intros (x & Hx & Heq). apply String.eqb_eq in Heq. subst. exact Hx.
  - intros Hin. exists m. split; [exact Hin | apply String.eqb_refl].
Qed.

Lemma head_legal (l : list Move) :
  match head l with Some m => In m l | None => l = [] end.
Proof. destruct l; simpl; auto. Qed.

Lemma llmMove_legal (llm : option string) (chess : Position) :
  match llmMove trim matchMove firstToken llm chess with
  | Some m => In m (moves chess)
  | None => moves chess = []
  end.
Proof.
  unfold llmMove. destruct llm as [reply |]; [| apply head_legal].
  destruct (includes (moves chess) _) eqn:Hinc; [| apply head_legal].
  apply includes_In. exact Hinc.
Qed.

(** X14.  Whatever the chess server and the language model answer -
    errors, unknown games and free text included - the move
    [getMCPPlayerMove] returns is a legal move of the position, which the
    rules then accept; it returns none only when there is no legal move. *)
Theorem getMCPPlayerMove_is_legal (fuel : nat) (mcpReady : bool)
    (games : gmap string Position) (llm : option string)
    (chess : Position) (gameId : string) :
  match getMCPPlayerMove trim matchMove firstToken fuel mcpReady games llm
          chess gameId with
  | Some m =>
      In m (moves chess) /\
      (LegalMovesApply -> exists r, move chess m = Some r)
  | None => moves chess = []
  end.
Proof.
  assert (Hllm :
            match llmMove trim matchMove firstToken llm chess with
            | Some m =>
                In m (moves chess) /\
                (LegalMovesApply -> exists r, move chess m = Some r)
            | None => moves chess = []
            end).
  { pose proof (llmMove_legal llm chess) as H.
    destruct (llmMove trim matchMove firstToken llm chess) as [m |];
      [| exact H].
    split; [exact H | intros Hlegal; apply Hlegal, H]. }
  unfold getMCPPlayerMove. destruct mcpReady; [| exact Hllm].
  destruct (callTool fuel "get_best_move" _ games) as [[result games'] | |];
    try exact Hllm.
  destruct (includes (moves chess) (trim (text result))) eqn:Hinc;
    [| exact Hllm].
  apply includes_In in Hinc.
  split; [exact Hinc | intros Hlegal; apply Hlegal, Hinc].
Qed.

(** X15.  When the chess server holds the position of the board for the
    game, the player plays the move of the engine - the choice of
    [getBestMove] at depth 3, though depth 10 is asked for - and the answer
    of the language model plays no part. *)
Theorem getMCPPlayerMove_plays_engine_move
    (Hlegal : LegalMovesApply) (Hundo : UndoReverts)
    (fuel : nat) (games : gmap string Position)
    (chess : Position) (gameId : string) :
  games !! gameId = Some chess ->
  (3 <= fuel)%nat ->
  moves chess <> [] ->
  (forall m, In m (moves chess) -> trim m = m /\ m <> "") ->
  exists m,
    getBestMove fuel 3 chess = Ok (Some m, chess) /\
    forall llm,
      getMCPPlayerMove trim matchMove firstToken fuel true games llm chess
        gameId = Some m.
Proof.
  intros Hgame Hfuel Hne Hnames.
  destruct (get_best_move_result Hlegal Hundo fuel
              {| arg_game_id := gameId; arg_move := ""; arg_depth := Some 10 |}
              games chess Hgame Hfuel) as (bestMove & Hbest & Hnone & Hin & Hcall);
    [simpl; lia |].
  change (clampDepth 3 (arg_depth _)) with 3 in Hbest.
  destruct bestMove as [m |];
    [| exfalso; apply Hne, Hnone; reflexivity].
  exists m. split; [exact Hbest |].
  intros llm. unfold getMCPPlayerMove. rewrite Hcall. cbn [text].
  specialize (Hin m eq_refl). destruct (Hnames m Hin) as [Htrim Hnonempty].
  rewrite (bestMoveText_move m Hnonempty), Htrim.
  destruct (includes (moves chess) m) eqn:Hinc; [reflexivity |].
  apply includes_In in Hin. congruence.
Qed.

End PlayerMore.

(** ** A whole game *)

Section GameMore.

Context {Position : Type} {E : RulesEngine Position}.

Variable trim : string -> string.
Variable matchMove : string -> option string.
Variable firstToken : string -> string.
Variable isThreefoldRepetition : Position -> bool.
Variable isInsufficientMaterial : Position -> bool.

Lemma serverAfter_get_best_move (Hundo : UndoReverts)
    (fuel : nat) (mcpReady : bool) (args : ToolArgs)
    (games : gmap string Position) :
  serverAfter fuel mcpReady "get_best_move" args games = games.
Proof.
  unfold serverAfter. destruct mcpReady; [| reflexivity].
  unfold callTool, callToolWith. cbn [String.eqb Ascii.eqb Bool.eqb].
  destruct (games !! arg_game_id args) as [chess |] eqn:Hgame;
    [| reflexivity].
  destruct (getBestMove fuel (clampDepth 3 (arg_depth args)) chess)
    as [[bestMove chess'] | |] eqn:Hbest; try reflexivity.
  destruct (getBestMove_restores Hundo _ _ _ _ _ Hbest) as (-> & _).
  apply insert_id. exact Hgame.
Qed.

Lemma serverAfter_make_move (fuel : nat) (id : string) (m : Move)
    (games : gmap string Position) (chess chess' : Position)
    (result : MoveObj) :
  games !! id = Some chess ->
  move chess m = Some (result, chess') ->
  serverAfter fuel true "make_move"
    {| arg_game_id := id; arg_move := m; arg_depth := None |} games
  = <[id := chess']> games.
Proof.
  intros Hgame Hmove. unfold serverAfter, callTool, callToolWith.
  cbn [String.eqb Ascii.eqb Bool.eqb arg_game_id arg_move].
  rewrite Hgame, Hmove. reflexivity.
Qed.

Lemma replay_snoc (ms : list Move) (m : Move) (chess chess' : Position)
    (result : MoveObj) :
  move (replay ms chess) m = Some (result, chess') ->
  replay (ms ++ [m]) chess = chess'.
Proof.
  intros H. unfold replay in *. rewrite fold_left_app. cbn [fold_left].
  unfold after at 1. rewrite H. reflexivity.
Qed.

Lemma attempt_inSync (Hundo : UndoReverts)
    (fuel : nat) (isWhiteTurn : bool) (id : string) (llm : option string)
    (games0 : gmap string Position) (st : GameState) :
  inSync id games0 st ->
  inSync id games0
    (snd (attempt trim matchMove firstToken fuel isWhiteTurn true id llm st)).
Proof.
  intros (Hgame & Hreplay & Hother). unfold attempt.
  assert (Hgames :
            (if isWhiteTurn then st_games st
             else serverAfter fuel true "get_best_move"
                    {| arg_game_id := id; arg_move := "";
                       arg_depth := Some 10 |} (st_games st))
            = st_games st).
  { destruct isWhiteTurn;
      [reflexivity | apply (serverAfter_get_best_move Hundo)]. }
  rewrite Hgames.
  destruct (if isWhiteTurn then getPureLLMMove trim matchMove firstToken llm
            else getMCPPlayerMove trim matchMove firstToken fuel true
                   (st_games st) llm (st_chess st) id) as [m |];
    [| repeat split; assumption].
  destruct (move (st_chess st) m) as [[result chess'] |] eqn:Hmove;
    [| repeat split; assumption].
  cbn [snd]. rewrite (serverAfter_make_move fuel id m _ _ _ _ Hgame Hmove).
  split; [apply lookup_insert_eq |]. split.
  - cbn [st_chess st_moveHistory]. symmetry.
    apply (replay_snoc _ _ _ _ result). rewrite <- Hreplay. exact Hmove.
  - intros id' Hid. cbn [st_games].
    rewrite lookup_insert_ne by congruence. apply Hother, Hid.
Qed.

Lemma attemptLoop_inSync (Hundo : UndoReverts)
    (fuel : nat) (isWhiteTurn : bool) (id : string)
    (llm : nat -> option string) (games0 : gmap string Position)
    (remaining : nat) :
  forall attempts st,
    inSync id games0 st ->
    inSync id games0
      (snd (attemptLoop trim matchMove firstToken fuel remaining attempts
              isWhiteTurn true id llm st)).
Proof.
  induction remaining as [| remaining IH]; intros attempts st Hst;
    [exact Hst |].
  cbn [attemptLoop].
  pose proof (attempt_inSync Hundo fuel isWhiteTurn id (llm attempts)
                games0 st Hst) as Hstep.
  destruct (attempt trim matchMove firstToken fuel isWhiteTurn true id
              (llm attempts) st) as [[|] st'].
  - exact Hstep.
  - apply IH. exact Hstep.
Qed.

Lemma gameLoop_inSync (Hundo : UndoReverts)
    (fuel : nat) (id : string) (llm : nat -> nat -> option string)
    (games0 : gmap string Position) (turns : nat) :
  forall st,
    inSync id games0 st ->
    inSync id games0
      (snd (gameLoop trim matchMove firstToken fuel turns true id llm st)).
Proof.
  induction turns as [| turns IH]; intros st Hst; cbn [gameLoop];
    destruct (isGameOver (st_chess st)); try exact Hst.
  pose proof (attemptLoop_inSync Hundo fuel (isWhite (turn (st_chess st))) id
                (llm (length (st_moveHistory st))) games0 maxAttempts 0 st
                Hst) as Hstep.
  destruct (attemptLoop trim matchMove firstToken fuel maxAttempts 0
              (isWhite (turn (st_chess st))) true id
              (llm (length (st_moveHistory st))) st) as [[|] st'].
  - apply IH. exact Hstep.
  - exact Hstep.
Qed.

(** X16.  Through a whole game, whatever the language model answers and
    however the game ends, the chess server holds under the id of the game
    exactly the position on the board of [runGame], that position is the
    one the moves of [moveHistory] lead to from the start, and the other
    games of the server are left alone (given that [undo] reverts the last
    move). *)
Theorem runGame_keeps_server_in_sync (Hundo : UndoReverts)
    (fuel turns : nat) (mcpGameId : string)
    (llm : nat -> nat -> option string) (games : gmap string Position) :
  let st :=
    snd (fst (runGame trim matchMove firstToken isThreefoldRepetition
                isInsufficientMaterial fuel turns true mcpGameId llm games)) in
  st_games st !! mcpGameId = Some (st_chess st) /\
  st_chess st = replay (st_moveHistory st) newChess /\
  (forall id, id <> mcpGameId -> st_games st !! id = games !! id).
Proof.
  unfold runGame.
  pose proof (gameLoop_inSync Hundo fuel mcpGameId llm games turns
                {| st_chess := newChess; st_moveHistory := [];
                   st_games :=
                     serverAfter fuel true "new_game"
                       {| arg_game_id := mcpGameId; arg_move := "";
                          arg_depth := None |} games |}) as H.
  destruct (gameLoop _ _ _ _ _ _ _ _ _) as [ending st]. cbn [fst snd] in *.
  apply H. split; [apply lookup_insert_eq |]. split; [reflexivity |].
  intros id Hid. cbn [st_games]. unfold serverAfter, callTool, callToolWith.
  cbn [String.eqb Ascii.eqb Bool.eqb arg_game_id].
  apply lookup_insert_ne. congruence.
Qed.

Lemma getMCPPlayerMove_in_moves (fuel : nat) (mcpReady : bool)
    (games : gmap string Position) (llm : option string)
    (chess : Position) (gameId : string) :
  match getMCPPlayerMove trim matchMove firstToken fuel mcpReady games llm
          chess gameId with
  | Some m => In m (moves chess)
  | None => moves chess = []
  end.
Proof.
  pose proof (llmMove_legal trim matchMove firstToken llm chess) as Hllm.
  unfold getMCPPlayerMove. destruct mcpReady; [| exact Hllm].
  destruct (callTool fuel "get_best_move" _ games) as [[result games'] | |];
    try exact Hllm.
  destruct (includes (moves chess) (trim (text result))) eqn:Hinc;
    [| exact Hllm].
  apply includes_In in Hinc. exact Hinc.
Qed.

(** The first attempt of Black plays the move its player function
    returns. *)
Lemma black_attempt_succeeds (Hlegal : LegalMovesApply)
    (fuel : nat) (mcpReady : bool) (id : string) (llm : option string)
    (st : GameState) :
  moves (st_chess st) <> [] ->
  exists m result chess',
    getMCPPlayerMove trim matchMove firstToken fuel mcpReady (st_games st)
      llm (st_chess st) id = Some m /\
    In m (moves (st_chess st)) /\
    move (st_chess st) m = Some (result, chess') /\
    attempt trim matchMove firstToken fuel false mcpReady id llm st
    = (true,
       {| st_chess := chess';
          st_moveHistory := (st_moveHistory st ++ [m])%list;
          st_games :=
            serverAfter fuel mcpReady "make_move"
              {| arg_game_id := id; arg_move := m; arg_depth := None |}
              (serverAfter fuel mcpReady "get_best_move"
                 {| arg_game_id := id; arg_move := "";
                    arg_depth := Some 10 |} (st_games st)) |}).
Proof.
  intros Hne.
  pose proof (getMCPPlayerMove_in_moves fuel mcpReady (st_games st) llm
                (st_chess st) id) as Hin.
  destruct (getMCPPlayerMove trim matchMove firstToken fuel mcpReady
              (st_games st) llm (st_chess st) id) as [m |] eqn:Hplayer;
    [| contradiction].
  destruct (Hlegal _ _ Hin) as [[result chess'] Hmove].
  exists m, result, chess'. split; [reflexivity |]. split; [exact Hin |].
  split; [exact Hmove |].
  unfold attempt. rewrite Hplayer, Hmove. reflexivity.
Qed.

(** X17.  A turn of Black never fails: whatever the chess server holds and
    whatever the language model answers, the first attempt plays a legal
    move.  When the server holds the board of the game, that move is the
    choice of [getBestMove] at depth 3, for every answer of the model, and
    the server follows to the position reached. *)
Theorem black_turn_plays_at_once (Hlegal : LegalMovesApply)
    (fuel : nat) (id : string) (st : GameState) :
  moves (st_chess st) <> [] ->
  (forall mcpReady llm,
     exists m result chess' games',
       In m (moves (st_chess st)) /\
       move (st_chess st) m = Some (result, chess') /\
       attemptLoop trim matchMove firstToken fuel maxAttempts 0 false
         mcpReady id llm st
       = (true,
          {| st_chess := chess';
             st_moveHistory := (st_moveHistory st ++ [m])%list;
             st_games := games' |})) /\
  (UndoReverts -> (3 <= fuel)%nat ->
   st_games st !! id = Some (st_chess st) ->
   (forall m, In m (moves (st_chess st)) -> trim m = m /\ m <> "") ->
   exists m,
     getBestMove fuel 3 (st_chess st) = Ok (Some m, st_chess st) /\
     forall llm,
       attemptLoop trim matchMove firstToken fuel maxAttempts 0 false true
         id llm st
       = (true,
          {| st_chess := after (st_chess st) m;
             st_moveHistory := (st_moveHistory st ++ [m])%list;
             st_games := <[id := after (st_chess st) m]> (st_games st) |})).
Proof.
  intros Hne. split.
  - intros mcpReady llm.
    destruct (black_attempt_succeeds Hlegal fuel mcpReady id (llm 0%nat) st
                Hne) as (m & result & chess' & _ & Hin & Hmove & Hstep).
    exists m, result, chess'. eexists.
    split; [exact Hin |]. split; [exact Hmove |].
    cbn [attemptLoop maxAttempts]. rewrite Hstep. reflexivity.
  - intros Hundo Hfuel Hgame Hnames.
    destruct (get_best_move_result Hlegal Hundo fuel
                {| arg_game_id := id; arg_move := "";
                   arg_depth := Some 10 |}
                (st_games st) (st_chess st) Hgame Hfuel)
      as (bestMove & Hbest & Hnone & Hin & Hcall); [simpl; lia |].
    change (clampDepth 3 (arg_depth _)) with 3 in Hbest.
    destruct bestMove as [m |];
      [| exfalso; apply Hne, Hnone; reflexivity].
    exists m. split; [exact Hbest |]. intros llm.
    specialize (Hin m eq_refl).
    destruct (Hnames _ Hin) as [Htrim Hnonempty].
    destruct (black_attempt_succeeds Hlegal fuel true id (llm 0%nat) st Hne)
      as (m' & result & chess' & Hplayer & _ & Hmove & Hstep).
    assert (Hm : m' = m).
    { unfold getMCPPlayerMove in Hplayer. rewrite Hcall in Hplayer.
      cbn [text] in Hplayer.
      rewrite (bestMoveText_move m Hnonempty), Htrim in Hplayer.
      apply includes_In in Hin. rewrite Hin in Hplayer. congruence. }
    subst m'.
    cbn [attemptLoop maxAttempts]. rewrite Hstep.
    rewrite (serverAfter_get_best_move Hundo).
    rewrite (serverAfter_make_move fuel id m _ _ _ _ Hgame Hmove).
    unfold after. rewrite Hmove. reflexivity.
Qed.

Lemma attempt_failed (fuel : nat) (isWhiteTurn mcpReady : bool)
    (id : string) (llm : option string) (st st' : GameState) :
  attempt trim matchMove firstToken fuel isWhiteTurn mcpReady id llm st
    = (false, st') ->
  st_chess st' = st_chess st /\ st_moveHistory st' = st_moveHistory st.
Proof.
  unfold attempt. intros H.
  destruct (if isWhiteTurn then getPureLLMMove trim matchMove firstToken llm
            else getMCPPlayerMove trim matchMove firstToken fuel mcpReady
                   (st_games st) llm (st_chess st) id) as [m |].
  - destruct (move (st_chess st) m) as [[result chess'] |];
      inversion H; split; reflexivity.
  - inversion H. split; reflexivity.
Qed.

Lemma attemptLoop_failed (fuel : nat) (isWhiteTurn mcpReady : bool)
    (id : string) (llm : nat -> option string) (remaining : nat) :
  forall attempts st st',
    attemptLoop trim matchMove firstToken fuel remaining attempts
      isWhiteTurn mcpReady id llm st = (false, st') ->
    st_chess st' = st_chess st /\ st_moveHistory st' = st_moveHistory st.
Proof.
  induction remaining as [| remaining IH]; intros attempts st st' H;
    cbn [attemptLoop] in H.
  - inversion H. split; reflexivity.
  - destruct (attempt trim matchMove firstToken fuel isWhiteTurn mcpReady id
                (llm attempts) st) as [[|] st1] eqn:Hstep;
      [discriminate |].
    destruct (attempt_failed _ _ _ _ _ _ _ Hstep) as [H1 H2].
    destruct (IH _ _ _ H) as [H3 H4]. split; congruence.
Qed.

Lemma gameLoop_resignation (Hlegal : LegalMovesApply) (Hdead : NoDeadEnd)
    (fuel : nat) (mcpReady : bool) (id : string)
    (llm : nat -> nat -> option string) (turns : nat) :
  forall st st',
    gameLoop trim matchMove firstToken fuel turns mcpReady id llm st
      = (Resignation, st') ->
    isWhite (turn (st_chess st')) = true /\
    isGameOver (st_chess st') = false.
Proof.
  induction turns as [| turns IH]; intros st st' H; cbn [gameLoop] in H;
    destruct (isGameOver (st_chess st)) eqn:Hover; try discriminate.
  destruct (attemptLoop trim matchMove firstToken fuel maxAttempts 0
              (isWhite (turn (st_chess st))) mcpReady id
              (llm (length (st_moveHistory st))) st)
    as [[|] st1] eqn:Hturn.
  - apply (IH _ _ H).
  - inversion H. subst st1.
    destruct (attemptLoop_failed _ _ _ _ _ _ _ _ _ Hturn) as [Hchess _].
    rewrite Hchess. split; [| exact Hover].
    destruct (isWhite (turn (st_chess st))) eqn:Hwhite; [reflexivity |].
    assert (Hne : moves (st_chess st) <> []).
    { intros Hnil. rewrite (Hdead _ Hnil) in Hover. discriminate. }
    destruct (black_attempt_succeeds Hlegal fuel mcpReady id
                (llm (length (st_moveHistory st)) 0%nat) st Hne)
      as (m & result & chess' & _ & _ & _ & Hstep).
    cbn [attemptLoop maxAttempts] in Hturn. rewrite Hstep in Hturn.
    discriminate.
Qed.

(** X18.  Only White can resign: a game left because a player made no
    legal move in three attempts was left with White to move.  The board
    is then not over, and the result announced is 'Unknown' with no
    winner. *)
Theorem resignation_is_white_and_unknown
    (Hlegal : LegalMovesApply) (Hdead : NoDeadEnd) (Hover : OverCovers)
    (fuel turns : nat) (mcpReady : bool) (mcpGameId : string)
    (llm : nat -> nat -> option string) (games : gmap string Position)
    (st : GameState) (result : string * option string) :
  runGame trim matchMove firstToken isThreefoldRepetition
    isInsufficientMaterial fuel turns mcpReady mcpGameId llm games
    = (Resignation, st, result) ->
  isWhite (turn (st_chess st)) = true /\
  isGameOver (st_chess st) = false /\
  result = ("Unknown", None).
Proof.
  unfold runGame. intros H.
  destruct (gameLoop _ _ _ _ _ _ _ _ _) as [ending st1] eqn:Hloop.
  inversion H. subst ending st1.
  destruct (gameLoop_resignation Hlegal Hdead _ _ _ _ _ _ _ Hloop)
    as [Hwhite Hnot].
  split; [exact Hwhite |]. split; [exact Hnot |].
  destruct (Hover _ Hnot) as [Hmate Hdraw].
  unfold gameResult. rewrite Hmate, Hdraw. reflexivity.
Qed.

End GameMore.

(** ** The further properties on concrete games *)

Lemma tree_no_dead_end (t : GameTree.Tree) :
  @NoDeadEnd _ (GameTree.engine t).
Proof.
  intros chess H. simpl in *.
  unfold GameTree.mate, GameTree.stale, GameTree.noMoves.
  destruct (GameTree.kids (GameTree.current chess)); [| discriminate H].
  destruct (GameTree.n_check (GameTree.info (GameTree.current chess)));
    reflexivity.
Qed.

(** In the game [cutoff] the position [b], Black to move, shows the board
    of the root mirrored and has as many moves: its evaluation is the
    negation of that of the root. *)
Lemma evaluatePosition_mirror_witness :
  evaluatePosition (E := GameTree.engine GameTree.cutoff)
    (GameTree.mkPos GameTree.cutoffB [GameTree.cutoff])
  = negScore (evaluatePosition (E := GameTree.engine GameTree.cutoff)
                (GameTree.at_root GameTree.cutoff)).
Proof.
  apply (evaluatePosition_mirror (E := GameTree.engine GameTree.cutoff)
           (GameTree.at_root GameTree.cutoff)
           (GameTree.mkPos GameTree.cutoffB [GameTree.cutoff]));
    vm_compute; reflexivity.
Defined.

(** A black pawn put on a7 lowers the board score by at least 80. *)
Lemma boardScore_add_piece_witness :
  boardScore (GameTree.place 0 7 Pawn Black GameTree.kingsBoard)
  <= boardScore GameTree.kingsBoard - 80.
Proof.
  destruct (boardScore_add_piece GameTree.kingsBoard
              (GameTree.place 0 7 Pawn Black GameTree.kingsBoard)
              1 0 (mkPiece Pawn Black)) as (_ & _ & H).
  - lia.
  - lia.
  - reflexivity.
  - reflexivity.
  - intros r c Hr Hc Hne.
    do 8 (destruct r as [| r];
          [do 8 (destruct c as [| c];
                 [first [reflexivity | contradiction Hne; reflexivity] |]);
           lia |]).
    lia.
  - apply H. reflexivity.
Defined.

(** The search of the game [rooks] returns a finite value. *)
Lemma minimax_value_is_finite_witness :
  exists z,
    minimax (E := GameTree.engine GameTree.rooks) 3 2 NegInf PosInf true
      (GameTree.at_root GameTree.rooks)
    = Ok (Fin z, GameTree.at_root GameTree.rooks).
Proof.
  destruct (minimax_value_is_finite (E := GameTree.engine GameTree.rooks)
              (tree_no_dead_end GameTree.rooks)) as (_ & H).
  apply H.
  - apply tree_moves_apply.
  - apply tree_undo_reverts.
  - lia.
  - simpl. lia.
Defined.

(** In the game [rooks], depth 2, the move returned is one of the ranked
    moves. *)
Lemma getBestMove_is_optimal_witness :
  exists front m back,
    getBestMove (E := GameTree.engine GameTree.rooks) 2 2
      (GameTree.at_root GameTree.rooks)
    = Ok (Some m, GameTree.at_root GameTree.rooks) /\
    ranked (E := GameTree.engine GameTree.rooks)
      (GameTree.at_root GameTree.rooks) ["Ra8#"; "Rxh1+"]
    = (front ++ m :: back)%list.
Proof.
  destruct (getBestMove_is_optimal
              (tree_moves_apply GameTree.rooks)
              (tree_undo_reverts GameTree.rooks)
              2 2 (GameTree.at_root GameTree.rooks))
    as (front & m & back & H1 & H2 & _).
  - lia.
  - simpl. lia.
  - simpl. discriminate.
  - exists front, m, back. split; [exact H1 | exact H2].
Defined.

(** Depth -1 and depth 0 search the game [rooks] alike. *)
Lemma nonpositive_depth_is_no_limit_witness :
  getBestMove (E := GameTree.engine GameTree.rooks) 3 (-1)
    (GameTree.at_root GameTree.rooks)
  = getBestMove (E := GameTree.engine GameTree.rooks) 3 0
      (GameTree.at_root GameTree.rooks).
Proof.
  destruct (nonpositive_depth_is_no_limit
              (E := GameTree.engine GameTree.rooks) 3) as (_ & _ & H & _).
  apply H; lia.
Defined.

(** In the game [pawnTakesQueen] the three quiet moves keep their order. *)
Lemma orderMoves_is_stable_witness :
  exists r,
    orderMoves (E := GameTree.engine GameTree.pawnTakesQueen)
      ["Kd1"; "e5"; "exd5"; "Kf1"]
      (GameTree.at_root GameTree.pawnTakesQueen)
    = Ok (r, GameTree.at_root GameTree.pawnTakesQueen) /\
    List.filter
      (fun m => heuristic (E := GameTree.engine GameTree.pawnTakesQueen)
                  (GameTree.at_root GameTree.pawnTakesQueen) m =? 0) r
    = ["Kd1"; "e5"; "Kf1"].
Proof.
  destruct (orderMoves_is_stable
              (tree_moves_apply GameTree.pawnTakesQueen)
              (tree_undo_reverts GameTree.pawnTakesQueen)
              (GameTree.at_root GameTree.pawnTakesQueen)
              ["Kd1"; "e5"; "exd5"; "Kf1"]
              (fun m H => H))
    as (r & Hr & Hk & _).
  exists r. split; [exact Hr |]. rewrite (Hk 0). reflexivity.
Defined.

(** In the game [twoCaptures] the capture by the knight comes before the
    quiet king move. *)
Lemma orderMoves_captures_and_quiet_moves_witness :
  exists r,
    orderMoves (E := GameTree.engine MoreGames.twoCaptures)
      ["Kxd2"; "Kc2"; "Nxd5"]
      (GameTree.at_root MoreGames.twoCaptures)
    = Ok (r, GameTree.at_root MoreGames.twoCaptures) /\
    forall i j,
      nth_error r i = Some "Nxd5" -> nth_error r j = Some "Kc2" ->
      (i < j)%nat.
Proof.
  destruct (orderMoves_captures_and_quiet_moves
              (tree_moves_apply MoreGames.twoCaptures)
              (tree_undo_reverts MoreGames.twoCaptures)
              (GameTree.at_root MoreGames.twoCaptures)
              ["Kxd2"; "Kc2"; "Nxd5"]
              (fun m H => H))
    as (r & Hr & Hord).
  exists r. split; [exact Hr |].
  intros i j Hi Hj.
  destruct (Hord i j "Nxd5" "Kc2" Knight Hi Hj) as [H _].
  - eexists. eexists. exists Pawn. split; [reflexivity |].
    split; [reflexivity |]. split; [reflexivity |].
    split; [discriminate | reflexivity].
  - eexists. eexists. split; [reflexivity |]. split; reflexivity.
  - apply H. discriminate.
Defined.

(** The search of the second copy on the game [rooks], depth 2. *)
Lemma simple_search_is_optimal_witness :
  Simple.minimax (E := GameTree.engine GameTree.rooks) 3 2 NegInf PosInf true
    (GameTree.at_root GameTree.rooks)
  = Ok (fullMinimax (E := GameTree.engine GameTree.rooks)
          (Simple.evaluatePosition (E := GameTree.engine GameTree.rooks))
          2 (GameTree.at_root GameTree.rooks) true,
        GameTree.at_root GameTree.rooks).
Proof.
  destruct (simple_search_is_optimal
              (tree_moves_apply GameTree.rooks)
              (tree_undo_reverts GameTree.rooks)
              3 2 (GameTree.at_root GameTree.rooks)) as (H & _).
  apply H.
  - lia.
  - simpl. lia.
Defined.

(** The second copy values the root of [rooks] at its material balance. *)
Lemma simple_evaluation_is_material_witness :
  Simple.evaluatePosition (E := GameTree.engine GameTree.rooks)
    (GameTree.at_root GameTree.rooks)
  = Fin (materialBalance GameTree.rooksBoard).
Proof.
  apply (simple_evaluation_is_material (E := GameTree.engine GameTree.rooks)
           (GameTree.at_root GameTree.rooks)); reflexivity.
Defined.

(** new_game on a map that holds another game leaves that game alone. *)
Lemma new_game_then_lookup_witness :
  exists r games',
    callTool (E := GameTree.engine GameTree.rooks) 0 "new_game"
      {| arg_game_id := "g"; arg_move := ""; arg_depth := None |}
      {[ "h" := GameTree.at_root GameTree.rooksAfterKg8 ]}
    = Ok (r, games') /\
    games' !! "g" = Some (GameTree.at_root GameTree.rooks) /\
    games' !! "h" = Some (GameTree.at_root GameTree.rooksAfterKg8).
Proof.
  destruct (new_game_then_lookup (E := GameTree.engine GameTree.rooks) 0
              {| arg_game_id := "g"; arg_move := ""; arg_depth := None |}
              {[ "h" := GameTree.at_root GameTree.rooksAfterKg8 ]})
    as (r & games' & Hcall & _ & Hnew & Hother & _).
  exists r, games'. split; [exact Hcall |]. split; [exact Hnew |].
  rewrite (Hother "h"); [apply lookup_singleton_eq | discriminate].
Defined.

(** make_move with a move that is not legal in the game [rooks]. *)
Lemma make_move_then_legal_moves_witness :
  callTool (E := GameTree.engine GameTree.rooks) 0 "make_move"
    {| arg_game_id := "g"; arg_move := "Ke2"; arg_depth := None |}
    {[ "g" := GameTree.at_root GameTree.rooks ]}
  = Ok ({| text := "Invalid move: Ke2"; isError := true |},
        {[ "g" := GameTree.at_root GameTree.rooks ]}).
Proof.
  destruct (make_move_then_legal_moves (E := GameTree.engine GameTree.rooks) 0
              {| arg_game_id := "g"; arg_move := "Ke2"; arg_depth := None |}
              {[ "g" := GameTree.at_root GameTree.rooks ]}
              (GameTree.at_root GameTree.rooks)
              (lookup_singleton_eq _ _)) as (_ & H).
  apply H. reflexivity.
Defined.

Lemma rooks_moves_named (m : Move) :
  In m (moves (RulesEngine := GameTree.engine GameTree.rooks)
          (GameTree.at_root GameTree.rooks)) ->
  m <> "".
Proof.
  simpl. intros [<- | [<- | []]]; discriminate.
Qed.

(** get_best_move on the game [rooks] answers without error and leaves the
    game as it was. *)
Lemma get_best_move_then_make_move_witness :
  exists r,
    callTool (E := GameTree.engine GameTree.rooks) 3 "get_best_move"
      {| arg_game_id := "g"; arg_move := ""; arg_depth := None |}
      {[ "g" := GameTree.at_root GameTree.rooks ]}
    = Ok (r, {[ "g" := GameTree.at_root GameTree.rooks ]}) /\
    isError r = false.
Proof.
  destruct (get_best_move_then_make_move
              (tree_moves_apply GameTree.rooks)
              (tree_undo_reverts GameTree.rooks)
              3 {| arg_game_id := "g"; arg_move := ""; arg_depth := None |}
              {[ "g" := GameTree.at_root GameTree.rooks ]}
              (GameTree.at_root GameTree.rooks))
    as (r & H1 & H2 & _).
  - apply lookup_singleton_eq.
  - lia.
  - exact I.
  - apply rooks_moves_named.
  - exists r. split; [exact H1 | exact H2].
Defined.

(** A move made in the game "g" leaves every other game as it was. *)
Lemma callTool_touches_one_game_witness :
  ({[ "g" := GameTree.mkPos GameTree.rooksMate1 [GameTree.rooks] ]}
     : gmap string GameTree.Pos) !! "h"
  = ({[ "g" := GameTree.at_root GameTree.rooks ]}
       : gmap string GameTree.Pos) !! "h".
Proof.
  destruct (callTool_touches_one_game
              (tree_undo_reverts GameTree.rooks) 0 "make_move"
              {| arg_game_id := "g"; arg_move := "Ra8#"; arg_depth := None |}
              {[ "g" := GameTree.at_root GameTree.rooks ]}
              {[ "g" := GameTree.mkPos GameTree.rooksMate1 [GameTree.rooks] ]}
              {| text := "Move Ra8# played successfully"; isError := false |})
    as (_ & H & _).
  - vm_compute. reflexivity.
  - apply H. discriminate.
Defined.

(** Without the game on the chess server the player falls back on the
    answer of the language model, here a legal move. *)
Lemma getMCPPlayerMove_is_legal_witness :
  exists m,
    getMCPPlayerMove (E := GameTree.engine GameTree.rooks)
      (fun s => s) (fun _ => None) (fun s => s) 3 true ∅ (Some "Ra8#")
      (GameTree.at_root GameTree.rooks) "g" = Some m /\
    In m (moves (RulesEngine := GameTree.engine GameTree.rooks)
            (GameTree.at_root GameTree.rooks)).
Proof.
  pose proof (getMCPPlayerMove_is_legal (E := GameTree.engine GameTree.rooks)
                (fun s => s) (fun _ => None) (fun s => s) 3 true ∅
                (Some "Ra8#") (GameTree.at_root GameTree.rooks) "g") as H.
  destruct (getMCPPlayerMove (fun s => s) (fun _ => None) (fun s => s) 3 true
              ∅ (Some "Ra8#") (GameTree.at_root GameTree.rooks) "g")
    as [m |].
  - exists m. split; [reflexivity | apply H].
  - discriminate H.
Defined.

(** With the game [rooks] on the chess server the player plays the move of
    the engine whatever the language model answers. *)
Lemma getMCPPlayerMove_plays_engine_move_witness :
  exists m,
    getBestMove (E := GameTree.engine GameTree.rooks) 3 3
      (GameTree.at_root GameTree.rooks)
    = Ok (Some m, GameTree.at_root GameTree.rooks) /\
    forall llm,
      getMCPPlayerMove (E := GameTree.engine GameTree.rooks)
        (fun s => s) (fun _ => None) (fun s => s) 3 true
        {[ "g" := GameTree.at_root GameTree.rooks ]} llm
        (GameTree.at_root GameTree.rooks) "g" = Some m.
Proof.
  apply (getMCPPlayerMove_plays_engine_move
           (E := GameTree.engine GameTree.rooks)
           (fun s => s) (fun _ => None) (fun s => s)
           (tree_moves_apply GameTree.rooks)
           (tree_undo_reverts GameTree.rooks)
           3 {[ "g" := GameTree.at_root GameTree.rooks ]}
           (GameTree.at_root GameTree.rooks) "g").
  - apply lookup_singleton_eq.
  - lia.
  - simpl. discriminate.
  - intros m Hm. split; [reflexivity | apply rooks_moves_named, Hm].
Defined.

(** ** A whole game on the game [rooks] *)

Lemma tree_over_covers (t : GameTree.Tree) :
  @OverCovers _ (GameTree.engine t).
Proof.
  intros chess H. simpl in *.
  destruct (GameTree.mate chess); [discriminate H |].
  destruct (GameTree.stale chess); [discriminate H |].
  split; [reflexivity | exact H].
Qed.

(** However far the game [rooks] is played, the chess server holds its
    board. *)
Lemma runGame_keeps_server_in_sync_witness :
  let st :=
    snd (fst (runGame (E := GameTree.engine GameTree.rooks)
                (fun s => s) (fun _ => None) (fun s => s)
                (fun _ => false) (fun _ => false)
                3 5 true "g" (fun _ _ => Some "Ra8#") ∅)) in
  st_games st !! "g" = Some (st_chess st).
Proof.
  destruct (runGame_keeps_server_in_sync
              (E := GameTree.engine GameTree.rooks)
              (fun s => s) (fun _ => None) (fun s => s)
              (fun _ => false) (fun _ => false)
              (tree_undo_reverts GameTree.rooks)
              3 5 "g" (fun _ _ => Some "Ra8#") ∅) as (H & _).
  exact H.
Defined.

(** After Rxh1+ in the game [rooks] Black plays Kg8, the move of the
    engine, whatever the language model answers. *)
Lemma black_turn_plays_at_once_witness :
  exists m,
    getBestMove (E := GameTree.engine GameTree.rooks) 3 3
      (GameTree.mkPos GameTree.rooksAfterCapture [GameTree.rooks])
    = Ok (Some m,
          GameTree.mkPos GameTree.rooksAfterCapture [GameTree.rooks]) /\
    forall llm,
      fst (attemptLoop (E := GameTree.engine GameTree.rooks)
             (fun s => s) (fun _ => None) (fun s => s) 3 maxAttempts 0
             false true "g" llm
             {| st_chess :=
                  GameTree.mkPos GameTree.rooksAfterCapture [GameTree.rooks];
                st_moveHistory := ["Rxh1+"];
                st_games :=
                  {[ "g" := GameTree.mkPos GameTree.rooksAfterCapture
                              [GameTree.rooks] ]} |})
      = true.
Proof.
  destruct (black_turn_plays_at_once
              (E := GameTree.engine GameTree.rooks)
              (fun s => s) (fun _ => None) (fun s => s)
              (tree_moves_apply GameTree.rooks)
              3 "g"
              {| st_chess :=
                   GameTree.mkPos GameTree.rooksAfterCapture [GameTree.rooks];
                 st_moveHistory := ["Rxh1+"];
                 st_games :=
                   {[ "g" := GameTree.mkPos GameTree.rooksAfterCapture
                               [GameTree.rooks] ]} |}) as (_ & H).
  - simpl. discriminate.
  - destruct H as (m & Hbest & Hturn).
    + apply tree_undo_reverts.
    + lia.
    + apply lookup_singleton_eq.
    + simpl. intros m [<- | []]. split; [reflexivity | discriminate].
    + exists m. split; [exact Hbest |].
      intros llm. rewrite (Hturn llm). reflexivity.
Defined.

(** White answers three times with a move that is not legal: the game
    [rooks] is left by resignation and announced as 'Unknown'. *)
Lemma resignation_is_white_and_unknown_witness :
  runGame (E := GameTree.engine GameTree.rooks)
    (fun s => s) (fun _ => None) (fun s => s)
    (fun _ => false) (fun _ => false)
    3 5 true "g" (fun _ _ => Some "Ke2") ∅
  = (Resignation,
     {| st_chess := GameTree.at_root GameTree.rooks;
        st_moveHistory := [];
        st_games := {[ "g" := GameTree.at_root GameTree.rooks ]} |},
     ("Unknown", None)) /\
  isGameOver (RulesEngine := GameTree.engine GameTree.rooks)
    (GameTree.at_root GameTree.rooks) = false.
Proof.
  assert (Hrun :
            runGame (E := GameTree.engine GameTree.rooks)
              (fun s => s) (fun _ => None) (fun s => s)
              (fun _ => false) (fun _ => false)
              3 5 true "g" (fun _ _ => Some "Ke2") ∅
            = (Resignation,
               {| st_chess := GameTree.at_root GameTree.rooks;
                  st_moveHistory := [];
                  st_games := {[ "g" := GameTree.at_root GameTree.rooks ]} |},
               ("Unknown", None))).
  { vm_compute. reflexivity. }
  split; [exact Hrun |].
  destruct (resignation_is_white_and_unknown
              (E := GameTree.engine GameTree.rooks)
              (fun s => s) (fun _ => None) (fun s => s)
              (fun _ => false) (fun _ => false)
              (tree_moves_apply GameTree.rooks)
              (tree_no_dead_end GameTree.rooks)
              (tree_over_covers GameTree.rooks)
              3 5 true "g" (fun _ _ => Some "Ke2") ∅ _ _ Hrun)
    as (_ & H & _).
  exact H.
Defined.
